(** * The distributed dual-tree task queue

    A shallow embedding of
    [core/parallel/distributed_dualtree_task_queue.h]
    (class [DistributedDualtreeTaskQueue]) and the properties of its
    dispatcher that the specification states.

    Conventions of the embedding.
    - Every member function is a function on the record of the member
      variables, in the option monad: [None] stands for an execution
      to which the source gives no result (an access outside a
      [std::vector] or [std::deque], a dereference of the null pointer,
      a loop that never leaves).  The class has no [abort], assertion
      or exception, so [None] is never a stop that the code asks for;
      for the two members that index by a looked-up id the case is
      named by [Outcome].
    - [unsigned long int] is a 64-bit word, kept as a [Z] with the
      reduction modulo [2^64] written out ([wrap64]).
    - [int] counters ([num_remaining_tasks_], indices, point counts)
      are kept as unbounded [Z] or [nat]: signed overflow is undefined
      in the source and the model covers the executions that stay in
      range.
    - The nested OpenMP lock is taken on entry and released on exit of
      every public member; the embedding is of the code that runs
      inside the critical section. *)

From stdpp Require Import base numbers option list.


Set Default Proof Using "Type".

(** ** Trees, tables and tasks *)

(** [TreeType]: a node of a binary space tree.  The source works with
    [TreeType *]; the address of a node is kept as a tag so that
    pointer comparison can be written. *)
Inductive TreeType : Type :=
| Leaf (addr begin_ count_ : Z)
| Node (addr begin_ count_ : Z) (left_ right_ : TreeType).

Definition tree_addr (t : TreeType) : Z :=
  match t with Leaf a _ _ => a | Node a _ _ _ _ => a end.

Definition tree_begin (t : TreeType) : Z :=
  match t with Leaf _ b _ => b | Node _ b _ _ _ => b end.

Definition tree_count (t : TreeType) : Z :=
  match t with Leaf _ _ c => c | Node _ _ c _ _ => c end.

Definition is_leaf (t : TreeType) : bool :=
  match t with Leaf _ _ _ => true | Node _ _ _ _ _ => false end.

(** [left()] and [right()] return the null pointer at a leaf. *)
Definition left (t : TreeType) : option TreeType :=
  match t with Leaf _ _ _ => None | Node _ _ _ l _ => Some l end.

Definition right (t : TreeType) : option TreeType :=
  match t with Leaf _ _ _ => None | Node _ _ _ _ r => Some r end.

(** [p == q] on two [TreeType *]. *)
Definition same_node (p q : TreeType) : bool :=
  (tree_addr p =? tree_addr q)%Z.

Record TableType : Type := mkTable {
  rank : Z;
  get_tree : TreeType
}.

Record SubTableType : Type := mkSubTable {
  table : TableType
}.

(** The metric together with the two bounds: [metric_in q r] is
    [q->bound().RangeDistanceSq(metric_in, r->bound()).mid()].  The
    source computes it in floating point; only its negation and its
    order are used here. *)
Definition MetricType : Type := TreeType → TreeType → Z.

Record TaskType : Type := mkTask {
  query_start_node : TreeType;
  reference_table : TableType;
  reference_start_node : TreeType;
  cache_id : Z;
  priority : Z
}.

(** ** The task priority queue

    Modelled from the spec: the template argument
    [TaskPriorityQueueType] is not part of the sources; the spec
    describes it as a max-heap on the priority.  It is kept as the
    list of its tasks in the order in which [top]/[pop] deliver
    them. *)
Abbreviation TaskPriorityQueueType := (list TaskType).

Definition pq_size (q : TaskPriorityQueueType) : nat := length q.

Fixpoint pq_push (t : TaskType) (q : TaskPriorityQueueType)
  : TaskPriorityQueueType :=
  match q with
  | [] => [t]
  | u :: q' =>
      if (priority u <? priority t)%Z then t :: u :: q'
      else u :: pq_push t q'
  end.

Definition pq_top (q : TaskPriorityQueueType) : option TaskType := head q.

Definition pq_pop (q : TaskPriorityQueueType) : TaskPriorityQueueType :=
  tail q.

(** ** The interval set

    Modelled from the spec: [core::parallel::DisjointIntIntervals] is
    not part of the sources.  The spec: a set of half-open integer
    intervals over a (rank, lo, hi) triple; [Insert] returns true on
    the first insertion of an interval and false if it is already
    covered or subsumed. *)
Abbreviation Interval := (Z * Z * Z)%type.

Abbreviation DisjointIntIntervals := (list (Z * Z * Z)).

Definition subsumes (y x : Interval) : bool :=
  let '(ry, loy, hiy) := y in
  let '(rx, lox, hix) := x in
  (ry =? rx)%Z && (loy <=? lox)%Z && (hix <=? hiy)%Z.

Definition Covered (s : DisjointIntIntervals) (x : Interval) : bool :=
  existsb (λ y, subsumes y x) s.

Definition Insert (s : DisjointIntIntervals) (x : Interval)
  : DisjointIntIntervals * bool :=
  if Covered s x then (s, false) else (x :: s, true).

(** ** The table exchange

    Modelled from the spec: [core::parallel::TableExchange] is not part
    of the sources.  Its queries are fields of the handle; the calls
    that change it ([LockCache], [ReleaseCache],
    [push_completed_computation]) are recorded, oldest first. *)
Inductive ExchangeCall : Type :=
| LockCache (cache_id_in num_times : Z)
| ReleaseCache_call (cache_id_in num_times : Z)
| PushCompleted (quantity_in : Z).

Record TableExchangeType : Type := mkExchange {
  FindSubTable : Z → option SubTableType;
  local_table : TableType;
  FindByBeginCount : Z → Z → option TreeType;
  exchange_can_terminate : bool;
  calls : list ExchangeCall
}.

Definition exchange_call (c : ExchangeCall) (e : TableExchangeType)
  : TableExchangeType :=
  {| FindSubTable := FindSubTable e;
     local_table := local_table e;
     FindByBeginCount := FindByBeginCount e;
     exchange_can_terminate := exchange_can_terminate e;
     calls := calls e ++ [c] |}.

(** The number of times [LockCache] raised the count of [cid]. *)
Definition lock_increment (cid : Z) (c : ExchangeCall) : Z :=
  match c with
  | LockCache i n => if (i =? cid)%Z then n else 0%Z
  | _ => 0%Z
  end.

Definition lock_total (cid : Z) (cs : list ExchangeCall) : Z :=
  foldr (λ c acc, (lock_increment cid c + acc)%Z) 0%Z cs.

Definition is_lock (c : ExchangeCall) : bool :=
  match c with LockCache _ _ => true | _ => false end.

(** ** The member variables *)

Record DistributedDualtreeTaskQueue : Type := mkQueue {
  query_subtrees_ : list TreeType;
  assigned_work_ : list DisjointIntIntervals;
  remaining_work_for_query_subtrees_ : list Z;
  query_subtree_locks_ : list bool;
  tasks_ : list TaskPriorityQueueType;
  split_subtree_after_unlocking_ : bool;
  table_exchange_ : TableExchangeType;
  num_remaining_tasks_ : Z;
  remaining_global_computation_ : Z;
  remaining_local_computation_ : Z
}.

Abbreviation State := DistributedDualtreeTaskQueue.

Definition set_query_subtrees (v : list TreeType) (st : State) : State :=
  mkQueue v (assigned_work_ st) (remaining_work_for_query_subtrees_ st)
    (query_subtree_locks_ st) (tasks_ st) (split_subtree_after_unlocking_ st)
    (table_exchange_ st) (num_remaining_tasks_ st)
    (remaining_global_computation_ st) (remaining_local_computation_ st).

Definition set_assigned_work (v : list DisjointIntIntervals) (st : State)
  : State :=
  mkQueue (query_subtrees_ st) v (remaining_work_for_query_subtrees_ st)
    (query_subtree_locks_ st) (tasks_ st) (split_subtree_after_unlocking_ st)
    (table_exchange_ st) (num_remaining_tasks_ st)
    (remaining_global_computation_ st) (remaining_local_computation_ st).

Definition set_remaining_work (v : list Z) (st : State) : State :=
  mkQueue (query_subtrees_ st) (assigned_work_ st) v
    (query_subtree_locks_ st) (tasks_ st) (split_subtree_after_unlocking_ st)
    (table_exchange_ st) (num_remaining_tasks_ st)
    (remaining_global_computation_ st) (remaining_local_computation_ st).

Definition set_locks (v : list bool) (st : State) : State :=
  mkQueue (query_subtrees_ st) (assigned_work_ st)
    (remaining_work_for_query_subtrees_ st) v (tasks_ st)
    (split_subtree_after_unlocking_ st) (table_exchange_ st)
    (num_remaining_tasks_ st) (remaining_global_computation_ st)
    (remaining_local_computation_ st).

Definition set_tasks (v : list TaskPriorityQueueType) (st : State) : State :=
  mkQueue (query_subtrees_ st) (assigned_work_ st)
    (remaining_work_for_query_subtrees_ st) (query_subtree_locks_ st) v
    (split_subtree_after_unlocking_ st) (table_exchange_ st)
    (num_remaining_tasks_ st) (remaining_global_computation_ st)
    (remaining_local_computation_ st).

Definition set_split_flag (v : bool) (st : State) : State :=
  mkQueue (query_subtrees_ st) (assigned_work_ st)
    (remaining_work_for_query_subtrees_ st) (query_subtree_locks_ st)
    (tasks_ st) v (table_exchange_ st) (num_remaining_tasks_ st)
    (remaining_global_computation_ st) (remaining_local_computation_ st).

Definition set_exchange (v : TableExchangeType) (st : State) : State :=
  mkQueue (query_subtrees_ st) (assigned_work_ st)
    (remaining_work_for_query_subtrees_ st) (query_subtree_locks_ st)
    (tasks_ st) (split_subtree_after_unlocking_ st) v
    (num_remaining_tasks_ st) (remaining_global_computation_ st)
    (remaining_local_computation_ st).

Definition set_num_remaining_tasks (v : Z) (st : State) : State :=
  mkQueue (query_subtrees_ st) (assigned_work_ st)
    (remaining_work_for_query_subtrees_ st) (query_subtree_locks_ st)
    (tasks_ st) (split_subtree_after_unlocking_ st) (table_exchange_ st) v
    (remaining_global_computation_ st) (remaining_local_computation_ st).

Definition set_remaining_global (v : Z) (st : State) : State :=
  mkQueue (query_subtrees_ st) (assigned_work_ st)
    (remaining_work_for_query_subtrees_ st) (query_subtree_locks_ st)
    (tasks_ st) (split_subtree_after_unlocking_ st) (table_exchange_ st)
    (num_remaining_tasks_ st) v (remaining_local_computation_ st).

Definition set_remaining_local (v : Z) (st : State) : State :=
  mkQueue (query_subtrees_ st) (assigned_work_ st)
    (remaining_work_for_query_subtrees_ st) (query_subtree_locks_ st)
    (tasks_ st) (split_subtree_after_unlocking_ st) (table_exchange_ st)
    (num_remaining_tasks_ st) (remaining_global_computation_ st) v.

(** [unsigned long int] arithmetic. *)
Definition wrap64 (z : Z) : Z := (z mod 2 ^ 64)%Z.

(** A counted loop [for (i = 0; i < n; i++) body]. *)
Fixpoint for_each {S : Type} (body : nat → S → option S)
    (idx : list nat) (s : S) : option S :=
  match idx with
  | [] => Some s
  | i :: idx' => s' ← body i s; for_each body idx' s'
  end.

(** The out-parameter [std::pair<TaskType, int> *task_out]: [None] is
    the default-constructed pair. *)
Abbreviation TaskOut := (option (TaskType * nat)).

(** ** Private members *)

(** [PushTask_]: the reference node of the tuple may be the null
    pointer; [->bound()] dereferences it. *)
Definition PushTask_ (metric_in : MetricType) (push_index : nat)
    (reference_table_node_pair : TableType * option TreeType * Z)
    (st : State) : option State :=
  let '(ref_table, ref_node, cid) := reference_table_node_pair in
  qnode ← query_subtrees_ st !! push_index;
  rnode ← ref_node;
  let new_task := mkTask qnode ref_table rnode cid (- metric_in qnode rnode) in
  heap ← tasks_ st !! push_index;
  Some (set_num_remaining_tasks (num_remaining_tasks_ st + 1)
          (set_tasks (<[push_index := pq_push new_task heap]> (tasks_ st)) st)).

(** The targeted [DequeueTask(probe_index, task_out, lock)]. *)
Definition DequeueTask_at (probe_index : nat) (task_out : TaskOut)
    (lock_query_subtree_in : bool) (st : State) : option (State * TaskOut) :=
  heap ← tasks_ st !! probe_index;
  if bool_decide (0 < pq_size heap) then
    locked ← query_subtree_locks_ st !! probe_index;
    if negb locked then
      top ← pq_top heap;
      Some (set_num_remaining_tasks (num_remaining_tasks_ st - 1)
              (set_locks (<[probe_index := lock_query_subtree_in]>
                            (query_subtree_locks_ st))
                 (set_tasks (<[probe_index := pq_pop heap]> (tasks_ st)) st)),
            Some (top, probe_index))
    else Some (st, task_out)
  else Some (st, task_out).

(** The loop of [split_subtree_] that empties the heap of the subtree
    into [prev_tasks].  An iteration in which [DequeueTask] leaves the
    default-constructed pair has not changed the queue, so the loop
    does not leave: [fuel] bounds the iterations and running out of it
    is [None]. *)
Fixpoint drain_tasks (fuel : nat) (subtree_index : nat)
    (prev_tasks : list TaskType) (st : State)
  : option (State * list TaskType) :=
  heap ← tasks_ st !! subtree_index;
  if bool_decide (0 < pq_size heap) then
    match fuel with
    | O => None
    | S fuel' =>
        r ← DequeueTask_at subtree_index None false st;
        match r.2 with
        | Some task_pair =>
            drain_tasks fuel' subtree_index (prev_tasks ++ [task_pair.1]) r.1
        | None => None
        end
    end
  else Some (st, prev_tasks).

Definition LockCache_ (cid n : Z) (st : State) : State :=
  set_exchange (exchange_call (LockCache cid n) (table_exchange_ st)) st.

(** The body of the second loop of [split_subtree_], for one drained
    task. *)
Definition reissue_task (metric_in : MetricType) (prev_qnode : TreeType)
    (subtree_index : nat) (t : TaskType) (st : State) : option State :=
  let rnode := reference_start_node t in
  let last_index := (length (query_subtrees_ st) - 1)%nat in
  if negb (is_leaf rnode) && same_node prev_qnode rnode then
    let left_pair := (reference_table t, left rnode, cache_id t) in
    let right_pair := (reference_table t, right rnode, cache_id t) in
    st1 ← PushTask_ metric_in subtree_index left_pair st;
    st2 ← PushTask_ metric_in subtree_index right_pair st1;
    st3 ← PushTask_ metric_in last_index left_pair st2;
    st4 ← PushTask_ metric_in last_index right_pair st3;
    Some (LockCache_ (cache_id t) 3 st4)
  else
    let node_pair := (reference_table t, Some rnode, cache_id t) in
    st1 ← PushTask_ metric_in subtree_index node_pair st;
    st2 ← PushTask_ metric_in last_index node_pair st1;
    Some (LockCache_ (cache_id t) 1 st2).

Fixpoint reissue_tasks (metric_in : MetricType) (prev_qnode : TreeType)
    (subtree_index : nat) (prev_tasks : list TaskType) (st : State)
  : option State :=
  match prev_tasks with
  | [] => Some st
  | t :: rest =>
      st' ← reissue_task metric_in prev_qnode subtree_index t st;
      reissue_tasks metric_in prev_qnode subtree_index rest st'
  end.

(** [split_subtree_].  At a leaf [left()] and [right()] are null and the
    slot would hold null pointers from then on; the model stops
    there. *)
Definition split_subtree_ (metric_in : MetricType) (subtree_index : nat)
    (st : State) : option State :=
  prev_qnode ← query_subtrees_ st !! subtree_index;
  l ← left prev_qnode;
  r ← right prev_qnode;
  let st1 :=
    set_locks (query_subtree_locks_ st ++ [false])
      (set_query_subtrees
         (<[subtree_index := l]> (query_subtrees_ st) ++ [r]) st) in
  heap ← tasks_ st1 !! subtree_index;
  d ← drain_tasks (pq_size heap) subtree_index [] st1;
  let st2 := d.1 in
  let prev_tasks := d.2 in
  work ← assigned_work_ st2 !! subtree_index;
  remaining ← remaining_work_for_query_subtrees_ st2 !! subtree_index;
  let st3 :=
    set_remaining_work (remaining_work_for_query_subtrees_ st2 ++ [remaining])
      (set_assigned_work (assigned_work_ st2 ++ [work])
         (set_tasks (tasks_ st2 ++ [[]]) st2)) in
  reissue_tasks metric_in prev_qnode subtree_index prev_tasks st3.

(** [FindQuerySubtreeIndex_]: the least index whose subtree has the
    (begin, count) of the id, or -1. *)
Fixpoint find_from (i : nat) (qbegin qcount : Z) (subtrees : list TreeType)
  : Z :=
  match subtrees with
  | [] => (-1)%Z
  | t :: rest =>
      if (qbegin =? tree_begin t)%Z && (qcount =? tree_count t)%Z
      then Z.of_nat i
      else find_from (S i) qbegin qcount rest
  end.

Definition FindQuerySubtreeIndex_ (query_node_id : Z * Z * Z) (st : State)
  : Z :=
  let '(_, qbegin, qcount) := query_node_id in
  find_from 0 qbegin qcount (query_subtrees_ st).

(** [v[i]] for an [int] index: the element when the index is inside the
    array.  [operator[]] does not test the index; outside the array the
    access is undefined, and [None] stands for that. *)
Definition at_int {A : Type} (v : list A) (i : Z) : option A :=
  if (i <? 0)%Z then None else v !! Z.to_nat i.

(** ** Public members *)

(** The constructor. *)
Definition new_queue (exchange : TableExchangeType) : State :=
  mkQueue [] [] [] [] [] false exchange 0 0 0.

Definition ReleaseCache (cid num_times : Z) (st : State) : State :=
  set_exchange
    (exchange_call (ReleaseCache_call cid num_times) (table_exchange_ st)) st.

Definition size (st : State) : nat := length (query_subtrees_ st).

(** The body of the inner loop of [GenerateTasks]. *)
Definition generate_for_subtree (metric_in : MetricType)
    (interval : Interval)
    (reference_table_node_pair : TableType * option TreeType * Z)
    (j : nat) (st : State) : option State :=
  work ← assigned_work_ st !! j;
  let '(work', fresh) := Insert work interval in
  let st1 := set_assigned_work (<[j := work']> (assigned_work_ st)) st in
  if fresh then
    st2 ← PushTask_ metric_in j reference_table_node_pair st1;
    Some (LockCache_ reference_table_node_pair.2 1 st2)
  else Some st1.

(** The body of the outer loop of [GenerateTasks], for one received
    (rank, begin, count, cache id). *)
Definition generate_for_subtable (metric_in : MetricType)
    (received : Z * Z * Z * Z) (st : State) : option State :=
  let '(_, reference_begin, reference_count, cid) := received in
  let frontier_reference_subtable := FindSubTable (table_exchange_ st) cid in
  let frontier_reference_table :=
    match frontier_reference_subtable with
    | Some sub => table sub
    | None => local_table (table_exchange_ st)
    end in
  let reference_starting_node :=
    match frontier_reference_subtable with
    | Some sub => Some (get_tree (table sub))
    | None =>
        FindByBeginCount (table_exchange_ st) reference_begin reference_count
    end in
  for_each
    (generate_for_subtree metric_in
       (rank frontier_reference_table, reference_begin,
        (reference_begin + reference_count)%Z)
       (frontier_reference_table, reference_starting_node, cid))
    (seq 0 (size st)) st.

Fixpoint GenerateTasks (metric_in : MetricType)
    (received_subtable_ids : list (Z * Z * Z * Z)) (st : State)
  : option State :=
  match received_subtable_ids with
  | [] => Some st
  | received :: rest =>
      st' ← generate_for_subtable metric_in received st;
      GenerateTasks metric_in rest st'
  end.

Definition can_terminate (st : State) : bool :=
  (remaining_global_computation_ st =? 0)%Z
  && exchange_can_terminate (table_exchange_ st).

(** The part the two [push_completed_computation] share. *)
Definition subtract_quantity (quantity_in : Z) (st : State) : State :=
  set_exchange
    (exchange_call (PushCompleted quantity_in) (table_exchange_ st))
    (set_remaining_local
       (wrap64 (remaining_local_computation_ st - quantity_in))
       (set_remaining_global
          (wrap64 (remaining_global_computation_ st - quantity_in)) st)).

(** [push_completed_computation(query_node_id, comm, reference_count_in,
    quantity_in)]. *)
Definition push_completed_computation_for (query_node_id : Z * Z * Z)
    (reference_count_in quantity_in : Z) (st : State) : option State :=
  let st1 := subtract_quantity quantity_in st in
  let found_index := FindQuerySubtreeIndex_ query_node_id st1 in
  remaining ← at_int (remaining_work_for_query_subtrees_ st1) found_index;
  Some (set_remaining_work
          (<[Z.to_nat found_index := wrap64 (remaining - reference_count_in)]>
             (remaining_work_for_query_subtrees_ st1)) st1).

(** [push_completed_computation(comm, reference_count_in, quantity_in)]. *)
Definition push_completed_computation (reference_count_in quantity_in : Z)
    (st : State) : option State :=
  let st1 := subtract_quantity quantity_in st in
  for_each
    (λ i s,
       remaining ← remaining_work_for_query_subtrees_ s !! i;
       Some (set_remaining_work
               (<[i := wrap64 (remaining - reference_count_in)]>
                  (remaining_work_for_query_subtrees_ s)) s))
    (seq 0 (length (query_subtrees_ st1))) st1.

Definition num_remaining_tasks (st : State) : Z := num_remaining_tasks_ st.

Definition is_empty (st : State) : bool := (num_remaining_tasks_ st =? 0)%Z.

Definition set_split_subtree_flag (st : State) : State :=
  set_split_flag true st.

(** The body of the selection loop of [RedistributeAmongCores]; the
    loop state is (split_index_query_size, split_index). *)
Definition select_step (st : State) (i : nat) (sel : Z * Z)
  : option (Z * Z) :=
  locked ← query_subtree_locks_ st !! i;
  if negb locked then
    qnode ← query_subtrees_ st !! i;
    if negb (is_leaf qnode) then
      heap ← tasks_ st !! i;
      if bool_decide (0 < pq_size heap) && (sel.1 <? tree_count qnode)%Z
      then Some (tree_count qnode, Z.of_nat i)
      else Some sel
    else Some sel
  else Some sel.

Definition select_split_index (st : State) : option (Z * Z) :=
  for_each (select_step st) (seq 0 (length (query_subtrees_ st))) (0, -1)%Z.

Definition RedistributeAmongCores (metric_in : MetricType) (st : State)
  : option State :=
  if split_subtree_after_unlocking_ st then
    sel ← select_split_index st;
    st' ← (if (0 <=? sel.2)%Z
           then split_subtree_ metric_in (Z.to_nat sel.2) st
           else Some st);
    Some (set_split_flag false st')
  else Some st.

Definition UnlockQuerySubtree (query_subtree_id : Z * Z * Z) (st : State)
  : option State :=
  let subtree_index := FindQuerySubtreeIndex_ query_subtree_id st in
  _ ← at_int (query_subtree_locks_ st) subtree_index;
  Some (set_locks
          (<[Z.to_nat subtree_index := false]> (query_subtree_locks_ st)) st).

(** [Init].  [frontier] is what [get_frontier_nodes_bounded_by_number]
    stores in [query_subtrees_], [exchange] is the table exchange after
    its own [Init], [n_entries] lists, for every rank of [world], the
    pair [(query_table_in->local_n_entries(i),
    reference_table_in->local_n_entries(i))], and [local_n] is
    [query_table_in->local_table()->n_entries()]. *)
Definition Init (frontier : list TreeType) (exchange : TableExchangeType)
    (n_entries : list (Z * Z)) (local_n : Z) (st : State) : State :=
  let n := length frontier in
  let total_num_query_points :=
    foldl (λ acc e, wrap64 (acc + e.1)) 0%Z n_entries in
  let total_num_reference_points :=
    foldl (λ acc e, wrap64 (acc + e.2)) 0%Z n_entries in
  mkQueue frontier
    (replicate n [])
    (replicate n total_num_reference_points)
    (replicate n false)
    (replicate n [])
    false
    exchange
    (num_remaining_tasks_ st)
    (wrap64 (total_num_query_points * total_num_reference_points))
    (wrap64 (wrap64 local_n * total_num_reference_points)).

(** [v[i] = v.back(); v.pop_back()]. *)
Definition swap_pop {A : Type} (i : nat) (v : list A) : option (list A) :=
  match last v with
  | Some back =>
      if bool_decide (i < length v)
      then Some (take (length v - 1) (<[i := back]> v))
      else None
  | None => None
  end.

(** The cleanup branch of the untargeted [DequeueTask]. *)
Definition retire_subtree (probe_index : nat) (st : State) : option State :=
  qs ← swap_pop probe_index (query_subtrees_ st);
  aw ← swap_pop probe_index (assigned_work_ st);
  rw ← swap_pop probe_index (remaining_work_for_query_subtrees_ st);
  lk ← swap_pop probe_index (query_subtree_locks_ st);
  ts ← swap_pop probe_index (tasks_ st);
  Some (set_tasks ts (set_locks lk (set_remaining_work rw
          (set_assigned_work aw (set_query_subtrees qs st))))).

(** The loop of the untargeted [DequeueTask]; after a cleanup the
    source decrements [probe_index] so that the increment of the loop
    examines the same slot again. *)
Fixpoint DequeueTask_loop (fuel : nat) (probe_index : nat)
    (task_out : TaskOut) (lock_query_subtree_in : bool) (st : State)
  : option (State * TaskOut) :=
  match fuel with
  | O => None
  | S fuel' =>
      if bool_decide (probe_index < length (tasks_ st)) then
        heap ← tasks_ st !! probe_index;
        if bool_decide (0 < pq_size heap) then
          locked ← query_subtree_locks_ st !! probe_index;
          if negb locked then
            top ← pq_top heap;
            Some (set_num_remaining_tasks (num_remaining_tasks_ st - 1)
                    (set_locks (<[probe_index := lock_query_subtree_in]>
                                  (query_subtree_locks_ st))
                       (set_tasks (<[probe_index := pq_pop heap]> (tasks_ st))
                          st)),
                  Some (top, probe_index))
          else DequeueTask_loop fuel' (S probe_index) task_out
                 lock_query_subtree_in st
        else
          remaining ← remaining_work_for_query_subtrees_ st !! probe_index;
          if (remaining =? 0)%Z then
            st' ← retire_subtree probe_index st;
            DequeueTask_loop fuel' probe_index task_out
              lock_query_subtree_in st'
          else DequeueTask_loop fuel' (S probe_index) task_out
                 lock_query_subtree_in st
      else Some (st, task_out)
  end.

(** The untargeted [DequeueTask(task_out, lock)].  Every iteration
    either advances [probe_index] or shortens the arrays, so twice the
    number of slots, and one more for the test that leaves, bounds the
    iterations. *)
Definition DequeueTask (task_out : TaskOut) (lock_query_subtree_in : bool)
    (st : State) : option (State * TaskOut) :=
  DequeueTask_loop (2 * length (tasks_ st) + 1) 0 task_out
    lock_query_subtree_in st.

(** ** The members that index by a looked-up id

    What a call comes to.  [Returns]: the call returns with the member
    variables given.  [Aborts]: the program is stopped by [abort], a
    failed assertion or an uncaught exception.  [Undefined]: the call
    reads or writes outside an array, after which C++ defines nothing
    (the call may well return, with memory next to the array
    changed). *)
Inductive Outcome : Type :=
| Returns (st : State)
| Aborts
| Undefined.

Definition defined (o : Outcome) : option State :=
  match o with Returns st => Some st | Aborts | Undefined => None end.

(** [UnlockQuerySubtree], lines 390-400: the index found goes into
    [query_subtree_locks_[subtree_index]] as it is. *)
Definition UnlockQuerySubtree_outcome (query_subtree_id : Z * Z * Z)
    (st : State) : Outcome :=
  let subtree_index := FindQuerySubtreeIndex_ query_subtree_id st in
  match at_int (query_subtree_locks_ st) subtree_index with
  | Some _ =>
      Returns (set_locks
                 (<[Z.to_nat subtree_index := false]> (query_subtree_locks_ st))
                 st)
  | None => Undefined
  end.

(** The targeted [push_completed_computation], lines 281-300: the index
    found goes into [remaining_work_for_query_subtrees_[found_index]] as
    it is. *)
Definition push_completed_computation_for_outcome (query_node_id : Z * Z * Z)
    (reference_count_in quantity_in : Z) (st : State) : Outcome :=
  let st1 := subtract_quantity quantity_in st in
  let found_index := FindQuerySubtreeIndex_ query_node_id st1 in
  match at_int (remaining_work_for_query_subtrees_ st1) found_index with
  | Some remaining =>
      Returns (set_remaining_work
                 (<[Z.to_nat found_index
                    := wrap64 (remaining - reference_count_in)]>
                    (remaining_work_for_query_subtrees_ st1)) st1)
  | None => Undefined
  end.

(** ** A running example

    Two query subtrees of 100 points each on rank 0 and three
    reference subtables in the cache of the exchange. *)
Module Example.

Definition q0 : TreeType := Node 1 0 100 (Leaf 2 0 50) (Leaf 3 50 50).
Definition q1 : TreeType := Node 4 100 100 (Leaf 5 100 50) (Leaf 6 150 50).
Definition root : TreeType := Node 0 0 200 q0 q1.

Definition r7 : TreeType := Leaf 70 0 50.
Definition r8 : TreeType := Leaf 80 50 50.
Definition r9 : TreeType := Node 90 0 100 (Leaf 91 0 50) (Leaf 92 50 50).

Definition exchange : TableExchangeType :=
  mkExchange
    (λ cid,
       if (cid =? 7)%Z then Some (mkSubTable (mkTable 1 r7))
       else if (cid =? 8)%Z then Some (mkSubTable (mkTable 1 r8))
       else if (cid =? 9)%Z then Some (mkSubTable (mkTable 2 r9))
       else None)
    (mkTable 0 root)
    (λ b c,
       if (b =? 0)%Z && (c =? 200)%Z then Some root
       else if (b =? 0)%Z && (c =? 100)%Z then Some q0
       else if (b =? 100)%Z && (c =? 100)%Z then Some q1
       else None)
    true
    [].

Definition metric : MetricType :=
  λ q r, ((tree_begin q - tree_begin r) * (tree_begin q - tree_begin r))%Z.

Definition arrivals : list (Z * Z * Z * Z) :=
  [(1, 0, 50, 7); (1, 50, 50, 8); (2, 0, 100, 9)]%Z.

(** After [Init] on two ranks of 200 query and 100 reference points. *)
Definition st0 : State :=
  Init [q0; q1] exchange [(200, 100); (200, 100)]%Z 200 (new_queue exchange).

(** After [GenerateTasks] on the three arrivals. *)
Definition st1 : State := default st0 (GenerateTasks metric arrivals st0).

(** After a worker took a task of [q0] and locked the subtree. *)
Definition st2 : State := default st1 (fst <$> DequeueTask None true st1).

(** A queue whose only subtree is the root of the local table, paired
    with itself. *)
Definition self0 : State :=
  Init [root] exchange [(200, 200)]%Z 200 (new_queue exchange).

Definition self1 : State :=
  default self0 (GenerateTasks metric [(0, 0, 200, 1)]%Z self0).

(** All work of [st0] reported complete. *)
Definition finished : State :=
  default st0 (push_completed_computation 200 80000 st0).

(** [st1] after a split was requested and carried out. *)
Definition st3 : State :=
  default st1 (RedistributeAmongCores metric (set_split_subtree_flag st1)).

(** [st1] after the three tasks of [q0] were taken and all work on [q0]
    was reported complete: the heap of slot 0 is empty and no work
    remains for it, the heap of slot 1 holds three tasks. *)
Definition st4 : State :=
  let take := λ st, default st (fst <$> DequeueTask_at 0 None false st) in
  let drained := take (take (take st1)) in
  default drained
    (push_completed_computation_for (0, 0, 100)%Z 200 20000 drained).

End Example.

(** ** Well-formedness of the member variables *)

(** The five parallel arrays have one length. *)
Definition aligned (st : State) : Prop :=
  length (assigned_work_ st) = length (query_subtrees_ st)
  ∧ length (remaining_work_for_query_subtrees_ st) = length (query_subtrees_ st)
  ∧ length (query_subtree_locks_ st) = length (query_subtrees_ st)
  ∧ length (tasks_ st) = length (query_subtrees_ st).

(** The entries of the five arrays at one index. *)
Definition slot (st : State) (i : nat)
  : option (TreeType * DisjointIntIntervals * Z * bool * TaskPriorityQueueType)
  :=
  t ← query_subtrees_ st !! i;
  w ← assigned_work_ st !! i;
  r ← remaining_work_for_query_subtrees_ st !! i;
  b ← query_subtree_locks_ st !! i;
  h ← tasks_ st !! i;
  Some (t, w, r, b, h).

(** The number of tasks in all heaps. *)
Definition total_tasks (ts : list TaskPriorityQueueType) : nat :=
  sum_list_with pq_size ts.

Definition tasks_counted (st : State) : Prop :=
  num_remaining_tasks_ st = Z.of_nat (total_tasks (tasks_ st)).

(** ** Words of the specification about the work counters *)

Definition in_range64 (z : Z) : Prop := (0 ≤ z < 2 ^ 64)%Z.

(** [new] is [old - arg] in 64-bit unsigned arithmetic. *)
Definition decremented64 (old arg new : Z) : Prop :=
  ((arg ≤ old)%Z → new = (old - arg)%Z)
  ∧ ((old < arg)%Z → new = (old - arg + 2 ^ 64)%Z).

Definition counters_in_range (st : State) : Prop :=
  in_range64 (remaining_global_computation_ st)
  ∧ in_range64 (remaining_local_computation_ st)
  ∧ Forall in_range64 (remaining_work_for_query_subtrees_ st).

(** The id names the subtree: the comparison of
    [FindQuerySubtreeIndex_]. *)
Definition id_matches (query_node_id : Z * Z * Z) (t : TreeType) : bool :=
  (query_node_id.1.2 =? tree_begin t)%Z && (query_node_id.2 =? tree_count t)%Z.

(** ** Words of the specification about the untargeted dequeue *)

(** [v'] is [v] with the tail entry swapped into slot [i] and the array
    truncated by one. *)
Definition swap_removed {A : Type} (i : nat) (v v' : list A) : Prop :=
  length v = S (length v')
  ∧ ∀ j, j < length v' →
         v' !! j = if decide (j = i) then v !! length v' else v !! j.

(** The slot [i] is retired: the swap and the truncation happen in all
    five parallel arrays and nothing else changes. *)
Definition retired (i : nat) (st st' : State) : Prop :=
  swap_removed i (query_subtrees_ st) (query_subtrees_ st')
  ∧ swap_removed i (assigned_work_ st) (assigned_work_ st')
  ∧ swap_removed i (remaining_work_for_query_subtrees_ st)
      (remaining_work_for_query_subtrees_ st')
  ∧ swap_removed i (query_subtree_locks_ st) (query_subtree_locks_ st')
  ∧ swap_removed i (tasks_ st) (tasks_ st')
  ∧ split_subtree_after_unlocking_ st' = split_subtree_after_unlocking_ st
  ∧ table_exchange_ st' = table_exchange_ st
  ∧ num_remaining_tasks_ st' = num_remaining_tasks_ st
  ∧ remaining_global_computation_ st' = remaining_global_computation_ st
  ∧ remaining_local_computation_ st' = remaining_local_computation_ st.

(** The top task of slot [i] is taken: the heap loses it, the lock of
    the slot becomes [lock], the counter goes down by one. *)
Definition taken (i : nat) (lock : bool) (rest : TaskPriorityQueueType)
    (st : State) : State :=
  mkQueue (query_subtrees_ st) (assigned_work_ st)
    (remaining_work_for_query_subtrees_ st)
    (<[i := lock]> (query_subtree_locks_ st))
    (<[i := rest]> (tasks_ st))
    (split_subtree_after_unlocking_ st) (table_exchange_ st)
    (num_remaining_tasks_ st - 1)
    (remaining_global_computation_ st) (remaining_local_computation_ st).

(** The scan of the slots from index [i] on, in the words of the
    specification: the answer is the queue after the scan and the
    out-parameter. *)
Inductive scan (task_out : TaskOut) (lock : bool)
  : nat → State → State * TaskOut → Prop :=
| scan_end i st :
    length (tasks_ st) ≤ i →
    scan task_out lock i st (st, task_out)
| scan_take i st top rest :
    tasks_ st !! i = Some (top :: rest) →
    query_subtree_locks_ st !! i = Some false →
    scan task_out lock i st (taken i lock rest st, Some (top, i))
| scan_locked i st top rest r :
    tasks_ st !! i = Some (top :: rest) →
    query_subtree_locks_ st !! i = Some true →
    scan task_out lock (S i) st r →
    scan task_out lock i st r
| scan_working i st w r :
    tasks_ st !! i = Some [] →
    remaining_work_for_query_subtrees_ st !! i = Some w →
    w ≠ 0%Z →
    scan task_out lock (S i) st r →
    scan task_out lock i st r
| scan_retire i st st' r :
    tasks_ st !! i = Some [] →
    remaining_work_for_query_subtrees_ st !! i = Some 0%Z →
    retired i st st' →
    scan task_out lock i st' r →
    scan task_out lock i st r.

(** No slot can serve a task: every heap that holds one is locked. *)
Definition nothing_to_take (st : State) : Prop :=
  ∀ i top rest, tasks_ st !! i = Some (top :: rest) →
                query_subtree_locks_ st !! i = Some true.

(** ** Words of the specification about the split *)

(** The task of query subtree [q] against the reference node [r], for
    the table and the cache id of [t], with its priority computed
    anew. *)
Definition task_for (metric_in : MetricType) (q : TreeType) (t : TaskType)
    (r : TreeType) : TaskType :=
  mkTask q (reference_table t) r (cache_id t) (- metric_in q r).

(** The tasks that replace the drained task [t] for the child [q] of the
    split node [T]: against both children of the reference node when it
    is a non-leaf identical to [T], against the reference node itself
    otherwise. *)
Definition reemitted (metric_in : MetricType) (T q : TreeType) (t : TaskType)
  : list TaskType :=
  match reference_start_node t with
  | Node _ _ _ l r =>
      if same_node T (reference_start_node t)
      then [task_for metric_in q t l; task_for metric_in q t r]
      else [task_for metric_in q t (reference_start_node t)]
  | Leaf _ _ _ => [task_for metric_in q t (reference_start_node t)]
  end.

(** The further cache locks taken for the drained task [t]. *)
Definition lock_times (T : TreeType) (t : TaskType) : Z :=
  if negb (is_leaf (reference_start_node t))
     && same_node T (reference_start_node t)
  then 3%Z else 1%Z.

Definition push_all (new : list TaskType) (h : TaskPriorityQueueType)
  : TaskPriorityQueueType :=
  foldl (λ h t, pq_push t h) h new.

Definition lock_all (T : TreeType) (drained : list TaskType)
    (e : TableExchangeType) : TableExchangeType :=
  foldl (λ e t, exchange_call (LockCache (cache_id t) (lock_times T t)) e)
    e drained.

(** The queue after the split of slot [p], whose node [T] has the
    children [L] and [R], whose heap held [heap] and whose interval set
    and remaining work are [w] and [r]. *)
Definition split_result (metric_in : MetricType) (p : nat) (T L R : TreeType)
    (w : DisjointIntIntervals) (r : Z) (heap : TaskPriorityQueueType)
    (st : State) : State :=
  mkQueue
    (<[p := L]> (query_subtrees_ st) ++ [R])
    (assigned_work_ st ++ [w])
    (remaining_work_for_query_subtrees_ st ++ [r])
    (query_subtree_locks_ st ++ [false])
    (<[p := push_all (heap ≫= reemitted metric_in T L) []]> (tasks_ st)
     ++ [push_all (heap ≫= reemitted metric_in T R) []])
    (split_subtree_after_unlocking_ st)
    (lock_all T heap (table_exchange_ st))
    (num_remaining_tasks_ st - Z.of_nat (pq_size heap)
     + Z.of_nat (length (heap ≫= reemitted metric_in T L))
     + Z.of_nat (length (heap ≫= reemitted metric_in T R)))
    (remaining_global_computation_ st)
    (remaining_local_computation_ st).

(** The queue while the drained tasks are pushed back into the slots
    [p] and [length ts]: [qs] are the subtrees after the split, [ts] the
    heaps before it, [hL] and [hR] the heaps of the two children so
    far, and the other arrays are those of [base]. *)
Definition reissuing (p : nat) (qs : list TreeType)
    (ts : list TaskPriorityQueueType) (base : State)
    (hL hR : TaskPriorityQueueType) (e : TableExchangeType) (num : Z)
  : State :=
  mkQueue qs (assigned_work_ base)
    (remaining_work_for_query_subtrees_ base) (query_subtree_locks_ base)
    (<[p := hL]> ts ++ [hR])
    (split_subtree_after_unlocking_ base) e num
    (remaining_global_computation_ base)
    (remaining_local_computation_ base).

(** ** Words of the specification about the choice of the subtree to
    split *)

(** Slot [i] holds the subtree [t], which may be split: it is not
    locked, it is not a leaf and its heap holds a task. *)
Definition eligible (st : State) (i : nat) (t : TreeType) : Prop :=
  query_subtree_locks_ st !! i = Some false
  ∧ query_subtrees_ st !! i = Some t
  ∧ is_leaf t = false
  ∧ ∃ h, tasks_ st !! i = Some h ∧ 0 < pq_size h.

(** Slot [p] with subtree [T] is the eligible slot with the most
    points, the lowest such index on a tie. *)
Definition largest_eligible (st : State) (p : nat) (T : TreeType) : Prop :=
  eligible st p T
  ∧ (∀ j t, eligible st j t → (tree_count t ≤ tree_count T)%Z)
  ∧ (∀ j t, j < p → eligible st j t → (tree_count t < tree_count T)%Z).

(** Every subtree that is not a leaf holds at least one point. *)
Definition counts_positive (st : State) : Prop :=
  ∀ i t, query_subtrees_ st !! i = Some t → is_leaf t = false →
         (0 < tree_count t)%Z.

(** The state of the selection loop after the slots below [k]. *)
Definition chosen (st : State) (k : nat) (sel : Z * Z) : Prop :=
  (∀ j t, j < k → eligible st j t → (tree_count t ≤ sel.1)%Z)
  ∧ (sel = (0, -1)%Z
     ∨ ∃ p T,
         sel = (tree_count T, Z.of_nat p) ∧ p < k ∧ eligible st p T
         ∧ (0 < tree_count T)%Z
         ∧ ∀ j t, j < p → eligible st j t → (tree_count t < tree_count T)%Z).

(** ** Words of the specification about the arrival of reference
    subtables *)

(** What [GenerateTasks] resolves a received (rank, begin, count, cache
    id) to: the table, the starting node (null when neither the cache
    nor the local table has it) and the interval given to [Insert]. *)
Definition reference_table_of (e : TableExchangeType) (received : Z * Z * Z * Z)
  : TableType :=
  match FindSubTable e received.2 with
  | Some sub => table sub
  | None => local_table e
  end.

Definition reference_node_of (e : TableExchangeType) (received : Z * Z * Z * Z)
  : option TreeType :=
  match FindSubTable e received.2 with
  | Some sub => Some (get_tree (table sub))
  | None => FindByBeginCount e received.1.1.2 received.1.2
  end.

Definition reference_interval (e : TableExchangeType)
    (received : Z * Z * Z * Z) : Interval :=
  (rank (reference_table_of e received), received.1.1.2,
   (received.1.1.2 + received.1.2)%Z).

(** The interval [x] is already covered for the subtree of slot [j]. *)
Definition covered_at (st : State) (j : nat) (x : Interval) : bool :=
  match assigned_work_ st !! j with
  | Some w => Covered w x
  | None => false
  end.

(** The intervals of [X] that the interval set [w] does not cover. *)
Definition uncovered (w : DisjointIntIntervals) (X : list Interval)
  : list Interval :=
  filter (λ x, Covered w x = false) X.

(** The number of tasks in all heaps that hold the cache id [cid]. *)
Definition tasks_holding (cid : Z) (ts : list TaskPriorityQueueType) : nat :=
  sum_list_with (λ h, length (filter (λ t, cache_id t = cid) h)) ts.

(** The locks taken on [cid] so far, less the tasks that hold it. *)
Definition lock_balance (cid : Z) (st : State) : Z :=
  (lock_total cid (calls (table_exchange_ st))
   - Z.of_nat (tasks_holding cid (tasks_ st)))%Z.

(** The calls recorded by the exchange that are not locks, and the
    number of locks less the number of tasks. *)
Definition lock_surplus (st : State) : Z :=
  (Z.of_nat (length (filter (λ c, is_lock c = true)
                       (calls (table_exchange_ st))))
   - Z.of_nat (total_tasks (tasks_ st)))%Z.

(** The exchange answers the same queries. *)
Definition same_queries (e e' : TableExchangeType) : Prop :=
  FindSubTable e' = FindSubTable e
  ∧ local_table e' = local_table e
  ∧ FindByBeginCount e' = FindByBeginCount e
  ∧ exchange_can_terminate e' = exchange_can_terminate e.

(** What [GenerateTasks] leaves alone. *)
Definition generate_frame (st st' : State) : Prop :=
  query_subtrees_ st' = query_subtrees_ st
  ∧ remaining_work_for_query_subtrees_ st'
    = remaining_work_for_query_subtrees_ st
  ∧ query_subtree_locks_ st' = query_subtree_locks_ st
  ∧ split_subtree_after_unlocking_ st' = split_subtree_after_unlocking_ st
  ∧ remaining_global_computation_ st' = remaining_global_computation_ st
  ∧ remaining_local_computation_ st' = remaining_local_computation_ st
  ∧ same_queries (table_exchange_ st) (table_exchange_ st')
  ∧ length (assigned_work_ st') = length (assigned_work_ st)
  ∧ length (tasks_ st') = length (tasks_ st).

(** The queue after a task for the reference node [r] was created in
    slot [j], whose subtree is [q], whose interval set was [w] and
    whose heap was [h]. *)
Definition enqueued (metric_in : MetricType) (x : Interval) (tb : TableType)
    (r : TreeType) (cid : Z) (j : nat) (q : TreeType)
    (w : DisjointIntIntervals) (h : TaskPriorityQueueType) (st : State)
  : State :=
  mkQueue (query_subtrees_ st)
    (<[j := x :: w]> (assigned_work_ st))
    (remaining_work_for_query_subtrees_ st)
    (query_subtree_locks_ st)
    (<[j := pq_push (mkTask q tb r cid (- metric_in q r)) h]> (tasks_ st))
    (split_subtree_after_unlocking_ st)
    (exchange_call (LockCache cid 1) (table_exchange_ st))
    (num_remaining_tasks_ st + 1)
    (remaining_global_computation_ st)
    (remaining_local_computation_ st).

(** The tasks of slot [j] and the intervals of [X] still open for
    it. *)
Definition open_work (X : list Interval) (j : nat) (st : State) : nat :=
  match tasks_ st !! j, assigned_work_ st !! j with
  | Some h, Some w => pq_size h + length (uncovered w X)
  | _, _ => 0
  end.

(** The counters that [GenerateTasks] keeps in step: the locks of every
    cache id against the tasks that hold it, the number of locks
    against the number of tasks, and the task counter against the
    number of tasks. *)
Definition same_accounts (st st' : State) : Prop :=
  (∀ cid, lock_balance cid st' = lock_balance cid st)
  ∧ lock_surplus st' = lock_surplus st
  ∧ (num_remaining_tasks_ st' - Z.of_nat (total_tasks (tasks_ st')))%Z
    = (num_remaining_tasks_ st - Z.of_nat (total_tasks (tasks_ st)))%Z.

(** ** Further words about the untargeted dequeue *)

(** Slot [j] can serve a task: its heap holds one and it is not
    locked. *)
Definition servable (st : State) (j : nat) : Prop :=
  ∃ top rest,
    tasks_ st !! j = Some (top :: rest)
    ∧ query_subtree_locks_ st !! j = Some false.

(** Slot [j] is finished: its heap is empty and no work remains. *)
Definition finished_slot (st : State) (j : nat) : Prop :=
  tasks_ st !! j = Some []
  ∧ remaining_work_for_query_subtrees_ st !! j = Some 0%Z.

(** The tasks of all heaps. *)
Definition pending (st : State) : list TaskType := concat (tasks_ st).

(** The scan has passed the slots below [i]: none of them can serve and
    none of them is finished. *)
Definition passed (st : State) (i : nat) : Prop :=
  ∀ j, j < i → ¬ servable st j ∧ ¬ finished_slot st j.

(** Every task in the heap of a slot is a task of the subtree of that
    slot, with the priority of its pair under [metric_in]. *)
Definition tasks_consistent (metric_in : MetricType) (st : State) : Prop :=
  ∀ j q h t,
    query_subtrees_ st !! j = Some q → tasks_ st !! j = Some h → t ∈ h →
    query_start_node t = q
    ∧ priority t = (- metric_in q (reference_start_node t))%Z.

(** ** Words of the specification about a lookup miss *)

(** The call is a fatal error: it aborts the program. *)
Definition fatal (o : Outcome) : Prop := o = Aborts.

(** * Properties *)

(** ** The scenarios of the specification, run *)

Example st1_heaps :
  pq_size <$> tasks_ Example.st1 = [3; 3]
  ∧ num_remaining_tasks_ Example.st1 = 6%Z
  ∧ (λ c, lock_total c (calls (table_exchange_ Example.st1))) <$> [7; 8; 9]%Z
    = [2; 2; 2]%Z.
Proof. vm_compute. done. Qed.

Example st2_second_dequeue :
  query_subtree_locks_ Example.st2 = [true; false]
  ∧ (λ r : State * TaskOut, snd <$> r.2) <$> DequeueTask None true Example.st2
    = Some (Some 1).
Proof. vm_compute. done. Qed.

Example st3_split :
  query_subtrees_ Example.st3 = [Leaf 2 0 50; Example.q1; Leaf 3 50 50]
  ∧ pq_size <$> tasks_ Example.st3 = [3; 3; 3]
  ∧ num_remaining_tasks_ Example.st3 = 9%Z
  ∧ split_subtree_after_unlocking_ Example.st3 = false
  ∧ (λ c, lock_total c (calls (table_exchange_ Example.st3))) <$> [7; 8; 9]%Z
    = [3; 3; 3]%Z.
Proof. vm_compute. done. Qed.

Example finished_retires_all :
  remaining_work_for_query_subtrees_ Example.finished = [0; 0]%Z
  ∧ (λ r : State * TaskOut, (size r.1, length (tasks_ r.1), r.2))
      <$> DequeueTask None true Example.finished
    = Some (0, 0, None).
Proof. vm_compute. done. Qed.

(** ** The targeted dequeue leaves a slot it cannot serve alone *)

(** C10.  At an index whose heap is empty, and at an index whose heap
    is not empty but whose subtree is locked, the targeted
    [DequeueTask] returns with every member variable as it was and with
    the out-parameter as the caller passed it. *)
Theorem DequeueTask_at_unserved (probe_index : nat) (task_out : TaskOut)
    (lock_query_subtree_in : bool) (st : State)
    (heap : TaskPriorityQueueType) :
  tasks_ st !! probe_index = Some heap →
  pq_size heap = 0 ∨ query_subtree_locks_ st !! probe_index = Some true →
  DequeueTask_at probe_index task_out lock_query_subtree_in st
  = Some (st, task_out).
Proof.
  intros Hheap Hcase. unfold DequeueTask_at. rewrite Hheap. simpl.
  destruct Hcase as [Hempty | Hlocked].
  - rewrite bool_decide_eq_false_2 by lia. done.
  - case_bool_decide; [|done]. rewrite Hlocked. done.
Qed.

Lemma DequeueTask_at_unserved_witness :
  DequeueTask_at 0 None false Example.st2 = Some (Example.st2, None).
Proof.
  apply (DequeueTask_at_unserved 0 None false Example.st2
           (default [] (tasks_ Example.st2 !! 0))).
  - vm_compute. reflexivity.
  - right. vm_compute. reflexivity.
Defined.

(** ** Counted loops *)

Section for_each.
Context {S : Type} (body : nat → S → option S).

Lemma for_each_app (l1 l2 : list nat) (s : S) :
  for_each body (l1 ++ l2) s = for_each body l1 s ≫= for_each body l2.
Proof.
  revert s. induction l1 as [|i l1 IH]; intros s; simpl; [done|].
  destruct (body i s) as [s'|]; simpl; [apply IH | done].
Qed.

(** A property that every iteration keeps is kept by the loop. *)
Lemma for_each_invariant (P : S → Prop) (l : list nat) (s s' : S) :
  (∀ i t t', i ∈ l → P t → body i t = Some t' → P t') →
  P s → for_each body l s = Some s' → P s'.
Proof.
  revert s. induction l as [|i l IH]; intros s Hbody Hs Hrun; simpl in Hrun.
  - by simplify_eq.
  - destruct (body i s) as [t|] eqn:Hi; simpl in Hrun; [|done].
    apply (IH t); [| |done].
    + intros j u u' Hj. apply Hbody. by right.
    + apply (Hbody i s t); [by left|done..].
Qed.

(** A reflexive and transitive relation that every iteration
    establishes holds between the two ends of the loop. *)
Lemma for_each_related (R : S → S → Prop) `{!Reflexive R, !Transitive R}
    (l : list nat) (s s' : S) :
  (∀ i t t', i ∈ l → body i t = Some t' → R t t') →
  for_each body l s = Some s' → R s s'.
Proof.
  intros Hbody. apply (for_each_invariant (R s)); [|done].
  intros i t t' Hi Ht Hrun. transitivity t; [done|by eapply Hbody].
Qed.

(** The loop returns when every iteration does. *)
Lemma for_each_total (P : S → Prop) (l : list nat) (s : S) :
  (∀ i t, i ∈ l → P t → ∃ t', body i t = Some t' ∧ P t') →
  P s → ∃ s', for_each body l s = Some s' ∧ P s'.
Proof.
  revert s. induction l as [|i l IH]; intros s Hbody Hs; simpl; [by eauto|].
  destruct (Hbody i s) as (t & -> & Ht); [by left|done|]. simpl.
  apply IH; [|done]. intros j u Hj. apply Hbody. by right.
Qed.
End for_each.

(** ** 64-bit counters *)

Lemma wrap64_sub (old arg : Z) :
  in_range64 old → in_range64 arg → decremented64 old arg (wrap64 (old - arg)).
Proof.
  unfold in_range64, decremented64, wrap64. intros Hold Harg. split; intros H.
  - apply Z.mod_small. lia.
  - rewrite <- (Z.mod_add _ 1) by lia. rewrite Z.mul_1_l.
    apply Z.mod_small. lia.
Qed.

(** ** [FindQuerySubtreeIndex_] *)

Lemma find_from_spec (k : nat) (qbegin qcount : Z) (subtrees : list TreeType) :
  (find_from k qbegin qcount subtrees = (-1)%Z
   ∧ Forall (λ t, id_matches (0%Z, qbegin, qcount) t = false) subtrees)
  ∨ (∃ i t, find_from k qbegin qcount subtrees = Z.of_nat (k + i)
       ∧ subtrees !! i = Some t
       ∧ id_matches (0%Z, qbegin, qcount) t = true
       ∧ ∀ j u, j < i → subtrees !! j = Some u →
                id_matches (0%Z, qbegin, qcount) u = false).
Proof.
  revert k. induction subtrees as [|t rest IH]; intros k.
  - left. by split.
  - cbn [find_from].
    change ((qbegin =? tree_begin t)%Z && (qcount =? tree_count t)%Z)
      with (id_matches (0%Z, qbegin, qcount) t).
    destruct (id_matches (0%Z, qbegin, qcount) t) eqn:Hhere.
    + right. exists 0, t. rewrite Nat.add_0_r. repeat split; [done|]. lia.
    + destruct (IH (S k)) as [[Hnone Hall] | (i & u & Hfind & Hu & Hm & Hleast)].
      * left. split; [done|]. by constructor.
      * right. exists (S i), u. rewrite Hfind.
        split; [f_equal; lia|]. split; [done|]. split; [done|].
        intros [|j] v Hlt Hv; simpl in Hv; [by simplify_eq|].
        apply (Hleast j); [lia|done].
Qed.

Lemma FindQuerySubtreeIndex_spec (query_node_id : Z * Z * Z) (st : State) :
  (FindQuerySubtreeIndex_ query_node_id st = (-1)%Z
   ∧ Forall (λ t, id_matches query_node_id t = false) (query_subtrees_ st))
  ∨ (∃ i t, FindQuerySubtreeIndex_ query_node_id st = Z.of_nat i
       ∧ query_subtrees_ st !! i = Some t
       ∧ id_matches query_node_id t = true
       ∧ ∀ j u, j < i → query_subtrees_ st !! j = Some u →
                id_matches query_node_id u = false).
Proof.
  destruct query_node_id as [[r b] c]. unfold FindQuerySubtreeIndex_.
  apply (find_from_spec 0).
Qed.

Lemma at_int_of_nat {A : Type} (v : list A) (i : nat) :
  at_int v (Z.of_nat i) = v !! i.
Proof.
  unfold at_int. rewrite (proj2 (Z.ltb_ge _ _)) by lia. by rewrite Nat2Z.id.
Qed.

(** ** Operations addressed by a query subtree id *)

Lemma FindQuerySubtreeIndex_subtract (id : Z * Z * Z) (q : Z) (st : State) :
  FindQuerySubtreeIndex_ id (subtract_quantity q st)
  = FindQuerySubtreeIndex_ id st.
Proof. by destruct id as [[? ?] ?]. Qed.

Lemma no_match_no_index (id : Z * Z * Z) (st : State) :
  Forall (λ t, id_matches id t = false) (query_subtrees_ st) →
  FindQuerySubtreeIndex_ id st = (-1)%Z.
Proof.
  intros Hnone.
  destruct (FindQuerySubtreeIndex_spec id st)
    as [[Heq _] | (i & t & _ & Ht & Hm & _)]; [done|].
  rewrite Forall_lookup in Hnone. specialize (Hnone i t Ht). congruence.
Qed.

Lemma match_least_index (id : Z * Z * Z) (st : State) (k : nat)
    (t : TreeType) :
  query_subtrees_ st !! k = Some t → id_matches id t = true →
  ∃ i u, i ≤ k
    ∧ FindQuerySubtreeIndex_ id st = Z.of_nat i
    ∧ query_subtrees_ st !! i = Some u ∧ id_matches id u = true
    ∧ ∀ j v, j < i → query_subtrees_ st !! j = Some v →
             id_matches id v = false.
Proof.
  intros Hk Hm.
  destruct (FindQuerySubtreeIndex_spec id st)
    as [[_ Hnone] | (i & u & Hfind & Hu & Hmu & Hleast)].
  - rewrite Forall_lookup in Hnone. specialize (Hnone k t Hk). congruence.
  - exists i, u. repeat split; try done.
    destruct (decide (i ≤ k)) as [|Hgt]; [done|].
    specialize (Hleast k t ltac:(lia) Hk). congruence.
Qed.

Lemma UnlockQuerySubtree_defined (id : Z * Z * Z) (st : State) :
  UnlockQuerySubtree id st = defined (UnlockQuerySubtree_outcome id st).
Proof.
  unfold UnlockQuerySubtree, UnlockQuerySubtree_outcome.
  by destruct (at_int _ _).
Qed.

Lemma push_completed_computation_for_defined (id : Z * Z * Z) (c q : Z)
    (st : State) :
  push_completed_computation_for id c q st
  = defined (push_completed_computation_for_outcome id c q st).
Proof.
  unfold push_completed_computation_for,
    push_completed_computation_for_outcome.
  by destruct (at_int _ _).
Qed.

(** C9, refuted as stated.  In [Example.st2] the live subtrees are
    (0, 100) and (100, 100) and no subtree is (7, 7).  With the id
    (0, 7, 7) [FindQuerySubtreeIndex_] answers -1 and both
    [UnlockQuerySubtree] and the targeted [push_completed_computation]
    use -1 as the index into their array: the access is outside the
    array, which is undefined and is not a fatal error; nothing aborts
    the program. *)
Lemma lookup_miss_is_unchecked :
  Forall (λ t, id_matches (0, 7, 7)%Z t = false) (query_subtrees_ Example.st2)
  ∧ FindQuerySubtreeIndex_ (0, 7, 7)%Z Example.st2 = (-1)%Z
  ∧ UnlockQuerySubtree_outcome (0, 7, 7)%Z Example.st2 = Undefined
  ∧ ¬ fatal (UnlockQuerySubtree_outcome (0, 7, 7)%Z Example.st2)
  ∧ push_completed_computation_for_outcome (0, 7, 7)%Z 1 1 Example.st2
    = Undefined
  ∧ ¬ fatal (push_completed_computation_for_outcome (0, 7, 7)%Z 1 1
               Example.st2).
Proof.
  split_and!.
  - vm_compute. repeat constructor.
  - vm_compute. reflexivity.
  - vm_compute. reflexivity.
  - vm_compute. discriminate.
  - vm_compute. reflexivity.
  - vm_compute. discriminate.
Qed.

(** C9, as the code has it.  Neither [UnlockQuerySubtree] nor the
    targeted [push_completed_computation] tests the index that
    [FindQuerySubtreeIndex_] answers, and neither is ever a fatal
    error.  With an id whose (begin, count) no live subtree has, the
    answer is -1 and both index their array with it: the access is
    outside the array and the outcome is undefined.  With an id that a
    live subtree has, the index found is the least one that matches,
    the answer is not -1, [UnlockQuerySubtree] returns with the lock of
    that slot cleared and nothing else changed, and the targeted
    [push_completed_computation] returns with the remaining work of
    that slot lowered and that of no other. *)
Theorem lookup_by_query_id (id : Z * Z * Z) (reference_count_in quantity_in : Z)
    (st : State) :
  aligned st →
  (Forall (λ t, id_matches id t = false) (query_subtrees_ st) →
   FindQuerySubtreeIndex_ id st = (-1)%Z
   ∧ UnlockQuerySubtree_outcome id st = Undefined
   ∧ push_completed_computation_for_outcome id reference_count_in quantity_in
       st
     = Undefined)
  ∧ ¬ fatal (UnlockQuerySubtree_outcome id st)
  ∧ ¬ fatal (push_completed_computation_for_outcome id reference_count_in
               quantity_in st)
  ∧ (∀ k t, query_subtrees_ st !! k = Some t → id_matches id t = true →
     ∃ i u old,
       i ≤ k
       ∧ FindQuerySubtreeIndex_ id st = Z.of_nat i
       ∧ query_subtrees_ st !! i = Some u ∧ id_matches id u = true
       ∧ (∀ j v, j < i → query_subtrees_ st !! j = Some v →
                 id_matches id v = false)
       ∧ UnlockQuerySubtree_outcome id st
         = Returns (set_locks (<[i := false]> (query_subtree_locks_ st)) st)
       ∧ UnlockQuerySubtree id st
         = Some (set_locks (<[i := false]> (query_subtree_locks_ st)) st)
       ∧ remaining_work_for_query_subtrees_ st !! i = Some old
       ∧ push_completed_computation_for_outcome id reference_count_in
           quantity_in st
         = Returns (set_remaining_work
                      (<[i := wrap64 (old - reference_count_in)]>
                         (remaining_work_for_query_subtrees_ st))
                      (subtract_quantity quantity_in st))
       ∧ push_completed_computation_for id reference_count_in quantity_in st
         = Some (set_remaining_work
                   (<[i := wrap64 (old - reference_count_in)]>
                      (remaining_work_for_query_subtrees_ st))
                   (subtract_quantity quantity_in st))).
Proof.
  intros (_ & Hrw & Hlk & _). split_and!.
  - intros Hnone. pose proof (no_match_no_index id st Hnone) as Hidx.
    split; [done|].
    unfold UnlockQuerySubtree_outcome, push_completed_computation_for_outcome.
    rewrite FindQuerySubtreeIndex_subtract, Hidx. done.
  - unfold fatal, UnlockQuerySubtree_outcome. by destruct (at_int _ _).
  - unfold fatal, push_completed_computation_for_outcome.
    by destruct (at_int _ _).
  - intros k t Hk Hm.
    destruct (match_least_index id st k t Hk Hm)
      as (i & u & Hle & Hidx & Hu & Hmu & Hleast).
    pose proof (lookup_lt_Some _ _ _ Hu) as Hlt.
    destruct (lookup_lt_is_Some_2 (remaining_work_for_query_subtrees_ st) i)
      as [old Hold]; [lia|].
    destruct (lookup_lt_is_Some_2 (query_subtree_locks_ st) i)
      as [b Hb]; [lia|].
    assert (UnlockQuerySubtree_outcome id st
            = Returns (set_locks (<[i := false]> (query_subtree_locks_ st))
                         st)) as Hunlock.
    { unfold UnlockQuerySubtree_outcome.
      rewrite Hidx, at_int_of_nat, Hb. by rewrite Nat2Z.id. }
    assert (push_completed_computation_for_outcome id reference_count_in
              quantity_in st
            = Returns (set_remaining_work
                         (<[i := wrap64 (old - reference_count_in)]>
                            (remaining_work_for_query_subtrees_ st))
                         (subtract_quantity quantity_in st))) as Hpush.
    { unfold push_completed_computation_for_outcome.
      rewrite FindQuerySubtreeIndex_subtract, Hidx, at_int_of_nat.
      change (remaining_work_for_query_subtrees_
                (subtract_quantity quantity_in st))
        with (remaining_work_for_query_subtrees_ st).
      rewrite Hold. by rewrite Nat2Z.id. }
    exists i, u, old. split_and!; try done.
    + by rewrite UnlockQuerySubtree_defined, Hunlock.
    + by rewrite push_completed_computation_for_defined, Hpush.
Qed.

Lemma lookup_by_query_id_witness :
  UnlockQuerySubtree_outcome (0, 7, 7)%Z Example.st2 = Undefined
  ∧ UnlockQuerySubtree_outcome (0, 0, 100)%Z Example.st2
    = Returns (set_locks [false; false] Example.st2).
Proof.
  assert (aligned Example.st2) as Hal by (vm_compute; done).
  destruct (lookup_by_query_id (0, 7, 7)%Z 0 0 Example.st2 Hal) as [Hmiss _].
  destruct (lookup_by_query_id (0, 0, 100)%Z 0 0 Example.st2 Hal)
    as (_ & _ & _ & Hhit).
  split.
  - apply Hmiss. vm_compute. repeat constructor.
  - destruct (Hhit 0 Example.q0 eq_refl eq_refl)
      as (i & u & old & Hle & _ & _ & _ & _ & Hunlock & _).
    assert (i = 0) as -> by lia. exact Hunlock.
Defined.

(** ** Completed work is subtracted modulo [2^64] *)

Lemma lower_all_loop (c : Z) (n : nat) (st : State) :
  n ≤ length (remaining_work_for_query_subtrees_ st) →
  for_each
    (λ i s,
       remaining ← remaining_work_for_query_subtrees_ s !! i;
       Some (set_remaining_work
               (<[i := wrap64 (remaining - c)]>
                  (remaining_work_for_query_subtrees_ s)) s))
    (seq 0 n) st
  = Some (set_remaining_work
            (((λ r, wrap64 (r - c))
                <$> take n (remaining_work_for_query_subtrees_ st))
             ++ drop n (remaining_work_for_query_subtrees_ st)) st).
Proof.
  induction n as [|n IH]; intros Hn.
  - simpl. rewrite drop_0. by destruct st.
  - rewrite seq_S, for_each_app, IH by lia. simpl.
    destruct (lookup_lt_is_Some_2 (remaining_work_for_query_subtrees_ st) n)
      as [x Hx]; [lia|].
    assert (length ((λ r, wrap64 (r - c))
                      <$> take n (remaining_work_for_query_subtrees_ st)) = n)
      as Hdone by (rewrite length_fmap, length_take_le; lia).
    rewrite lookup_app_r by lia.
    rewrite Hdone, Nat.sub_diag, lookup_drop, Nat.add_0_r, Hx. simpl.
    unfold set_remaining_work. simpl. do 2 f_equal.
    rewrite insert_app_r_alt by lia.
    rewrite Hdone, Nat.sub_diag, (drop_S _ _ _ Hx), (take_S_r _ _ _ Hx), fmap_app.
    simpl. by rewrite <- app_assoc.
Qed.

Lemma push_completed_computation_eq (c q : Z) (st : State) :
  length (remaining_work_for_query_subtrees_ st) = length (query_subtrees_ st) →
  push_completed_computation c q st
  = Some (set_remaining_work
            ((λ r, wrap64 (r - c)) <$> remaining_work_for_query_subtrees_ st)
            (subtract_quantity q st)).
Proof.
  intros Hlen. unfold push_completed_computation.
  change (query_subtrees_ (subtract_quantity q st)) with (query_subtrees_ st).
  rewrite <- Hlen, lower_all_loop by done.
  change (remaining_work_for_query_subtrees_ (subtract_quantity q st))
    with (remaining_work_for_query_subtrees_ st).
  by rewrite firstn_all, drop_all, app_nil_r.
Qed.

(** The counters do not saturate: 80001 units reported against 80000
    remaining leave [2^64 - 1], and a reference count of 201 against
    200 remaining does the same to every subtree; each counter has
    grown. *)
Lemma push_completed_computation_wraps :
  remaining_global_computation_ Example.st0 = 80000%Z
  ∧ remaining_work_for_query_subtrees_ Example.st0 = [200; 200]%Z
  ∧ (remaining_global_computation_
       <$> push_completed_computation 201 80001 Example.st0)
    = Some (2 ^ 64 - 1)%Z
  ∧ (remaining_work_for_query_subtrees_
       <$> push_completed_computation 201 80001 Example.st0)
    = Some [2 ^ 64 - 1; 2 ^ 64 - 1]%Z
  ∧ (remaining_work_for_query_subtrees_
       <$> push_completed_computation_for (0, 0, 100)%Z 201 80001 Example.st0)
    = Some [2 ^ 64 - 1; 200]%Z.
Proof. vm_compute. done. Qed.

(** C7, as the code has it.  Both forms of [push_completed_computation]
    subtract in 64-bit unsigned arithmetic.  An argument that does not
    exceed the counter lowers the counter by exactly the argument; an
    argument that exceeds it leaves the counter at the difference plus
    [2^64].  The untargeted form does so to the remaining work of every
    subtree, the targeted form to that of the subtree found. *)
Theorem push_completed_computation_modular
    (reference_count_in quantity_in : Z) (st : State) :
  aligned st → counters_in_range st →
  in_range64 reference_count_in → in_range64 quantity_in →
  (∃ st',
     push_completed_computation reference_count_in quantity_in st = Some st'
     ∧ decremented64 (remaining_global_computation_ st) quantity_in
         (remaining_global_computation_ st')
     ∧ decremented64 (remaining_local_computation_ st) quantity_in
         (remaining_local_computation_ st')
     ∧ Forall2 (λ old new, decremented64 old reference_count_in new)
         (remaining_work_for_query_subtrees_ st)
         (remaining_work_for_query_subtrees_ st'))
  ∧ (∀ id i, FindQuerySubtreeIndex_ id st = Z.of_nat i →
     ∃ st' old new,
       push_completed_computation_for id reference_count_in quantity_in st
       = Some st'
       ∧ decremented64 (remaining_global_computation_ st) quantity_in
           (remaining_global_computation_ st')
       ∧ decremented64 (remaining_local_computation_ st) quantity_in
           (remaining_local_computation_ st')
       ∧ remaining_work_for_query_subtrees_ st !! i = Some old
       ∧ decremented64 old reference_count_in new
       ∧ remaining_work_for_query_subtrees_ st'
         = <[i := new]> (remaining_work_for_query_subtrees_ st)).
Proof.
  intros (_ & Hrw & _ & _) (Hg & Hl & Hall) Hc Hq. split.
  - eexists. split; [by apply push_completed_computation_eq|]. simpl.
    split; [by apply wrap64_sub|]. split; [by apply wrap64_sub|].
    apply Forall2_fmap_r, Forall2_same_length_lookup. split; [done|].
    intros i old new Hold Hnew. simplify_eq.
    apply wrap64_sub; [|done]. by eapply Forall_lookup_1.
  - intros id i Hidx.
    assert (i < length (query_subtrees_ st)) as Hlt.
    { destruct (FindQuerySubtreeIndex_spec id st)
        as [[Hm _] | (j & t & Hj & Ht & _)]; [lia|].
      assert (i = j) as -> by lia. by eapply lookup_lt_Some. }
    destruct (lookup_lt_is_Some_2 (remaining_work_for_query_subtrees_ st) i)
      as [old Hold]; [lia|].
    exists (set_remaining_work
              (<[i := wrap64 (old - reference_count_in)]>
                 (remaining_work_for_query_subtrees_ st))
              (subtract_quantity quantity_in st)),
      old, (wrap64 (old - reference_count_in)).
    split.
    { unfold push_completed_computation_for.
      rewrite FindQuerySubtreeIndex_subtract, Hidx, at_int_of_nat.
      change (remaining_work_for_query_subtrees_
                (subtract_quantity quantity_in st))
        with (remaining_work_for_query_subtrees_ st).
      rewrite Hold. simpl. by rewrite Nat2Z.id. }
    simpl. split; [by apply wrap64_sub|]. split; [by apply wrap64_sub|].
    split; [done|]. split; [|done].
    apply wrap64_sub; [|done]. by eapply Forall_lookup_1.
Qed.

Lemma push_completed_computation_modular_witness :
  ∃ st',
    push_completed_computation 50 5000 Example.st0 = Some st'
    ∧ decremented64 (remaining_global_computation_ Example.st0) 5000
        (remaining_global_computation_ st').
Proof.
  assert (aligned Example.st0) as Hal by (vm_compute; done).
  assert (counters_in_range Example.st0) as Hrange.
  { unfold counters_in_range. split; [|split].
    - vm_compute. split; congruence.
    - vm_compute. split; congruence.
    - repeat constructor; vm_compute; congruence. }
  destruct (push_completed_computation_modular 50 5000 Example.st0 Hal Hrange)
    as [(st' & Hrun & Hg & _) _]; [vm_compute; split; congruence ..|].
  exists st'. split; [exact Hrun | exact Hg].
Defined.

(** ** The priority queue and the task count *)

Lemma pq_push_perm (t : TaskType) (q : TaskPriorityQueueType) :
  pq_push t q ≡ₚ t :: q.
Proof.
  induction q as [|u q IH]; simpl; [done|].
  destruct (priority u <? priority t)%Z; [done|].
  rewrite IH. apply Permutation_swap.
Qed.

Lemma pq_size_push (t : TaskType) (q : TaskPriorityQueueType) :
  pq_size (pq_push t q) = S (pq_size q).
Proof. unfold pq_size. by rewrite pq_push_perm. Qed.

Lemma total_tasks_insert (ts : list TaskPriorityQueueType) (i : nat)
    (h h' : TaskPriorityQueueType) :
  ts !! i = Some h →
  total_tasks (<[i := h']> ts) + pq_size h = total_tasks ts + pq_size h'.
Proof.
  revert i. induction ts as [|u ts IH]; intros [|i] Hi; simplify_eq/=.
  - unfold total_tasks. simpl. lia.
  - specialize (IH i Hi). unfold total_tasks in *. simpl. lia.
Qed.

Lemma total_tasks_snoc (ts : list TaskPriorityQueueType)
    (h : TaskPriorityQueueType) :
  total_tasks (ts ++ [h]) = total_tasks ts + pq_size h.
Proof. unfold total_tasks. rewrite sum_list_with_app. simpl. lia. Qed.

(** ** Swap and truncate *)

Lemma swap_pop_Some {A : Type} (i : nat) (v : list A) :
  i < length v →
  ∃ x, v !! (length v - 1) = Some x
       ∧ swap_pop i v = Some (take (length v - 1) (<[i := x]> v)).
Proof.
  intros Hi. unfold swap_pop. rewrite last_lookup.
  replace (pred (length v)) with (length v - 1) by lia.
  destruct (lookup_lt_is_Some_2 v (length v - 1)) as [x Hx]; [lia|].
  exists x. rewrite Hx. by rewrite bool_decide_eq_true_2.
Qed.

Lemma swap_pop_inv {A : Type} (i : nat) (v v' : list A) :
  swap_pop i v = Some v' →
  i < length v
  ∧ ∃ x, v !! (length v - 1) = Some x
         ∧ v' = take (length v - 1) (<[i := x]> v).
Proof.
  unfold swap_pop. rewrite last_lookup.
  replace (pred (length v)) with (length v - 1) by lia.
  destruct (v !! (length v - 1)) as [x|] eqn:Hx; [|done].
  case_bool_decide; [|done]. intros [= <-]. eauto.
Qed.

Lemma swap_pop_removed {A : Type} (i : nat) (v v' : list A) :
  swap_pop i v = Some v' → swap_removed i v v'.
Proof.
  intros (Hi & x & Hx & ->)%swap_pop_inv.
  assert (length (take (length v - 1) (<[i := x]> v)) = length v - 1) as Hlen.
  { rewrite length_take_le; [done|]. rewrite length_insert. lia. }
  split; [lia|]. rewrite Hlen. intros j Hj.
  rewrite lookup_take_lt by done. case_decide as Hji.
  - subst j. by rewrite list_lookup_insert_eq.
  - by rewrite list_lookup_insert_ne.
Qed.

Lemma swap_removed_length {A : Type} (i : nat) (v v' : list A) :
  swap_removed i v v' → length v' = length v - 1.
Proof. intros [Hlen _]. lia. Qed.

Lemma total_tasks_swap_removed (i : nat) (ts ts' : list TaskPriorityQueueType) :
  ts !! i = Some [] → swap_pop i ts = Some ts' →
  total_tasks ts' = total_tasks ts.
Proof.
  intros Hi (Hlt & x & Hx & ->)%swap_pop_inv.
  pose proof (total_tasks_insert ts i [] x Hi) as Hins. simpl in Hins.
  assert (<[i := x]> ts !! (length ts - 1) = Some x) as Hlast.
  { destruct (decide (i = length ts - 1)) as [->|Hne].
    - by rewrite list_lookup_insert_eq.
    - by rewrite list_lookup_insert_ne. }
  assert (length (<[i := x]> ts) = S (length ts - 1)) as Hlen
    by (rewrite length_insert; lia).
  pose proof (take_drop (length ts - 1) (<[i := x]> ts)) as Hsplit.
  rewrite (drop_S _ _ _ Hlast) in Hsplit.
  rewrite drop_ge in Hsplit by lia.
  rewrite <- Hsplit in Hins at 1. rewrite total_tasks_snoc in Hins. lia.
Qed.

(** ** Retiring a slot *)

Lemma retire_subtree_total (i : nat) (st : State) :
  aligned st → i < length (tasks_ st) → is_Some (retire_subtree i st).
Proof.
  intros (Haw & Hrw & Hlk & Hts) Hi. unfold retire_subtree.
  destruct (swap_pop_Some i (query_subtrees_ st)) as (? & _ & ->); [lia|].
  destruct (swap_pop_Some i (assigned_work_ st)) as (? & _ & ->); [lia|].
  destruct (swap_pop_Some i (remaining_work_for_query_subtrees_ st))
    as (? & _ & ->); [lia|].
  destruct (swap_pop_Some i (query_subtree_locks_ st)) as (? & _ & ->); [lia|].
  destruct (swap_pop_Some i (tasks_ st)) as (? & _ & ->); [lia|].
  simpl. eauto.
Qed.

Lemma retire_subtree_inv (i : nat) (st st' : State) :
  retire_subtree i st = Some st' →
  ∃ qs aw rw lk ts,
    swap_pop i (query_subtrees_ st) = Some qs
    ∧ swap_pop i (assigned_work_ st) = Some aw
    ∧ swap_pop i (remaining_work_for_query_subtrees_ st) = Some rw
    ∧ swap_pop i (query_subtree_locks_ st) = Some lk
    ∧ swap_pop i (tasks_ st) = Some ts
    ∧ st' = set_tasks ts (set_locks lk (set_remaining_work rw
              (set_assigned_work aw (set_query_subtrees qs st)))).
Proof.
  unfold retire_subtree. intros Hrun.
  destruct (swap_pop i (query_subtrees_ st)) as [qs|]; [|done].
  destruct (swap_pop i (assigned_work_ st)) as [aw|]; [|done].
  destruct (swap_pop i (remaining_work_for_query_subtrees_ st)) as [rw|];
    [|done].
  destruct (swap_pop i (query_subtree_locks_ st)) as [lk|]; [|done].
  destruct (swap_pop i (tasks_ st)) as [ts|]; [|done].
  simpl in Hrun. simplify_eq. by exists qs, aw, rw, lk, ts.
Qed.

Lemma retire_subtree_retired (i : nat) (st st' : State) :
  retire_subtree i st = Some st' → retired i st st'.
Proof.
  intros (qs & aw & rw & lk & ts & Hqs & Haw & Hrw & Hlk & Hts & ->)
    %retire_subtree_inv.
  unfold retired. simpl. split_and!; try done; by apply swap_pop_removed.
Qed.

Lemma retired_aligned (i : nat) (st st' : State) :
  retired i st st' → aligned st → aligned st'.
Proof.
  intros (Hqs & Haw & Hrw & Hlk & Hts & _) (Ha & Hr & Hl & Ht).
  apply swap_removed_length in Hqs, Haw, Hrw, Hlk, Hts.
  unfold aligned. lia.
Qed.

Lemma retired_nothing_to_take (i : nat) (st st' : State) :
  retired i st st' → aligned st → nothing_to_take st → nothing_to_take st'.
Proof.
  intros Hret Hal Hnone. pose proof (retired_aligned i st st' Hret Hal) as Hal'.
  destruct Hret as (_ & _ & _ & [_ Hlk] & [_ Hts] & _).
  destruct Hal' as (_ & _ & Hl' & Ht').
  intros j top rest Hj. pose proof (lookup_lt_Some _ _ _ Hj) as Hlt.
  rewrite Hts in Hj by done. rewrite Hlk by lia.
  rewrite Hl', <- Ht'. case_decide; by eapply Hnone.
Qed.

Lemma retire_subtree_counted (i : nat) (st st' : State) :
  tasks_ st !! i = Some [] → retire_subtree i st = Some st' →
  tasks_counted st → tasks_counted st'.
Proof.
  intros Hi (qs & aw & rw & lk & ts & _ & _ & _ & _ & Hts & ->)
    %retire_subtree_inv Hcount.
  unfold tasks_counted in *. simpl.
  by rewrite (total_tasks_swap_removed i _ _ Hi Hts).
Qed.

(** ** The untargeted dequeue *)

Lemma DequeueTask_loop_scan (task_out : TaskOut) (lock : bool) (fuel : nat) :
  ∀ (i : nat) (st : State),
    aligned st → 2 * length (tasks_ st) - i < fuel →
    ∃ r, DequeueTask_loop fuel i task_out lock st = Some r
         ∧ scan task_out lock i st r.
Proof.
  induction fuel as [|fuel IH]; intros i st Hal Hfuel; [lia|].
  pose proof Hal as (Haw & Hrw & Hlk & Hts).
  cbn [DequeueTask_loop]. case_bool_decide as Hi.
  - destruct (lookup_lt_is_Some_2 (tasks_ st) i) as [heap Hheap]; [done|].
    destruct (lookup_lt_is_Some_2 (query_subtree_locks_ st) i)
      as [locked Hlocked]; [lia|].
    destruct (lookup_lt_is_Some_2 (remaining_work_for_query_subtrees_ st) i)
      as [w Hw]; [lia|].
    rewrite Hheap. simpl. destruct heap as [|top rest]; simpl.
    + rewrite Hw. simpl. destruct (Z.eqb_spec w 0) as [->|Hne].
      * destruct (retire_subtree_total i st Hal Hi) as [st' Hst'].
        rewrite Hst'. simpl.
        pose proof (retire_subtree_retired i st st' Hst') as Hret.
        pose proof (retired_aligned i st st' Hret Hal) as Hal'.
        assert (length (tasks_ st') = length (tasks_ st) - 1) as Hlen
          by apply (swap_removed_length i), Hret.
        destruct (IH i st' Hal') as (r & Hrun & Hscan); [lia|].
        exists r. split; [done|].
        exact (scan_retire _ _ i st st' r Hheap Hw Hret Hscan).
      * destruct (IH (S i) st Hal) as (r & Hrun & Hscan); [lia|].
        exists r. split; [done|]. by eapply scan_working.
    + rewrite Hlocked. simpl. destruct locked; simpl.
      * destruct (IH (S i) st Hal) as (r & Hrun & Hscan); [lia|].
        exists r. split; [done|]. by eapply scan_locked.
      * eexists. split; [done|].
        exact (scan_take _ _ i st top rest Hheap Hlocked).
  - eexists. split; [done|]. apply scan_end. lia.
Qed.

(** A scan that finds nothing to take hands the out-parameter back. *)
Lemma scan_nothing_to_take (task_out : TaskOut) (lock : bool) (i : nat)
    (st : State) (r : State * TaskOut) :
  scan task_out lock i st r → aligned st → nothing_to_take st →
  r.2 = task_out ∧ num_remaining_tasks_ r.1 = num_remaining_tasks_ st.
Proof.
  induction 1 as [i st Hi | i st top rest Hheap Hlocked
                 | i st top rest r Hheap Hlocked _ IH
                 | i st w r Hheap Hw Hne _ IH
                 | i st st' r Hheap Hw Hret _ IH]; intros Hal Hnone.
  - done.
  - specialize (Hnone i top rest Hheap). congruence.
  - by apply IH.
  - by apply IH.
  - destruct IH as [-> Hnum].
    + by eapply retired_aligned.
    + by eapply retired_nothing_to_take.
    + split; [done|]. rewrite Hnum. apply Hret.
Qed.

(** C1.  On aligned arrays the untargeted [DequeueTask] returns, and
    what it returns is the scan of the specification from slot 0: the
    slots are examined in ascending order; the first one with a task
    and without lock gives its top task, takes the lock argument as its
    lock and lowers the task counter by one; a slot with an empty heap
    and no remaining work is retired by the swap with the tail in all
    five arrays and the same index is examined again; when every heap
    with a task is locked the out-parameter comes back as it was
    passed. *)
Theorem DequeueTask_scans (task_out : TaskOut) (lock_query_subtree_in : bool)
    (st : State) :
  aligned st →
  ∃ r, DequeueTask task_out lock_query_subtree_in st = Some r
       ∧ scan task_out lock_query_subtree_in 0 st r
       ∧ (nothing_to_take st →
          r.2 = task_out
          ∧ num_remaining_tasks_ r.1 = num_remaining_tasks_ st).
Proof.
  intros Hal.
  destruct (DequeueTask_loop_scan task_out lock_query_subtree_in
              (2 * length (tasks_ st) + 1) 0 st Hal)
    as (r & Hrun & Hscan); [lia|].
  exists r. split; [done|]. split; [done|].
  intros Hnone. by eapply scan_nothing_to_take.
Qed.

Lemma DequeueTask_scans_witness :
  ∃ r, DequeueTask None true Example.st2 = Some r
       ∧ scan None true 0 Example.st2 r.
Proof.
  destruct (DequeueTask_scans None true Example.st2) as (r & Hrun & Hscan & _).
  - vm_compute. done.
  - exists r. split; [exact Hrun | exact Hscan].
Defined.

(** ** Pushing and taking at one slot *)

Lemma PushTask_Some (metric_in : MetricType) (i : nat) (tb : TableType)
    (cid : Z) (st : State) (q r : TreeType) (h : TaskPriorityQueueType) :
  query_subtrees_ st !! i = Some q → tasks_ st !! i = Some h →
  PushTask_ metric_in i (tb, Some r, cid) st
  = Some (set_num_remaining_tasks (num_remaining_tasks_ st + 1)
            (set_tasks
               (<[i := pq_push (mkTask q tb r cid (- metric_in q r)) h]>
                  (tasks_ st)) st)).
Proof. intros Hq Hh. unfold PushTask_. by rewrite Hq, Hh. Qed.

Lemma PushTask_inv (metric_in : MetricType) (i : nat) (tb : TableType)
    (nd : option TreeType) (cid : Z) (st st' : State) :
  PushTask_ metric_in i (tb, nd, cid) st = Some st' →
  ∃ q r h,
    query_subtrees_ st !! i = Some q ∧ nd = Some r ∧ tasks_ st !! i = Some h
    ∧ st' = set_num_remaining_tasks (num_remaining_tasks_ st + 1)
              (set_tasks
                 (<[i := pq_push (mkTask q tb r cid (- metric_in q r)) h]>
                    (tasks_ st)) st).
Proof.
  unfold PushTask_. intros Hrun.
  destruct (query_subtrees_ st !! i) as [q|]; [|done].
  destruct nd as [r|]; [|done].
  destruct (tasks_ st !! i) as [h|]; [|done].
  simpl in Hrun. simplify_eq. by exists q, r, h.
Qed.

Lemma DequeueTask_at_take (i : nat) (task_out : TaskOut) (lock : bool)
    (st : State) (top : TaskType) (rest : TaskPriorityQueueType) :
  tasks_ st !! i = Some (top :: rest) →
  query_subtree_locks_ st !! i = Some false →
  DequeueTask_at i task_out lock st
  = Some (taken i lock rest st, Some (top, i)).
Proof. intros Hh Hl. unfold DequeueTask_at. by rewrite Hh, Hl. Qed.

Lemma DequeueTask_at_inv (i : nat) (task_out : TaskOut) (lock : bool)
    (st : State) (r : State * TaskOut) :
  DequeueTask_at i task_out lock st = Some r →
  r = (st, task_out)
  ∨ ∃ top rest,
      tasks_ st !! i = Some (top :: rest)
      ∧ query_subtree_locks_ st !! i = Some false
      ∧ r = (taken i lock rest st, Some (top, i)).
Proof.
  unfold DequeueTask_at. intros Hrun.
  destruct (tasks_ st !! i) as [[|top rest]|]; simplify_eq/=; [by left|].
  destruct (query_subtree_locks_ st !! i) as [[]|]; simplify_eq/=;
    [by left|].
  right. by exists top, rest.
Qed.

(** ** The split *)

Lemma drain_tasks_all (p : nat) (heap : TaskPriorityQueueType) :
  ∀ (fuel : nat) (prev : list TaskType) (st : State),
    tasks_ st !! p = Some heap →
    heap = [] ∨ query_subtree_locks_ st !! p = Some false →
    pq_size heap ≤ fuel →
    drain_tasks fuel p prev st
    = Some (set_num_remaining_tasks
              (num_remaining_tasks_ st - Z.of_nat (pq_size heap))
              (set_tasks (<[p := []]> (tasks_ st)) st),
            prev ++ heap).
Proof.
  induction heap as [|top rest IH]; intros fuel prev st Hh Hl Hfuel.
  - destruct fuel; simpl; rewrite Hh; simpl;
      rewrite (list_insert_id _ _ _ Hh), app_nil_r, Z.sub_0_r;
      by destruct st.
  - destruct Hl as [|Hl]; [done|].
    destruct fuel as [|fuel]; [simpl in Hfuel; lia|].
    cbn [drain_tasks]. rewrite Hh. simpl.
    rewrite (DequeueTask_at_take p None false st top rest Hh Hl). simpl.
    pose proof (lookup_lt_Some _ _ _ Hh) as Hp.
    pose proof (lookup_lt_Some _ _ _ Hl) as Hp'.
    rewrite (IH fuel (prev ++ [top]) (taken p false rest st)); simpl.
    + rewrite list_insert_insert_eq, <- app_assoc. simpl.
      unfold set_num_remaining_tasks, set_tasks. simpl.
      rewrite (list_insert_id _ _ _ Hl). do 3 f_equal.
      unfold pq_size. simpl. lia.
    + by apply list_lookup_insert_eq.
    + right. by apply list_lookup_insert_eq.
    + simpl in Hfuel. unfold pq_size in *. lia.
Qed.

(** On a locked subtree that holds a task the loop does not leave. *)
Lemma drain_tasks_locked (p : nat) (top : TaskType)
    (rest : TaskPriorityQueueType) (fuel : nat) (prev : list TaskType)
    (st : State) :
  tasks_ st !! p = Some (top :: rest) →
  query_subtree_locks_ st !! p = Some true →
  drain_tasks fuel p prev st = None.
Proof.
  intros Hh Hl. destruct fuel as [|fuel]; simpl; rewrite Hh; simpl; [done|].
  rewrite (DequeueTask_at_unserved p None false st (top :: rest) Hh)
    by (by right).
  done.
Qed.

Local Arguments drain_tasks : simpl never.

Lemma push_all_app (xs ys : list TaskType) (h : TaskPriorityQueueType) :
  push_all (xs ++ ys) h = push_all ys (push_all xs h).
Proof. unfold push_all. by rewrite foldl_app. Qed.

(** The locks taken for a drained task are the tasks that replace it
    less the one lock that the drained task held. *)
Lemma lock_times_reemitted (metric_in : MetricType) (T L R : TreeType)
    (t : TaskType) :
  lock_times T t
  = (Z.of_nat (length (reemitted metric_in T L t))
     + Z.of_nat (length (reemitted metric_in T R t)) - 1)%Z.
Proof.
  unfold reemitted, lock_times.
  destruct (reference_start_node t); simpl; [done|].
  by destruct (same_node _ _).
Qed.

Section reissue.
Context (metric_in : MetricType) (p : nat) (T L R : TreeType).
Context (qs : list TreeType) (ts : list TaskPriorityQueueType).
Context (base : State).
Hypothesis Hp : p < length ts.
Hypothesis Hlen : length qs = S (length ts).
Hypothesis HL : qs !! p = Some L.
Hypothesis HR : qs !! length ts = Some R.

Local Arguments PushTask_ : simpl never.
Local Arguments reissuing : simpl never.

Lemma PushTask_left (t : TaskType) (r : TreeType) hL hR e num :
  PushTask_ metric_in p (reference_table t, Some r, cache_id t)
    (reissuing p qs ts base hL hR e num)
  = Some (reissuing p qs ts base
            (pq_push (task_for metric_in L t r) hL) hR e (num + 1)).
Proof using Hp Hlen HL HR.
  erewrite PushTask_Some; [|exact HL|].
  - unfold reissuing, set_num_remaining_tasks, set_tasks. simpl.
    rewrite insert_app_l by (by rewrite length_insert).
    by rewrite list_insert_insert_eq.
  - simpl. rewrite lookup_app_l by (by rewrite length_insert).
    by apply list_lookup_insert_eq.
Qed.

Lemma PushTask_right (t : TaskType) (r : TreeType) hL hR e num :
  PushTask_ metric_in (length ts) (reference_table t, Some r, cache_id t)
    (reissuing p qs ts base hL hR e num)
  = Some (reissuing p qs ts base
            hL (pq_push (task_for metric_in R t r) hR) e (num + 1)).
Proof using Hp Hlen HL HR.
  assert (length (<[p := hL]> ts) = length ts) as Hins
    by apply length_insert.
  erewrite PushTask_Some; [|exact HR|].
  - unfold reissuing, set_num_remaining_tasks, set_tasks. simpl.
    rewrite insert_app_r_alt by lia. by rewrite Hins, Nat.sub_diag.
  - simpl. rewrite lookup_app_r by lia. by rewrite Hins, Nat.sub_diag.
Qed.

Lemma reissuing_num hL hR e (num num' : Z) :
  num = num' →
  reissuing p qs ts base hL hR e num = reissuing p qs ts base hL hR e num'.
Proof. by intros ->. Qed.

Lemma LockCache_reissuing (cid k : Z) hL hR e num :
  LockCache_ cid k (reissuing p qs ts base hL hR e num)
  = reissuing p qs ts base hL hR (exchange_call (LockCache cid k) e) num.
Proof. done. Qed.

Lemma reissue_task_step (t : TaskType) hL hR e num :
  reissue_task metric_in T p t (reissuing p qs ts base hL hR e num)
  = Some (reissuing p qs ts base
            (push_all (reemitted metric_in T L t) hL)
            (push_all (reemitted metric_in T R t) hR)
            (exchange_call (LockCache (cache_id t) (lock_times T t)) e)
            (num + Z.of_nat (length (reemitted metric_in T L t))
             + Z.of_nat (length (reemitted metric_in T R t)))).
Proof using Hp Hlen HL HR.
  unfold reissue_task, reemitted, lock_times.
  change (query_subtrees_ (reissuing p qs ts base hL hR e num)) with qs.
  rewrite Hlen. replace (S (length ts) - 1) with (length ts) by lia.
  destruct (reference_start_node t) as [a b c|a b c l r] eqn:Hnode; simpl.
  - rewrite PushTask_left. simpl. rewrite PushTask_right. simpl.
    rewrite LockCache_reissuing. f_equal; [apply reissuing_num; lia ..].
  - destruct (same_node T (Node a b c l r)); simpl.
    + rewrite !PushTask_left. simpl. rewrite !PushTask_left. simpl.
      rewrite !PushTask_right. simpl. rewrite !PushTask_right. simpl.
      rewrite LockCache_reissuing. f_equal; [apply reissuing_num; lia ..].
    + rewrite PushTask_left. simpl. rewrite PushTask_right. simpl.
      rewrite LockCache_reissuing. f_equal; [apply reissuing_num; lia ..].
Qed.

Lemma reissue_tasks_all (drained : list TaskType) :
  ∀ hL hR e num,
    reissue_tasks metric_in T p drained (reissuing p qs ts base hL hR e num)
    = Some (reissuing p qs ts base
              (push_all (drained ≫= reemitted metric_in T L) hL)
              (push_all (drained ≫= reemitted metric_in T R) hR)
              (lock_all T drained e)
              (num
               + Z.of_nat (length (drained ≫= reemitted metric_in T L))
               + Z.of_nat (length (drained ≫= reemitted metric_in T R)))).
Proof using Hp Hlen HL HR.
  induction drained as [|t rest IH]; intros hL hR e num.
  - simpl. by rewrite !Z.add_0_r.
  - rewrite !bind_cons, !push_all_app, !length_app, !Nat2Z.inj_add.
    cbn [reissue_tasks]. rewrite reissue_task_step.
    cbn [mbind option_bind]. rewrite IH.
    f_equal; [apply reissuing_num; lia ..].
Qed.
End reissue.

Lemma split_subtree_eq (metric_in : MetricType) (p : nat) (st : State)
    (a b c : Z) (L R : TreeType) (heap : TaskPriorityQueueType)
    (w : DisjointIntIntervals) (r : Z) :
  aligned st →
  query_subtrees_ st !! p = Some (Node a b c L R) →
  heap = [] ∨ query_subtree_locks_ st !! p = Some false →
  tasks_ st !! p = Some heap →
  assigned_work_ st !! p = Some w →
  remaining_work_for_query_subtrees_ st !! p = Some r →
  split_subtree_ metric_in p st
  = Some (split_result metric_in p (Node a b c L R) L R w r heap st).
Proof.
  intros (Haw & Hrw & Hlk & Hts) Hq Hl Hh Hw Hr.
  pose proof (lookup_lt_Some _ _ _ Hq) as Hp.
  unfold split_subtree_. rewrite Hq. simpl. rewrite Hh. simpl.
  rewrite (drain_tasks_all p heap (pq_size heap) []); simpl; [|done| |done].
  2: { destruct Hl as [|Hl]; [by left|right].
       rewrite lookup_app_l by lia. done. }
  rewrite Hw, Hr. simpl.
  set (qs' := <[p := L]> (query_subtrees_ st) ++ [R]).
  set (st3 := set_remaining_work _ _).
  change st3 with
    (reissuing p qs' (tasks_ st) st3 [] [] (table_exchange_ st)
       (num_remaining_tasks_ st - Z.of_nat (pq_size heap))).
  rewrite (reissue_tasks_all metric_in p (Node a b c L R) L R).
  - done.
  - lia.
  - unfold qs'. rewrite length_app, length_insert. simpl. lia.
  - unfold qs'. rewrite lookup_app_l by (rewrite length_insert; lia).
    apply list_lookup_insert_eq. lia.
  - unfold qs'. rewrite lookup_app_r by (rewrite length_insert; lia).
    rewrite length_insert. by replace (length (tasks_ st) - _) with 0 by lia.
Qed.

(** Whenever the split returns, it returns [split_result]. *)
Lemma split_subtree_inv (metric_in : MetricType) (p : nat) (st st' : State) :
  aligned st → split_subtree_ metric_in p st = Some st' →
  ∃ a b c L R heap w r,
    query_subtrees_ st !! p = Some (Node a b c L R)
    ∧ (heap = [] ∨ query_subtree_locks_ st !! p = Some false)
    ∧ tasks_ st !! p = Some heap
    ∧ assigned_work_ st !! p = Some w
    ∧ remaining_work_for_query_subtrees_ st !! p = Some r
    ∧ st' = split_result metric_in p (Node a b c L R) L R w r heap st.
Proof.
  intros Hal Hrun. pose proof Hal as (Haw & Hrw & Hlk & Hts).
  destruct (query_subtrees_ st !! p) as [T|] eqn:Hq.
  2: { unfold split_subtree_ in Hrun. by rewrite Hq in Hrun. }
  pose proof (lookup_lt_Some _ _ _ Hq) as Hp.
  destruct T as [a b c | a b c L R].
  { unfold split_subtree_ in Hrun. by rewrite Hq in Hrun. }
  destruct (lookup_lt_is_Some_2 (tasks_ st) p) as [heap Hh]; [lia|].
  destruct (lookup_lt_is_Some_2 (assigned_work_ st) p) as [w Hw]; [lia|].
  destruct (lookup_lt_is_Some_2 (remaining_work_for_query_subtrees_ st) p)
    as [r Hr]; [lia|].
  destruct (lookup_lt_is_Some_2 (query_subtree_locks_ st) p) as [lk Hl];
    [lia|].
  assert (heap = [] ∨ query_subtree_locks_ st !! p = Some false) as Hcase.
  { destruct heap as [|top rest]; [by left|]. destruct lk; [|by right].
    exfalso. unfold split_subtree_ in Hrun. rewrite Hq in Hrun.
    simpl in Hrun. rewrite Hh in Hrun. simpl in Hrun.
    rewrite (drain_tasks_locked p top rest) in Hrun; [done|done|].
    simpl. rewrite lookup_app_l by lia. done. }
  rewrite (split_subtree_eq metric_in p st a b c L R heap w r) in Hrun
    by done.
  simplify_eq. by exists a, b, c, L, R, heap, w, r.
Qed.

(** C2.  The split of slot [p], whose subtree [T] is not a leaf and is
    not locked, returns the queue [split_result]: the left child is in
    slot [p], the right child is appended together with [false] as its
    lock, a copy of the interval set of [p] and the remaining work of
    [p]; every task of the heap of [p] whose reference node is a
    non-leaf identical to [T] comes back as four tasks, the two
    children of [T] against the two children of the reference node,
    with three more locks on its cache id, and every other task comes
    back as two tasks, the two children of [T] against its reference
    node, with one more lock; each new task carries the priority
    computed for its own pair; the heap of the right child holds
    nothing else. *)
Theorem split_subtree_effect (metric_in : MetricType) (p : nat) (st : State)
    (a b c : Z) (L R : TreeType) (heap : TaskPriorityQueueType)
    (w : DisjointIntIntervals) (r : Z) :
  aligned st →
  query_subtrees_ st !! p = Some (Node a b c L R) →
  query_subtree_locks_ st !! p = Some false →
  tasks_ st !! p = Some heap →
  assigned_work_ st !! p = Some w →
  remaining_work_for_query_subtrees_ st !! p = Some r →
  split_subtree_ metric_in p st
  = Some (split_result metric_in p (Node a b c L R) L R w r heap st).
Proof. intros. apply split_subtree_eq; auto. Qed.

Lemma split_subtree_effect_witness :
  (pq_size <$> tasks_ Example.self1) = [1]
  ∧ ∃ st',
      split_subtree_ Example.metric 0 Example.self1 = Some st'
      ∧ query_subtrees_ st' = [Example.q0; Example.q1]
      ∧ (pq_size <$> tasks_ st') = [2; 2]
      ∧ calls (table_exchange_ st') = [LockCache 1 1; LockCache 1 3].
Proof.
  split; [vm_compute; reflexivity|].
  eexists. split.
  - apply (split_subtree_effect Example.metric 0 Example.self1 0 0 200
             Example.q0 Example.q1
             (default [] (tasks_ Example.self1 !! 0)) [(0, 0, 200)%Z] 200);
      vm_compute; done.
  - vm_compute. done.
Defined.

(** ** The choice of the subtree to split *)

Lemma select_step_eq (st : State) (i : nat) (sel : Z * Z) (lk : bool)
    (t : TreeType) (h : TaskPriorityQueueType) :
  query_subtree_locks_ st !! i = Some lk →
  query_subtrees_ st !! i = Some t →
  tasks_ st !! i = Some h →
  select_step st i sel
  = Some (if negb lk && negb (is_leaf t) && bool_decide (0 < pq_size h)
             && (sel.1 <? tree_count t)%Z
          then (tree_count t, Z.of_nat i) else sel).
Proof.
  intros Hlk Ht Hh. unfold select_step. rewrite Hlk. simpl.
  destruct lk; simpl; [done|]. rewrite Ht. simpl.
  destruct (is_leaf t); simpl; [done|]. rewrite Hh. simpl.
  by destruct (bool_decide (0 < pq_size h) && (sel.1 <? tree_count t)%Z).
Qed.

Lemma eligible_decide (st : State) (i : nat) (lk : bool) (t : TreeType)
    (h : TaskPriorityQueueType) :
  query_subtree_locks_ st !! i = Some lk →
  query_subtrees_ st !! i = Some t →
  tasks_ st !! i = Some h →
  ∀ t', eligible st i t' ↔
        t' = t ∧ negb lk && negb (is_leaf t) && bool_decide (0 < pq_size h)
                 = true.
Proof.
  intros Hlk Ht Hh t'. unfold eligible. split.
  - intros (Hl & Hq & Hleaf & h' & Hh' & Hsize). simplify_eq.
    split; [done|]. rewrite Hleaf. simpl. by apply bool_decide_eq_true_2.
  - intros [-> Hcond].
    apply andb_prop in Hcond as [Hcond Hsize%bool_decide_eq_true_1].
    apply andb_prop in Hcond as [Hl%negb_true_iff Hleaf%negb_true_iff].
    subst lk. eauto 10.
Qed.

Lemma chosen_step (st : State) (k : nat) (sel : Z * Z) (lk : bool)
    (t : TreeType) (h : TaskPriorityQueueType) :
  query_subtree_locks_ st !! k = Some lk →
  query_subtrees_ st !! k = Some t →
  tasks_ st !! k = Some h →
  chosen st k sel →
  chosen st (S k)
    (if negb lk && negb (is_leaf t) && bool_decide (0 < pq_size h)
        && (sel.1 <? tree_count t)%Z
     then (tree_count t, Z.of_nat k) else sel).
Proof.
  intros Hlk Ht Hh [Hmax Hsel].
  pose proof (eligible_decide st k lk t h Hlk Ht Hh) as Hdec.
  assert (0 ≤ sel.1)%Z as Hnonneg.
  { destruct Hsel as [-> | (p & T & -> & _ & _ & Hpos & _)]; simpl; lia. }
  destruct (negb lk && negb (is_leaf t) && bool_decide (0 < pq_size h))
    eqn:Hcond; simpl.
  - destruct (Z.ltb_spec sel.1 (tree_count t)) as [Hlt | Hge].
    + split; simpl.
      * intros j t' Hj Hel. destruct (decide (j = k)) as [-> | Hne].
        -- apply Hdec in Hel as [-> _]. lia.
        -- specialize (Hmax j t' ltac:(lia) Hel). lia.
      * right. exists k, t. split; [done|]. split; [lia|].
        split; [by apply Hdec|]. split; [lia|].
        intros j t' Hj Hel. specialize (Hmax j t' Hj Hel). lia.
    + split.
      * intros j t' Hj Hel. destruct (decide (j = k)) as [-> | Hne].
        -- apply Hdec in Hel as [-> _]. lia.
        -- apply (Hmax j); [lia|done].
      * destruct Hsel as [-> | (p & T & -> & Hp & Hrest)]; [by left|].
        right. exists p, T. split; [done|]. split; [lia | exact Hrest].
  - split.
    + intros j t' Hj Hel. destruct (decide (j = k)) as [-> | Hne].
      * apply Hdec in Hel as [_ Hel]. congruence.
      * apply (Hmax j); [lia|done].
    + destruct Hsel as [-> | (p & T & -> & Hp & Hrest)]; [by left|].
      right. exists p, T. split; [done|]. split; [lia | exact Hrest].
Qed.

Lemma select_loop_chosen (st : State) (k : nat) :
  aligned st → k ≤ length (query_subtrees_ st) →
  ∃ sel, for_each (select_step st) (seq 0 k) (0, -1)%Z = Some sel
         ∧ chosen st k sel.
Proof.
  intros (Haw & Hrw & Hlk & Hts). induction k as [|k IH]; intros Hk.
  - exists (0, -1)%Z. split; [done|]. split; [lia | by left].
  - destruct IH as (sel & Hrun & Hsel); [lia|].
    destruct (lookup_lt_is_Some_2 (query_subtree_locks_ st) k) as [lk Hl];
      [lia|].
    destruct (lookup_lt_is_Some_2 (query_subtrees_ st) k) as [t Ht]; [lia|].
    destruct (lookup_lt_is_Some_2 (tasks_ st) k) as [h Hh]; [lia|].
    eexists. rewrite seq_S, for_each_app, Hrun. simpl.
    rewrite (select_step_eq st k sel lk t h Hl Ht Hh). simpl.
    split; [done|]. by apply chosen_step.
Qed.

Lemma select_split_index_spec (st : State) :
  aligned st → counts_positive st →
  (select_split_index st = Some (0, -1)%Z ∧ ∀ i t, ¬ eligible st i t)
  ∨ ∃ p T, select_split_index st = Some (tree_count T, Z.of_nat p)
           ∧ largest_eligible st p T.
Proof.
  intros Hal Hpos.
  destruct (select_loop_chosen st (length (query_subtrees_ st)) Hal)
    as (sel & Hrun & Hmax & Hsel); [done|].
  assert (∀ j t, eligible st j t → j < length (query_subtrees_ st)) as Hin.
  { intros j t (_ & Ht & _). by eapply lookup_lt_Some. }
  unfold select_split_index. rewrite Hrun.
  destruct Hsel as [-> | (p & T & -> & Hp & Hel & HT & Hlow)].
  - left. split; [done|]. intros i t Hel.
    specialize (Hmax i t (Hin i t Hel) Hel). simpl in Hmax.
    destruct Hel as (_ & Ht & Hleaf & _).
    specialize (Hpos i t Ht Hleaf). lia.
  - right. exists p, T. split; [done|]. split; [done|]. split; [|done].
    intros j t Hj. exact (Hmax j t (Hin j t Hj) Hj).
Qed.

(** C5.  When the split flag is not set [RedistributeAmongCores]
    changes nothing.  When it is set and no slot is unlocked, not a
    leaf and with a task in its heap, only the flag is cleared.  When
    it is set and such a slot exists, the slot [p] with the most points
    among them, the lowest index on a tie, is split and the flag is
    cleared after the split: the queue returned is [split_result] at
    [p], with the left child in slot [p], the right child in a new last
    slot and the tasks of the heap of [p] issued again for the two
    children.  The slot split is therefore never a leaf and never one
    with an empty heap, and no other slot is split. *)
Theorem RedistributeAmongCores_selects (metric_in : MetricType) (st : State) :
  aligned st → counts_positive st →
  (split_subtree_after_unlocking_ st = false →
   RedistributeAmongCores metric_in st = Some st)
  ∧ (split_subtree_after_unlocking_ st = true →
     ((∀ i t, ¬ eligible st i t)
      ∧ RedistributeAmongCores metric_in st = Some (set_split_flag false st))
     ∨ ∃ p a b c L R heap w r,
         largest_eligible st p (Node a b c L R)
         ∧ tasks_ st !! p = Some heap
         ∧ 0 < pq_size heap
         ∧ assigned_work_ st !! p = Some w
         ∧ remaining_work_for_query_subtrees_ st !! p = Some r
         ∧ RedistributeAmongCores metric_in st
           = Some (set_split_flag false
                     (split_result metric_in p (Node a b c L R) L R w r heap
                        st))).
Proof.
  intros Hal Hpos. unfold RedistributeAmongCores. split; intros ->; [done|].
  destruct (select_split_index_spec st Hal Hpos)
    as [[-> Hnone] | (p & T & -> & Hbest)]; simpl.
  - by left.
  - right. rewrite (proj2 (Z.leb_le _ _)) by lia. rewrite Nat2Z.id.
    pose proof Hbest as [(Hl & Ht & Hleaf & h & Hh & Hsize) _].
    pose proof Hal as (Haw & Hrw & _).
    pose proof (lookup_lt_Some _ _ _ Ht) as Hp.
    destruct (lookup_lt_is_Some_2 (assigned_work_ st) p) as [w Hw]; [lia|].
    destruct (lookup_lt_is_Some_2 (remaining_work_for_query_subtrees_ st) p)
      as [r Hr]; [lia|].
    destruct T as [a b c | a b c L R]; [done|].
    exists p, a, b, c, L, R, h, w, r. split_and!; try done.
    rewrite (split_subtree_eq metric_in p st a b c L R h w r) by auto.
    done.
Qed.

Lemma RedistributeAmongCores_selects_witness :
  ∃ heap w,
    tasks_ (set_split_subtree_flag Example.st1) !! 0 = Some heap
    ∧ pq_size heap = 3
    ∧ assigned_work_ (set_split_subtree_flag Example.st1) !! 0 = Some w
    ∧ RedistributeAmongCores Example.metric
        (set_split_subtree_flag Example.st1)
      = Some (set_split_flag false
                (split_result Example.metric 0 Example.q0 (Leaf 2 0 50)
                   (Leaf 3 50 50) w 200 heap
                   (set_split_subtree_flag Example.st1))).
Proof.
  assert (aligned (set_split_subtree_flag Example.st1)) as Hal
    by (vm_compute; done).
  assert (counts_positive (set_split_subtree_flag Example.st1)) as Hpos.
  { intros [|[|i]] t Ht Hleaf; vm_compute in Ht; simplify_eq; done. }
  assert (eligible (set_split_subtree_flag Example.st1) 0 Example.q0) as Hq0.
  { vm_compute. split_and!; try done. eexists. split; [done|]. simpl. lia. }
  destruct (RedistributeAmongCores_selects Example.metric _ Hal Hpos)
    as [_ Hset].
  destruct (Hset eq_refl)
    as [[Hnone _]
       | (p & a & b & c & L & R & heap & w & r & Hbest & Hh & _ & Hw & Hr
          & Hrun)].
  - exfalso. exact (Hnone 0 Example.q0 Hq0).
  - destruct Hbest as ((_ & Ht & _) & _ & Hlow).
    destruct p as [|[|p]].
    + clear Hlow Hset Hq0 Hal Hpos.
      assert (Node a b c L R = Example.q0) as Heq
        by (vm_compute in Ht; apply (inj Some) in Ht; by rewrite <- Ht).
      assert (r = 200%Z) as -> by (vm_compute in Hr; congruence).
      assert (pq_size heap = 3) as Hsize
        by (clear Hrun; vm_compute in Hh; by injection Hh as <-).
      injection Heq as -> -> -> -> ->.
      exists heap, w. split; [exact Hh|]. split; [exact Hsize|].
      split; [exact Hw|exact Hrun].
    + exfalso. clear Hrun Hh Hw Hr Hset.
      specialize (Hlow 0 Example.q0 ltac:(lia) Hq0).
      assert (c = 100%Z) as -> by (vm_compute in Ht; congruence).
      vm_compute in Hlow. discriminate Hlow.
    + exfalso. clear -Ht. vm_compute in Ht. discriminate Ht.
Defined.

(** ** One arrival at one subtree *)

Local Arguments PushTask_ : simpl never.

Lemma generate_for_subtable_eq (metric_in : MetricType)
    (received : Z * Z * Z * Z) (st : State) :
  generate_for_subtable metric_in received st
  = for_each
      (generate_for_subtree metric_in
         (reference_interval (table_exchange_ st) received)
         (reference_table_of (table_exchange_ st) received,
          reference_node_of (table_exchange_ st) received, received.2))
      (seq 0 (size st)) st.
Proof.
  destruct received as [[[s b] c] cid].
  unfold generate_for_subtable, reference_interval, reference_table_of,
    reference_node_of.
  simpl. by destruct (FindSubTable (table_exchange_ st) cid).
Qed.

Lemma set_assigned_work_id (st : State) :
  set_assigned_work (assigned_work_ st) st = st.
Proof. by destruct st. Qed.

Lemma generate_for_subtree_covered (metric_in : MetricType) (x : Interval)
    (pair : TableType * option TreeType * Z) (j : nat) (st : State) :
  covered_at st j x = true →
  generate_for_subtree metric_in x pair j st = Some st.
Proof.
  unfold covered_at, generate_for_subtree.
  destruct (assigned_work_ st !! j) as [w|] eqn:Hw; [|done].
  intros Hcov. simpl. unfold Insert. rewrite Hcov.
  by rewrite (list_insert_id _ _ _ Hw), set_assigned_work_id.
Qed.

Lemma generate_for_subtree_inv (metric_in : MetricType) (x : Interval)
    (tb : TableType) (nd : option TreeType) (cid : Z) (j : nat)
    (st st' : State) :
  generate_for_subtree metric_in x (tb, nd, cid) j st = Some st' →
  (covered_at st j x = true ∧ st' = st)
  ∨ ∃ w q r h,
      assigned_work_ st !! j = Some w ∧ Covered w x = false
      ∧ query_subtrees_ st !! j = Some q ∧ nd = Some r
      ∧ tasks_ st !! j = Some h
      ∧ st' = enqueued metric_in x tb r cid j q w h st.
Proof.
  intros Hrun. destruct (covered_at st j x) eqn:Hcov.
  - left. rewrite generate_for_subtree_covered in Hrun by done.
    by simplify_eq.
  - right. unfold covered_at in Hcov. unfold generate_for_subtree in Hrun.
    destruct (assigned_work_ st !! j) as [w|] eqn:Hw; [|done].
    simpl in Hrun. unfold Insert in Hrun. rewrite Hcov in Hrun.
    destruct (PushTask_ _ _ _ _) as [st2|] eqn:Hpush; [|done].
    simpl in Hrun. simplify_eq.
    apply PushTask_inv in Hpush as (q & r & h & Hq & -> & Hh & ->).
    by exists w, q, r, h.
Qed.

(** A null reference node stops the call at the first subtree that
    does not cover the interval yet. *)
Lemma generate_for_subtree_null (metric_in : MetricType) (x : Interval)
    (tb : TableType) (cid : Z) (j : nat) (st : State) :
  covered_at st j x = false →
  generate_for_subtree metric_in x (tb, None, cid) j st = None.
Proof.
  intros Hcov.
  destruct (generate_for_subtree metric_in x (tb, None, cid) j st)
    as [st'|] eqn:Hrun; [|done].
  apply generate_for_subtree_inv in Hrun
    as [[Hcov' _] | (w & q & r & h & _ & _ & _ & Hnd & _)]; congruence.
Qed.

Lemma subsumes_refl (x : Interval) : subsumes x x = true.
Proof.
  destruct x as [[r lo] hi]. unfold subsumes.
  rewrite Z.eqb_refl, !Z.leb_refl. done.
Qed.

Lemma covered_at_enqueued (metric_in : MetricType) (x : Interval)
    (tb : TableType) (r : TreeType) (cid : Z) (j : nat) (q : TreeType)
    (w : DisjointIntIntervals) (h : TaskPriorityQueueType) (st : State)
    (k : nat) (y : Interval) :
  assigned_work_ st !! j = Some w →
  covered_at (enqueued metric_in x tb r cid j q w h st) k y
  = if decide (k = j) then subsumes x y || Covered w y
    else covered_at st k y.
Proof.
  intros Hw. unfold covered_at. simpl. case_decide as Hk.
  - subst k. rewrite list_lookup_insert_eq by (by eapply lookup_lt_Some).
    done.
  - by rewrite list_lookup_insert_ne.
Qed.

(** What is covered stays covered. *)
Lemma generate_for_subtree_monotone (metric_in : MetricType) (x : Interval)
    (pair : TableType * option TreeType * Z) (j : nat) (st st' : State)
    (k : nat) (y : Interval) :
  generate_for_subtree metric_in x pair j st = Some st' →
  covered_at st k y = true → covered_at st' k y = true.
Proof.
  destruct pair as [[tb nd] cid].
  intros [[_ ->] | (w & q & r & h & Hw & _ & _ & _ & _ & ->)]
    %generate_for_subtree_inv Hcov; [done|].
  rewrite covered_at_enqueued by done. case_decide as Hk; [|done].
  subst k. unfold covered_at in Hcov. rewrite Hw in Hcov. rewrite Hcov.
  apply orb_true_r.
Qed.

(** After the visit of slot [j] the interval is covered there. *)
Lemma generate_for_subtree_covers (metric_in : MetricType) (x : Interval)
    (pair : TableType * option TreeType * Z) (j : nat) (st st' : State) :
  generate_for_subtree metric_in x pair j st = Some st' →
  covered_at st' j x = true.
Proof.
  destruct pair as [[tb nd] cid].
  intros [[Hcov ->] | (w & q & r & h & Hw & _ & _ & _ & _ & ->)]
    %generate_for_subtree_inv; [done|].
  rewrite covered_at_enqueued by done. rewrite decide_True by done.
  by rewrite subsumes_refl.
Qed.

Lemma generate_for_subtree_frame (metric_in : MetricType) (x : Interval)
    (pair : TableType * option TreeType * Z) (j : nat) (st st' : State) :
  generate_for_subtree metric_in x pair j st = Some st' →
  generate_frame st st'.
Proof.
  destruct pair as [[tb nd] cid].
  intros [[_ ->] | (w & q & r & h & Hw & _ & _ & _ & _ & ->)]
    %generate_for_subtree_inv; unfold generate_frame, same_queries; simpl.
  - done.
  - by rewrite !length_insert.
Qed.

Global Instance generate_frame_refl : Reflexive generate_frame.
Proof. intros st. by unfold generate_frame, same_queries. Qed.

Global Instance generate_frame_trans : Transitive generate_frame.
Proof.
  intros s1 s2 s3 (? & ? & ? & ? & ? & ? & (? & ? & ? & ?) & ? & ?)
    (? & ? & ? & ? & ? & ? & (? & ? & ? & ?) & ? & ?).
  unfold generate_frame, same_queries. split_and!; congruence.
Qed.

(** ** The two loops of [GenerateTasks] *)

Lemma for_each_fixed {S : Type} (body : nat → S → option S) (l : list nat)
    (s : S) :
  (∀ i, i ∈ l → body i s = Some s) → for_each body l s = Some s.
Proof.
  induction l as [|i l IH]; intros Hbody; simpl; [done|].
  rewrite Hbody by (by left). simpl. apply IH. intros k Hk. apply Hbody.
  by right.
Qed.

Lemma generate_for_subtable_frame (metric_in : MetricType)
    (received : Z * Z * Z * Z) (st st' : State) :
  generate_for_subtable metric_in received st = Some st' →
  generate_frame st st'.
Proof.
  rewrite generate_for_subtable_eq.
  apply (for_each_related _ generate_frame).
  intros i t t' _. apply generate_for_subtree_frame.
Qed.

Lemma GenerateTasks_frame (metric_in : MetricType)
    (ids : list (Z * Z * Z * Z)) (st st' : State) :
  GenerateTasks metric_in ids st = Some st' → generate_frame st st'.
Proof.
  revert st. induction ids as [|d ids IH]; intros st Hrun; simpl in Hrun.
  - by simplify_eq.
  - destruct (generate_for_subtable metric_in d st) as [s|] eqn:Hd; [|done].
    simpl in Hrun. transitivity s; [|by apply IH].
    by eapply generate_for_subtable_frame.
Qed.

Lemma generate_for_subtable_monotone (metric_in : MetricType)
    (received : Z * Z * Z * Z) (st st' : State) (k : nat) (y : Interval) :
  generate_for_subtable metric_in received st = Some st' →
  covered_at st k y = true → covered_at st' k y = true.
Proof.
  rewrite generate_for_subtable_eq. intros Hrun Hcov.
  apply (for_each_invariant _ (λ s, covered_at s k y = true) _ _ _
           ltac:(intros i t t' _ Ht Hstep;
                 by eapply generate_for_subtree_monotone) Hcov Hrun).
Qed.

Lemma GenerateTasks_monotone (metric_in : MetricType)
    (ids : list (Z * Z * Z * Z)) (st st' : State) (k : nat) (y : Interval) :
  GenerateTasks metric_in ids st = Some st' →
  covered_at st k y = true → covered_at st' k y = true.
Proof.
  revert st. induction ids as [|d ids IH]; intros st Hrun Hcov;
    simpl in Hrun.
  - by simplify_eq.
  - destruct (generate_for_subtable metric_in d st) as [s|] eqn:Hd; [|done].
    simpl in Hrun. apply (IH s Hrun).
    by eapply generate_for_subtable_monotone.
Qed.

(** After the inner loop the interval is covered in every slot. *)
Lemma generate_loop_covers (metric_in : MetricType) (x : Interval)
    (pair : TableType * option TreeType * Z) (n : nat) (st st' : State) :
  for_each (generate_for_subtree metric_in x pair) (seq 0 n) st = Some st' →
  ∀ j, j < n → covered_at st' j x = true.
Proof.
  revert st'. induction n as [|n IH]; intros st' Hrun j Hj; [lia|].
  rewrite seq_S, for_each_app in Hrun.
  destruct (for_each _ (seq 0 n) st) as [s|] eqn:Hs; [|done].
  simpl in Hrun.
  destruct (generate_for_subtree metric_in x pair n s) as [s'|] eqn:Hn;
    [|done].
  simpl in Hrun. simplify_eq.
  destruct (decide (j = n)) as [->|Hne].
  - by eapply generate_for_subtree_covers.
  - eapply generate_for_subtree_monotone; [done|]. apply (IH s); [done|lia].
Qed.

Lemma reference_interval_same (e e' : TableExchangeType)
    (received : Z * Z * Z * Z) :
  same_queries e e' →
  reference_interval e' received = reference_interval e received
  ∧ reference_table_of e' received = reference_table_of e received
  ∧ reference_node_of e' received = reference_node_of e received.
Proof.
  intros (Hf & Hl & Hb & _).
  unfold reference_interval, reference_table_of, reference_node_of.
  by rewrite Hf, Hl, Hb.
Qed.

(** After [GenerateTasks] every interval of the arrival list is covered
    for every subtree. *)
Lemma GenerateTasks_covers (metric_in : MetricType)
    (ids : list (Z * Z * Z * Z)) (st st' : State) :
  GenerateTasks metric_in ids st = Some st' →
  ∀ d j, d ∈ ids → j < size st →
         covered_at st' j (reference_interval (table_exchange_ st) d) = true.
Proof.
  revert st. induction ids as [|d0 ids IH]; intros st Hrun d j Hd Hj;
    simpl in Hrun.
  - by apply elem_of_nil in Hd.
  - destruct (generate_for_subtable metric_in d0 st) as [s|] eqn:Hd0;
      [|done].
    simpl in Hrun.
    pose proof (generate_for_subtable_frame _ _ _ _ Hd0)
      as (Hqs & _ & _ & _ & _ & _ & Hsame & _).
    apply elem_of_cons in Hd as [-> | Hd].
    + eapply GenerateTasks_monotone; [done|].
      rewrite generate_for_subtable_eq in Hd0.
      by eapply generate_loop_covers.
    + destruct (reference_interval_same _ _ d Hsame) as [<- _].
      apply (IH s Hrun d j Hd). unfold size in *. by rewrite Hqs.
Qed.

(** A call with arrivals that are covered everywhere changes nothing. *)
Lemma GenerateTasks_covered (metric_in : MetricType)
    (ids : list (Z * Z * Z * Z)) (st : State) :
  (∀ d j, d ∈ ids → j < size st →
          covered_at st j (reference_interval (table_exchange_ st) d) = true) →
  GenerateTasks metric_in ids st = Some st.
Proof.
  induction ids as [|d ids IH]; intros Hcov; simpl; [done|].
  rewrite generate_for_subtable_eq, for_each_fixed; simpl.
  - apply IH. intros d' j Hd'. apply Hcov. by right.
  - intros j [_ Hj]%elem_of_seq. apply generate_for_subtree_covered.
    apply Hcov; [by left|]. simpl in Hj. done.
Qed.

(** ** Locks and tasks are created together *)

Lemma sum_list_with_insert {A : Type} (f : A → nat) (l : list A) (i : nat)
    (x y : A) :
  l !! i = Some x →
  sum_list_with f (<[i := y]> l) + f x = sum_list_with f l + f y.
Proof.
  revert i. induction l as [|u l IH]; intros [|i] Hi; simplify_eq/=.
  - lia.
  - specialize (IH i Hi). lia.
Qed.

Lemma lock_total_snoc (cid : Z) (cs : list ExchangeCall) (c : ExchangeCall) :
  lock_total cid (cs ++ [c]) = (lock_total cid cs + lock_increment cid c)%Z.
Proof.
  unfold lock_total. induction cs as [|c' cs IH]; simpl; [lia|].
  rewrite IH. lia.
Qed.

Lemma holding_push (cid : Z) (t : TaskType) (h : TaskPriorityQueueType) :
  length (filter (λ u, cache_id u = cid) (pq_push t h))
  = (if decide (cache_id t = cid) then 1 else 0)
    + length (filter (λ u, cache_id u = cid) h).
Proof.
  rewrite pq_push_perm, filter_cons. by case_decide.
Qed.

Lemma enqueued_same_accounts (metric_in : MetricType) (x : Interval)
    (tb : TableType) (r : TreeType) (cid : Z) (j : nat) (q : TreeType)
    (w : DisjointIntIntervals) (h : TaskPriorityQueueType) (st : State) :
  tasks_ st !! j = Some h →
  same_accounts st (enqueued metric_in x tb r cid j q w h st).
Proof.
  intros Hh. set (t := mkTask q tb r cid (- metric_in q r)).
  split_and!.
  - intros cid'. unfold lock_balance, tasks_holding. simpl.
    rewrite lock_total_snoc. simpl.
    pose proof (sum_list_with_insert
                  (λ h, length (filter (λ u, cache_id u = cid') h))
                  (tasks_ st) j h (pq_push t h) Hh) as Hsum.
    simpl in Hsum. rewrite holding_push in Hsum. simpl in Hsum.
    unfold t in *.
    destruct (Z.eqb_spec cid cid') as [Heq | Hne].
    + rewrite decide_True in Hsum by done. lia.
    + rewrite decide_False in Hsum by done. lia.
  - unfold lock_surplus. simpl. rewrite filter_app, length_app. simpl.
    pose proof (total_tasks_insert (tasks_ st) j h (pq_push t h) Hh) as Hsum.
    rewrite pq_size_push in Hsum. unfold t in *. lia.
  - simpl.
    pose proof (total_tasks_insert (tasks_ st) j h (pq_push t h) Hh) as Hsum.
    rewrite pq_size_push in Hsum. unfold t in *. lia.
Qed.

Global Instance same_accounts_refl : Reflexive same_accounts.
Proof. intros st. by unfold same_accounts. Qed.

Global Instance same_accounts_trans : Transitive same_accounts.
Proof.
  intros s1 s2 s3 (Hb & Hs & Hn) (Hb' & Hs' & Hn').
  unfold same_accounts. split_and!; [|congruence..].
  intros cid. by rewrite Hb', Hb.
Qed.

Lemma generate_for_subtree_accounts (metric_in : MetricType) (x : Interval)
    (pair : TableType * option TreeType * Z) (j : nat) (st st' : State) :
  generate_for_subtree metric_in x pair j st = Some st' →
  same_accounts st st'.
Proof.
  destruct pair as [[tb nd] cid].
  intros [[_ ->] | (w & q & r & h & _ & _ & _ & _ & Hh & ->)]
    %generate_for_subtree_inv; [done|].
  by apply enqueued_same_accounts.
Qed.

Lemma GenerateTasks_accounts (metric_in : MetricType)
    (ids : list (Z * Z * Z * Z)) (st st' : State) :
  GenerateTasks metric_in ids st = Some st' → same_accounts st st'.
Proof.
  revert st. induction ids as [|d ids IH]; intros st Hrun; simpl in Hrun.
  - by simplify_eq.
  - destruct (generate_for_subtable metric_in d st) as [s|] eqn:Hd; [|done].
    simpl in Hrun. transitivity s; [|by apply IH].
    rewrite generate_for_subtable_eq in Hd.
    apply (for_each_related _ same_accounts _ _ _
             ltac:(intros i t t' _; apply generate_for_subtree_accounts) Hd).
Qed.

(** ** No interval gives two tasks to one subtree *)

Lemma filter_length_drop {A : Type} (P Q : A → Prop)
    `{!∀ y, Decision (P y), !∀ y, Decision (Q y)} (X : list A) (x : A) :
  (∀ y, Q y → P y) → x ∈ X → P x → ¬ Q x →
  length (filter Q X) < length (filter P X).
Proof.
  intros Hsub Hx HP HQ.
  assert (∀ Y : list A, length (filter Q Y) ≤ length (filter P Y)) as Hle.
  { induction Y as [|y Y IH]; [done|]. rewrite !filter_cons.
    destruct (decide (Q y)) as [Hq|Hq].
    - rewrite decide_True by auto. simpl. lia.
    - case_decide; simpl; lia. }
  induction X as [|y X IH]; [by apply elem_of_nil in Hx|].
  rewrite !filter_cons. apply elem_of_cons in Hx as [<- | Hx].
  - destruct (decide (Q x)); [done|]. destruct (decide (P x)); [|done].
    simpl. specialize (Hle X). lia.
  - specialize (IH Hx). destruct (decide (Q y)) as [Hq|Hq].
    + rewrite decide_True by auto. simpl. lia.
    + case_decide; simpl; lia.
Qed.

Lemma generate_for_subtree_open_work (metric_in : MetricType) (x : Interval)
    (pair : TableType * option TreeType * Z) (j : nat) (st st' : State)
    (X : list Interval) (k : nat) :
  x ∈ X → generate_for_subtree metric_in x pair j st = Some st' →
  open_work X k st' ≤ open_work X k st.
Proof.
  destruct pair as [[tb nd] cid].
  intros Hx [[_ ->] | (w & q & r & h & Hw & Hcov & _ & _ & Hh & ->)]
    %generate_for_subtree_inv; [done|].
  unfold open_work. simpl. destruct (decide (k = j)) as [-> | Hne].
  - rewrite !list_lookup_insert_eq by (by eapply lookup_lt_Some).
    rewrite Hh, Hw, pq_size_push.
    assert (length (uncovered (x :: w) X) < length (uncovered w X)); [|lia].
    apply (filter_length_drop _ _ X x); [|done|done|].
    + simpl. intros y Hy. by apply orb_false_elim in Hy as [_ Hy].
    + simpl. by rewrite subsumes_refl.
  - by rewrite !list_lookup_insert_ne.
Qed.

Lemma GenerateTasks_open_work (metric_in : MetricType)
    (ids : list (Z * Z * Z * Z)) (X : list Interval) (k : nat) :
  ∀ st st',
    (∀ d, d ∈ ids → reference_interval (table_exchange_ st) d ∈ X) →
    GenerateTasks metric_in ids st = Some st' →
    open_work X k st' ≤ open_work X k st.
Proof.
  induction ids as [|d ids IH]; intros st st' HX Hrun; simpl in Hrun.
  - by simplify_eq.
  - destruct (generate_for_subtable metric_in d st) as [s|] eqn:Hd; [|done].
    simpl in Hrun.
    pose proof (generate_for_subtable_frame _ _ _ _ Hd)
      as (_ & _ & _ & _ & _ & _ & Hsame & _).
    transitivity (open_work X k s).
    + apply (IH s st'); [|done]. intros d' Hd'.
      destruct (reference_interval_same _ _ d' Hsame) as [-> _].
      apply HX. by right.
    + rewrite generate_for_subtable_eq in Hd.
      eapply (for_each_invariant _
                (λ t, open_work X k t ≤ open_work X k st)); [|done|exact Hd].
      intros i t t' _ Ht Hstep. simpl in *. etrans; [|exact Ht].
      eapply generate_for_subtree_open_work; [|exact Hstep].
      apply HX. by left.
Qed.

(** ** [GenerateTasks] returns when every arrival resolves to a node *)

Lemma generate_frame_aligned (st st' : State) :
  generate_frame st st' → aligned st → aligned st'.
Proof.
  intros (Hq & Hr & Hl & _ & _ & _ & _ & Ha & Ht) (? & ? & ? & ?).
  unfold aligned. rewrite Hq, Hr, Hl, Ha, Ht. done.
Qed.

Lemma generate_for_subtree_total (metric_in : MetricType) (x : Interval)
    (tb : TableType) (r : TreeType) (cid : Z) (j : nat) (st : State) :
  aligned st → j < size st →
  is_Some (generate_for_subtree metric_in x (tb, Some r, cid) j st).
Proof.
  intros (Haw & Hrw & Hlk & Hts) Hj. unfold size in Hj.
  destruct (lookup_lt_is_Some_2 (assigned_work_ st) j) as [w Hw]; [lia|].
  destruct (lookup_lt_is_Some_2 (query_subtrees_ st) j) as [q Hq]; [lia|].
  destruct (lookup_lt_is_Some_2 (tasks_ st) j) as [h Hh]; [lia|].
  unfold generate_for_subtree. rewrite Hw. simpl.
  destruct (Insert w x) as [w' []]; [|by eauto].
  erewrite PushTask_Some; [by eauto|done|done].
Qed.

Lemma GenerateTasks_total (metric_in : MetricType)
    (ids : list (Z * Z * Z * Z)) (st : State) :
  aligned st →
  (∀ d, d ∈ ids → is_Some (reference_node_of (table_exchange_ st) d)) →
  is_Some (GenerateTasks metric_in ids st).
Proof.
  revert st. induction ids as [|d ids IH]; intros st Hal Hnode; simpl;
    [by eauto|].
  destruct (Hnode d) as [r Hr]; [by left|].
  destruct (for_each_total
              (generate_for_subtree metric_in
                 (reference_interval (table_exchange_ st) d)
                 (reference_table_of (table_exchange_ st) d, Some r, d.2))
              (λ s, aligned s ∧ generate_frame st s)
              (seq 0 (size st)) st) as (s & Hs & Hal' & Hframe).
  - intros j t [_ Hj]%elem_of_seq [Ht Hft]. simpl in Hj.
    destruct (generate_for_subtree_total metric_in
                (reference_interval (table_exchange_ st) d)
                (reference_table_of (table_exchange_ st) d) r d.2 j t Ht)
      as [t' Ht'].
    { unfold size. destruct Hft as [-> _]. done. }
    exists t'. split; [done|].
    pose proof (generate_for_subtree_frame _ _ _ _ _ _ Ht') as Hstep.
    split; [by eapply generate_frame_aligned|by etrans].
  - done.
  - rewrite generate_for_subtable_eq, Hr, Hs. simpl.
    apply IH; [done|]. intros d' Hd'.
    destruct Hframe as (_ & _ & _ & _ & _ & _ & Hsame & _).
    destruct (reference_interval_same _ _ d' Hsame) as (_ & _ & ->).
    apply Hnode. by right.
Qed.

(** C3.  Whenever [GenerateTasks] returns: a second call with the same
    arrival list returns the queue it was given, so no heap changes and
    no lock is taken; for every cache id the locks taken are as many as
    the tasks created that hold it, and the number of lock calls is the
    number of tasks created; the heap of a subtree grows by at most one
    task for each distinct interval of the list that its interval set
    did not cover. *)
Theorem GenerateTasks_idempotent (metric_in : MetricType)
    (received_subtable_ids : list (Z * Z * Z * Z)) (st st1 : State) :
  GenerateTasks metric_in received_subtable_ids st = Some st1 →
  GenerateTasks metric_in received_subtable_ids st1 = Some st1
  ∧ (∀ cid, lock_balance cid st1 = lock_balance cid st)
  ∧ lock_surplus st1 = lock_surplus st
  ∧ ∀ j h w h',
      tasks_ st !! j = Some h → assigned_work_ st !! j = Some w →
      tasks_ st1 !! j = Some h' →
      pq_size h'
      ≤ pq_size h
        + length (uncovered w
                    (remove_dups
                       (reference_interval (table_exchange_ st)
                          <$> received_subtable_ids))).
Proof.
  intros Hrun.
  pose proof (GenerateTasks_frame _ _ _ _ Hrun) as Hframe.
  pose proof (GenerateTasks_accounts _ _ _ _ Hrun) as (Hbal & Hsur & _).
  split_and!; [|done|done|].
  - apply GenerateTasks_covered. intros d j Hd Hj.
    destruct Hframe as (Hqs & _ & _ & _ & _ & _ & Hsame & _).
    destruct (reference_interval_same _ _ d Hsame) as [-> _].
    eapply GenerateTasks_covers; [done|done|].
    unfold size in *. by rewrite <- Hqs.
  - intros j h w h' Hh Hw Hh'.
    set (X := remove_dups _).
    pose proof (GenerateTasks_open_work metric_in received_subtable_ids X j
                  st st1) as Hopen.
    unfold open_work in Hopen. rewrite Hh, Hw, Hh' in Hopen.
    destruct Hframe as (_ & _ & _ & _ & _ & _ & _ & Hlen & _).
    destruct (lookup_lt_is_Some_2 (assigned_work_ st1) j) as [w' Hw'].
    { rewrite Hlen. by eapply lookup_lt_Some. }
    rewrite Hw' in Hopen.
    assert (pq_size h' + length (uncovered w' X)
            ≤ pq_size h + length (uncovered w X)); [|lia].
    apply Hopen; [|done]. intros d Hd.
    apply elem_of_remove_dups, list_elem_of_fmap. eauto.
Qed.

Lemma GenerateTasks_idempotent_witness :
  GenerateTasks Example.metric Example.arrivals Example.st1
  = Some Example.st1.
Proof.
  apply (GenerateTasks_idempotent Example.metric Example.arrivals
           Example.st0 Example.st1).
  vm_compute. reflexivity.
Defined.

(** ** An arrival that resolves to no node *)

Lemma generate_for_subtable_null (metric_in : MetricType)
    (received : Z * Z * Z * Z) (st st' : State) :
  reference_node_of (table_exchange_ st) received = None →
  generate_for_subtable metric_in received st = Some st' →
  st' = st
  ∧ ∀ j, j < size st →
         covered_at st j (reference_interval (table_exchange_ st) received)
         = true.
Proof.
  intros Hnull Hrun. rewrite generate_for_subtable_eq, Hnull in Hrun.
  assert (st' = st) as ->.
  { eapply (for_each_invariant _ (λ s, s = st)); [|done|exact Hrun].
    intros j t t' _ -> Hstep. simpl.
    apply generate_for_subtree_inv in Hstep
      as [[_ ->] | (w & q & r & h & _ & _ & _ & Hnd & _)]; done. }
  split; [done|]. by eapply generate_loop_covers.
Qed.

(** The arrival (1, 500, 5, 99) is neither in the cache nor in the
    local table, and no subtree covers its interval: the call does not
    return, although the arrival (1, 0, 50, 7) behind it gives two tasks
    when it comes alone. *)
Lemma GenerateTasks_null_node_stops :
  FindSubTable (table_exchange_ Example.st0) 99 = None
  ∧ FindByBeginCount (table_exchange_ Example.st0) 500 5 = None
  ∧ GenerateTasks Example.metric [(1, 500, 5, 99); (1, 0, 50, 7)]%Z Example.st0
    = None
  ∧ (num_remaining_tasks_
       <$> GenerateTasks Example.metric [(1, 0, 50, 7)]%Z Example.st0)
    = Some 2%Z.
Proof. vm_compute. done. Qed.

(** C8, as the code has it.  For a received descriptor that the cache
    does not hold and for which [FindByBeginCount] gives no node, the
    interval is the one of the local table.  When the interval set of
    every live subtree covers it already, the descriptor leaves the
    queue as it is, with no task and no lock, and the call goes on with
    the descriptors behind it.  When the interval set of some live
    subtree does not cover it, [PushTask_] dereferences the null node
    and the call does not return. *)
Theorem GenerateTasks_cache_miss (metric_in : MetricType)
    (src_rank reference_begin reference_count cid : Z)
    (rest : list (Z * Z * Z * Z)) (st : State) :
  FindSubTable (table_exchange_ st) cid = None →
  FindByBeginCount (table_exchange_ st) reference_begin reference_count
  = None →
  ((∀ j, j < size st →
         covered_at st j
           (rank (local_table (table_exchange_ st)), reference_begin,
            (reference_begin + reference_count)%Z) = true) →
   GenerateTasks metric_in
     ((src_rank, reference_begin, reference_count, cid) :: rest) st
   = GenerateTasks metric_in rest st)
  ∧ (∀ j, j < size st →
          covered_at st j
            (rank (local_table (table_exchange_ st)), reference_begin,
             (reference_begin + reference_count)%Z) = false →
          GenerateTasks metric_in
            ((src_rank, reference_begin, reference_count, cid) :: rest) st
          = None).
Proof.
  intros Hfind Hnode.
  set (d := (src_rank, reference_begin, reference_count, cid)).
  assert (reference_node_of (table_exchange_ st) d = None) as Hnull.
  { unfold reference_node_of. simpl. by rewrite Hfind. }
  assert (reference_interval (table_exchange_ st) d
          = (rank (local_table (table_exchange_ st)), reference_begin,
             (reference_begin + reference_count)%Z)) as Hint.
  { unfold reference_interval, reference_table_of. simpl. by rewrite Hfind. }
  split.
  - intros Hcov. cbn [GenerateTasks].
    rewrite generate_for_subtable_eq, for_each_fixed; [done|].
    intros j [_ Hj]%elem_of_seq. apply generate_for_subtree_covered.
    rewrite Hint. apply Hcov. simpl in Hj. done.
  - intros j Hj Hcov. cbn [GenerateTasks].
    destruct (generate_for_subtable metric_in d st) as [s|] eqn:Hrun;
      [|done].
    destruct (generate_for_subtable_null _ _ _ _ Hnull Hrun) as [_ Hall].
    specialize (Hall j Hj). rewrite Hint in Hall. congruence.
Qed.

Lemma GenerateTasks_cache_miss_witness :
  GenerateTasks Example.metric [(1, 500, 5, 99); (1, 0, 50, 7)]%Z Example.st0
  = None.
Proof.
  destruct (GenerateTasks_cache_miss Example.metric 1 500 5 99
              [(1, 0, 50, 7)]%Z Example.st0 eq_refl eq_refl) as [_ Hstop].
  apply (Hstop 0); [vm_compute; lia | vm_compute; reflexivity].
Defined.

(** ** The two invariants through every operation *)

Lemma Init_aligned (frontier : list TreeType) (exchange : TableExchangeType)
    (n_entries : list (Z * Z)) (local_n : Z) (st : State) :
  aligned (Init frontier exchange n_entries local_n st).
Proof. unfold aligned, Init. simpl. by rewrite !length_replicate. Qed.

Lemma total_tasks_replicate_nil (n : nat) : total_tasks (replicate n []) = 0.
Proof.
  induction n as [|n IH]; [done|]. unfold total_tasks in *. simpl. lia.
Qed.

Lemma Init_counted (frontier : list TreeType) (exchange : TableExchangeType)
    (n_entries : list (Z * Z)) (local_n : Z) (st : State) :
  num_remaining_tasks_ st = 0%Z →
  tasks_counted (Init frontier exchange n_entries local_n st).
Proof.
  intros Hnum. unfold tasks_counted, Init. simpl.
  by rewrite total_tasks_replicate_nil.
Qed.

Lemma taken_aligned (i : nat) (lock : bool) (rest : TaskPriorityQueueType)
    (st : State) :
  aligned st → aligned (taken i lock rest st).
Proof. unfold aligned. simpl. by rewrite !length_insert. Qed.

Lemma taken_counted (i : nat) (lock : bool) (top : TaskType)
    (rest : TaskPriorityQueueType) (st : State) :
  tasks_ st !! i = Some (top :: rest) →
  tasks_counted st → tasks_counted (taken i lock rest st).
Proof.
  intros Hh Hcount. unfold tasks_counted in *. simpl.
  pose proof (total_tasks_insert (tasks_ st) i (top :: rest) rest Hh) as Hsum.
  simpl in Hsum. lia.
Qed.

Lemma swap_removed_swap_pop {A : Type} (i : nat) (v v' : list A) :
  swap_removed i v v' → i < length v → swap_pop i v = Some v'.
Proof.
  intros [Hlen Hlook] Hi.
  destruct (swap_pop_Some i v Hi) as (x & Hx & Hpop).
  pose proof (swap_pop_removed i v _ Hpop) as [Hlen' Hlook'].
  rewrite Hpop. f_equal. apply list_eq. intros j.
  destruct (decide (j < length v')) as [Hj | Hj].
  - rewrite Hlook by done. rewrite Hlook' by lia.
    replace (length (take (length v - 1) (<[i := x]> v))) with (length v')
      by lia.
    done.
  - rewrite !lookup_ge_None_2 by lia. done.
Qed.

Lemma retired_counted (i : nat) (st st' : State) :
  tasks_ st !! i = Some [] → retired i st st' →
  tasks_counted st → tasks_counted st'.
Proof.
  intros Hi (_ & _ & _ & _ & Hts & _ & _ & Hnum & _) Hcount.
  unfold tasks_counted in *. rewrite Hnum, Hcount.
  apply swap_removed_swap_pop in Hts; [|by eapply lookup_lt_Some].
  by rewrite (total_tasks_swap_removed i _ _ Hi Hts).
Qed.

Lemma scan_aligned (task_out : TaskOut) (lock : bool) (i : nat) (st : State)
    (r : State * TaskOut) :
  scan task_out lock i st r → aligned st → aligned r.1.
Proof.
  induction 1; intros Hal; simpl; auto using taken_aligned.
  apply IHscan. by eapply retired_aligned.
Qed.

Lemma scan_counted (task_out : TaskOut) (lock : bool) (i : nat) (st : State)
    (r : State * TaskOut) :
  scan task_out lock i st r → tasks_counted st → tasks_counted r.1.
Proof.
  induction 1; intros Hcount; simpl; eauto using taken_counted.
  apply IHscan. by eapply retired_counted.
Qed.

Lemma DequeueTask_scan (task_out : TaskOut) (lock : bool) (st : State)
    (r : State * TaskOut) :
  aligned st → DequeueTask task_out lock st = Some r →
  scan task_out lock 0 st r.
Proof.
  intros Hal Hrun.
  destruct (DequeueTask_loop_scan task_out lock
              (2 * length (tasks_ st) + 1) 0 st Hal)
    as (r' & Hrun' & Hscan); [lia|].
  unfold DequeueTask in Hrun. by simplify_eq.
Qed.

Lemma push_all_size (new : list TaskType) (h : TaskPriorityQueueType) :
  pq_size (push_all new h) = pq_size h + length new.
Proof.
  revert h. induction new as [|t new IH]; intros h; simpl; [lia|].
  rewrite IH, pq_size_push. lia.
Qed.

Lemma split_result_aligned (metric_in : MetricType) (p : nat)
    (T L R : TreeType) (w : DisjointIntIntervals) (r : Z)
    (heap : TaskPriorityQueueType) (st : State) :
  aligned st → aligned (split_result metric_in p T L R w r heap st).
Proof.
  intros (? & ? & ? & ?). unfold aligned. simpl.
  rewrite !length_app, !length_insert. simpl. lia.
Qed.

Lemma split_result_counted (metric_in : MetricType) (p : nat)
    (T L R : TreeType) (w : DisjointIntIntervals) (r : Z)
    (heap : TaskPriorityQueueType) (st : State) :
  tasks_ st !! p = Some heap → tasks_counted st →
  tasks_counted (split_result metric_in p T L R w r heap st).
Proof.
  intros Hh Hcount. unfold tasks_counted in *. simpl.
  rewrite total_tasks_snoc, !push_all_size. simpl.
  pose proof (total_tasks_insert (tasks_ st) p heap
                (push_all (heap ≫= reemitted metric_in T L) []) Hh) as Hsum.
  rewrite push_all_size in Hsum. simpl in Hsum. lia.
Qed.

(** What [RedistributeAmongCores] can have done when it returns. *)
Lemma RedistributeAmongCores_inv (metric_in : MetricType) (st st' : State) :
  RedistributeAmongCores metric_in st = Some st' →
  st' = st
  ∨ st' = set_split_flag false st
  ∨ ∃ p st1, split_subtree_ metric_in p st = Some st1
             ∧ st' = set_split_flag false st1.
Proof.
  unfold RedistributeAmongCores. intros Hrun.
  destruct (split_subtree_after_unlocking_ st); [|left; by simplify_eq].
  destruct (select_split_index st) as [sel|]; [|done]. simpl in Hrun.
  destruct (0 <=? sel.2)%Z.
  - destruct (split_subtree_ metric_in (Z.to_nat sel.2) st) as [st1|] eqn:Hs;
      [|done].
    simpl in Hrun. simplify_eq. right. right. eauto.
  - simpl in Hrun. simplify_eq. right. by left.
Qed.

Lemma slot_retired (i : nat) (st st' : State) :
  retired i st st' → aligned st →
  ∀ j, j < size st' →
       slot st' j = if decide (j = i) then slot st (size st') else slot st j.
Proof.
  intros Hret Hal j Hj.
  pose proof (retired_aligned i st st' Hret Hal) as (Ha' & Hr' & Hl' & Ht').
  destruct Hret as ([_ Hq] & [_ Ha] & [_ Hr] & [_ Hl] & [_ Ht] & _).
  unfold size in *. unfold slot.
  rewrite Hq, Ha, Hr, Hl, Ht by lia. rewrite Ha', Hr', Hl', Ht'.
  by case_decide.
Qed.

Lemma push_completed_computation_frame (c q : Z) (st st' : State) :
  aligned st → push_completed_computation c q st = Some st' →
  aligned st' ∧ tasks_ st' = tasks_ st
  ∧ num_remaining_tasks_ st' = num_remaining_tasks_ st.
Proof.
  intros Hal Hrun. pose proof Hal as (Ha & Hr & Hl & Ht).
  rewrite push_completed_computation_eq in Hrun by done. simplify_eq.
  split; [|done]. unfold aligned. simpl. by rewrite length_fmap.
Qed.

Lemma push_completed_computation_for_frame (id : Z * Z * Z) (c q : Z)
    (st st' : State) :
  aligned st → push_completed_computation_for id c q st = Some st' →
  aligned st' ∧ tasks_ st' = tasks_ st
  ∧ num_remaining_tasks_ st' = num_remaining_tasks_ st.
Proof.
  intros Hal Hrun. unfold push_completed_computation_for in Hrun.
  destruct (at_int _ _) as [old|]; [|done]. simpl in Hrun. simplify_eq.
  split; [|done]. unfold aligned in *. simpl. by rewrite length_insert.
Qed.

Lemma UnlockQuerySubtree_frame (id : Z * Z * Z) (st st' : State) :
  aligned st → UnlockQuerySubtree id st = Some st' →
  aligned st' ∧ tasks_ st' = tasks_ st
  ∧ num_remaining_tasks_ st' = num_remaining_tasks_ st.
Proof.
  intros Hal Hrun. unfold UnlockQuerySubtree in Hrun.
  destruct (at_int _ _) as [old|]; [|done]. simpl in Hrun. simplify_eq.
  split; [|done]. unfold aligned in *. simpl. by rewrite length_insert.
Qed.

(** C4.  [num_remaining_tasks_] is the number of tasks in all heaps:
    after [Init] on a constructed queue, and after [GenerateTasks],
    both forms of [DequeueTask], [RedistributeAmongCores], the split
    and the retirement of a slot whenever it was so before. *)
Theorem num_remaining_tasks_counts :
  (∀ frontier exchange n_entries local_n exchange0,
     tasks_counted
       (Init frontier exchange n_entries local_n (new_queue exchange0)))
  ∧ (∀ metric_in ids st st',
       tasks_counted st → GenerateTasks metric_in ids st = Some st' →
       tasks_counted st')
  ∧ (∀ task_out lock st r,
       aligned st → tasks_counted st →
       DequeueTask task_out lock st = Some r → tasks_counted r.1)
  ∧ (∀ i task_out lock st r,
       tasks_counted st → DequeueTask_at i task_out lock st = Some r →
       tasks_counted r.1)
  ∧ (∀ metric_in st st',
       aligned st → tasks_counted st →
       RedistributeAmongCores metric_in st = Some st' → tasks_counted st')
  ∧ (∀ metric_in p st st',
       aligned st → tasks_counted st →
       split_subtree_ metric_in p st = Some st' → tasks_counted st')
  ∧ (∀ i st st',
       tasks_ st !! i = Some [] → tasks_counted st →
       retire_subtree i st = Some st' → tasks_counted st').
Proof.
  assert (∀ metric_in p st st',
            aligned st → tasks_counted st →
            split_subtree_ metric_in p st = Some st' → tasks_counted st')
    as Hsplit.
  { intros metric_in p st st' Hal Hcount Hrun.
    apply split_subtree_inv in Hrun
      as (a & b & c & L & R & heap & w & r & _ & _ & Hh & _ & _ & ->);
      [|done].
    by apply split_result_counted. }
  split_and!.
  - intros. by apply Init_counted.
  - intros metric_in ids st st' Hcount Hrun.
    apply GenerateTasks_accounts in Hrun as (_ & _ & Hnum).
    unfold tasks_counted in *. lia.
  - intros task_out lock st r Hal Hcount Hrun.
    eapply scan_counted; [|done]. by eapply DequeueTask_scan.
  - intros i task_out lock st r Hcount Hrun.
    apply DequeueTask_at_inv in Hrun
      as [-> | (top & rest & Hh & _ & ->)]; [done|].
    by eapply taken_counted.
  - intros metric_in st st' Hal Hcount Hrun.
    apply RedistributeAmongCores_inv in Hrun
      as [-> | [-> | (p & st1 & Hrun & ->)]]; [done|done|].
    by apply (Hsplit metric_in p st st1).
  - exact Hsplit.
  - intros i st st' Hi Hcount Hrun. by eapply retire_subtree_counted.
Qed.

Lemma num_remaining_tasks_counts_witness :
  tasks_counted Example.st0 ∧ tasks_counted Example.st1.
Proof.
  destruct num_remaining_tasks_counts as (Hinit & Hgen & _).
  assert (tasks_counted Example.st0) as H0 by apply Hinit.
  split; [exact H0|].
  apply (Hgen Example.metric Example.arrivals Example.st0 Example.st1 H0).
  vm_compute. reflexivity.
Defined.

(** C6.  The five parallel arrays have one length after [Init], and
    every operation that returns keeps it so.  The split lengthens all
    five by one and leaves the slots other than the one split as they
    were; the retirement of slot [i] shortens all five by one, puts the
    five entries of the tail into slot [i] and leaves the other slots as
    they were. *)
Theorem parallel_arrays_aligned :
  (∀ frontier exchange n_entries local_n st,
     aligned (Init frontier exchange n_entries local_n st))
  ∧ (∀ metric_in ids st st',
       aligned st → GenerateTasks metric_in ids st = Some st' → aligned st')
  ∧ (∀ task_out lock st r,
       aligned st → DequeueTask task_out lock st = Some r → aligned r.1)
  ∧ (∀ i task_out lock st r,
       aligned st → DequeueTask_at i task_out lock st = Some r →
       aligned r.1)
  ∧ (∀ metric_in st st',
       aligned st → RedistributeAmongCores metric_in st = Some st' →
       aligned st')
  ∧ (∀ metric_in p st st',
       aligned st → split_subtree_ metric_in p st = Some st' →
       aligned st' ∧ size st' = S (size st)
       ∧ ∀ j, j < size st → j ≠ p →
              query_subtrees_ st' !! j = query_subtrees_ st !! j
              ∧ assigned_work_ st' !! j = assigned_work_ st !! j
              ∧ remaining_work_for_query_subtrees_ st' !! j
                = remaining_work_for_query_subtrees_ st !! j
              ∧ query_subtree_locks_ st' !! j = query_subtree_locks_ st !! j
              ∧ tasks_ st' !! j = tasks_ st !! j)
  ∧ (∀ i st st',
       aligned st → retire_subtree i st = Some st' →
       aligned st' ∧ S (size st') = size st
       ∧ ∀ j, j < size st' →
              slot st' j
              = if decide (j = i) then slot st (size st') else slot st j)
  ∧ (∀ c q st st',
       aligned st → push_completed_computation c q st = Some st' →
       aligned st')
  ∧ (∀ id c q st st',
       aligned st → push_completed_computation_for id c q st = Some st' →
       aligned st')
  ∧ (∀ id st st',
       aligned st → UnlockQuerySubtree id st = Some st' → aligned st').
Proof.
  split_and!.
  - intros. apply Init_aligned.
  - intros metric_in ids st st' Hal Hrun.
    eapply generate_frame_aligned; [|done]. by eapply GenerateTasks_frame.
  - intros task_out lock st r Hal Hrun.
    eapply scan_aligned; [|done]. by eapply DequeueTask_scan.
  - intros i task_out lock st r Hal Hrun.
    apply DequeueTask_at_inv in Hrun as [-> | (top & rest & _ & _ & ->)];
      [done|].
    by apply taken_aligned.
  - intros metric_in st st' Hal Hrun.
    apply RedistributeAmongCores_inv in Hrun
      as [-> | [-> | (p & st1 & Hrun & ->)]]; [done|done|].
    apply split_subtree_inv in Hrun
      as (a & b & c & L & R & heap & w & r & _ & _ & _ & _ & _ & ->);
      [|done].
    by apply (split_result_aligned metric_in p _ L R w r heap st).
  - intros metric_in p st st' Hal Hrun.
    apply split_subtree_inv in Hrun
      as (a & b & c & L & R & heap & w & r & Hq & _ & _ & _ & _ & ->);
      [|done].
    split; [by apply split_result_aligned|].
    pose proof Hal as (Ha & Hr & Hl & Ht). unfold size. simpl.
    split; [rewrite length_app, length_insert; simpl; lia|].
    intros j Hj Hne.
    rewrite !lookup_app_l by (rewrite ?length_insert; lia).
    by rewrite !list_lookup_insert_ne.
  - intros i st st' Hal Hrun.
    pose proof (retire_subtree_retired i st st' Hrun) as Hret.
    split; [by eapply retired_aligned|].
    split; [|by apply slot_retired].
    destruct Hret as ([Hlen _] & _). unfold size. lia.
  - intros c q st st' Hal Hrun.
    by apply (push_completed_computation_frame c q st st').
  - intros id c q st st' Hal Hrun.
    by apply (push_completed_computation_for_frame id c q st st').
  - intros id st st' Hal Hrun.
    by apply (UnlockQuerySubtree_frame id st st').
Qed.

Lemma parallel_arrays_aligned_witness :
  aligned Example.st0 ∧ aligned Example.st1.
Proof.
  destruct parallel_arrays_aligned as (Hinit & Hgen & _).
  assert (aligned Example.st0) as H0 by apply Hinit.
  split; [exact H0|].
  apply (Hgen Example.metric Example.arrivals Example.st0 Example.st1 H0).
  vm_compute. reflexivity.
Defined.

(** * Further properties of the dispatcher *)

(** ** What the untargeted dequeue delivers and what it removes *)

Lemma concat_insert {A : Type} (ts : list (list A)) (i : nat)
    (h h' : list A) :
  ts !! i = Some h → concat (<[i := h']> ts) ++ h ≡ₚ concat ts ++ h'.
Proof.
  revert i. induction ts as [|u ts IH]; intros [|i] Hi; simplify_eq/=.
  - rewrite (Permutation_app_comm _ h), <- app_assoc. f_equiv.
    apply Permutation_app_comm.
  - rewrite <- !app_assoc. f_equiv. by apply IH.
Qed.

Lemma concat_swap_pop {A : Type} (ts ts' : list (list A)) (i : nat) :
  ts !! i = Some [] → swap_pop i ts = Some ts' → concat ts' ≡ₚ concat ts.
Proof.
  intros Hi (Hlt & x & Hx & ->)%swap_pop_inv.
  pose proof (concat_insert ts i [] x Hi) as Hins. rewrite app_nil_r in Hins.
  assert (<[i := x]> ts !! (length ts - 1) = Some x) as Hlast.
  { destruct (decide (i = length ts - 1)) as [->|Hne].
    - by rewrite list_lookup_insert_eq.
    - by rewrite list_lookup_insert_ne. }
  pose proof (take_drop (length ts - 1) (<[i := x]> ts)) as Hsplit.
  rewrite (drop_S _ _ _ Hlast) in Hsplit.
  rewrite drop_ge in Hsplit by (rewrite length_insert; lia).
  rewrite <- Hsplit, concat_app in Hins. simpl in Hins.
  rewrite app_nil_r in Hins. by apply Permutation_app_inv_r in Hins.
Qed.

Lemma pending_taken (i : nat) (lock : bool) (top : TaskType)
    (rest : TaskPriorityQueueType) (st : State) :
  tasks_ st !! i = Some (top :: rest) →
  pending st ≡ₚ top :: pending (taken i lock rest st).
Proof.
  intros Hh. unfold pending. simpl.
  pose proof (concat_insert (tasks_ st) i (top :: rest) rest Hh) as Hins.
  rewrite (Permutation_app_comm _ (top :: rest)) in Hins. simpl in Hins.
  rewrite Permutation_middle in Hins.
  rewrite (Permutation_app_comm _ rest) in Hins.
  by apply Permutation_app_inv_l in Hins.
Qed.

Lemma pending_retired (i : nat) (st st' : State) :
  tasks_ st !! i = Some [] → retired i st st' → pending st' ≡ₚ pending st.
Proof.
  intros Hi (_ & _ & _ & _ & Hts & _). unfold pending.
  apply swap_removed_swap_pop in Hts; [|by eapply lookup_lt_Some].
  by eapply concat_swap_pop.
Qed.

Lemma scan_pending (task_out : TaskOut) (lock : bool) (i : nat) (st : State)
    (r : State * TaskOut) :
  scan task_out lock i st r →
  (r.2 = task_out ∧ pending r.1 ≡ₚ pending st)
  ∨ ∃ t k, r.2 = Some (t, k) ∧ pending st ≡ₚ t :: pending r.1.
Proof.
  induction 1 as [i st Hi | i st top rest Hheap Hlocked
                 | i st top rest r Hheap Hlocked _ IH
                 | i st w r Hheap Hw Hne _ IH
                 | i st st' r Hheap Hw Hret _ IH]; simpl.
  - by left.
  - right. exists top, i. split; [done|]. by apply pending_taken.
  - done.
  - done.
  - pose proof (pending_retired i st st' Hheap Hret) as Hperm.
    destruct IH as [[-> Hp] | (t & k & -> & Hp)].
    + left. split; [done|]. by rewrite Hp.
    + right. exists t, k. split; [done|]. by rewrite <- Hperm.
Qed.

(** The slots other than the retired one are all found again, with
    their five entries together. *)
Lemma retired_slot_moves (i j : nat) (st st' : State) :
  retired i st st' → aligned st → j < size st → j ≠ i → i < size st →
  ∃ j', j' < size st' ∧ (j' = j ∨ j' = i) ∧ slot st' j' = slot st j.
Proof.
  intros Hret Hal Hj Hne Hi.
  pose proof (slot_retired i st st' Hret Hal) as Hslot.
  assert (size st = S (size st')) as Hsize.
  { destruct Hret as ([Hlen _] & _). unfold size. lia. }
  destruct (decide (j < size st')) as [Hlt | Hge].
  - exists j. split; [done|]. split; [by left|].
    rewrite Hslot by done. by rewrite decide_False.
  - assert (j = size st') as -> by lia.
    exists i. split; [lia|]. split; [by right|].
    rewrite Hslot by lia. by rewrite decide_True.
Qed.

Lemma slot_Some (st : State) (j : nat) (t : TreeType)
    (w : DisjointIntIntervals) (r : Z) (b : bool)
    (h : TaskPriorityQueueType) :
  slot st j = Some (t, w, r, b, h) ↔
  query_subtrees_ st !! j = Some t ∧ assigned_work_ st !! j = Some w
  ∧ remaining_work_for_query_subtrees_ st !! j = Some r
  ∧ query_subtree_locks_ st !! j = Some b ∧ tasks_ st !! j = Some h.
Proof.
  unfold slot. split.
  - intros Hs.
    destruct (query_subtrees_ st !! j); [|done].
    destruct (assigned_work_ st !! j); [|done].
    destruct (remaining_work_for_query_subtrees_ st !! j); [|done].
    destruct (query_subtree_locks_ st !! j); [|done].
    destruct (tasks_ st !! j); [|done].
    simpl in Hs. by simplify_eq.
  - by intros (-> & -> & -> & -> & ->).
Qed.

Lemma scan_survives (task_out : TaskOut) (lock : bool) (i : nat) (st : State)
    (r : State * TaskOut) :
  scan task_out lock i st r → aligned st →
  ∀ j t w rw b h,
    slot st j = Some (t, w, rw, b, h) → rw ≠ 0%Z ∨ h ≠ [] →
    ∃ j' b' h', slot r.1 j' = Some (t, w, rw, b', h').
Proof.
  induction 1 as [i st Hi | i st top rest Hheap Hlocked
                 | i st top rest r Hheap Hlocked _ IH
                 | i st w0 r Hheap Hw Hne _ IH
                 | i st st' r Hheap Hw Hret _ IH];
    intros Hal j t w rw b h Hslot Hlive; simpl.
  - by eauto.
  - apply slot_Some in Hslot as (Hq & Ha & Hr & Hb & Hh).
    destruct (decide (j = i)) as [-> | Hne].
    + exists i, lock, rest. apply slot_Some. simpl.
      rewrite !list_lookup_insert_eq by (by eapply lookup_lt_Some). done.
    + exists j, b, h. apply slot_Some. simpl.
      by rewrite !list_lookup_insert_ne.
  - by eapply IH.
  - by eapply IH.
  - pose proof Hslot as (Hq & Ha & Hr & Hb & Hh)%slot_Some.
    assert (j ≠ i) as Hji.
    { intros ->. destruct Hlive as [Hl | Hl]; simplify_eq. }
    destruct Hal as (Ha' & Hr' & Hl' & Ht').
    destruct (retired_slot_moves i j st st' Hret) as (j' & _ & _ & Hmoved);
      [done| | done | |].
    + unfold size. by eapply lookup_lt_Some.
    + unfold size. rewrite <- Ht'. by eapply lookup_lt_Some.
    + eapply (IH (retired_aligned i st st' Hret
                    (conj Ha' (conj Hr' (conj Hl' Ht'))))); [|done].
      by rewrite Hmoved.
Qed.

Lemma scan_delivers (task_out : TaskOut) (lock : bool) (i : nat) (st : State)
    (r : State * TaskOut) :
  scan task_out lock i st r → aligned st →
  (∃ j, i ≤ j ∧ servable st j) →
  ∃ t k, r.2 = Some (t, k)
         ∧ num_remaining_tasks_ r.1 = (num_remaining_tasks_ st - 1)%Z.
Proof.
  induction 1 as [i st Hi | i st top rest Hheap Hlocked
                 | i st top rest r Hheap Hlocked _ IH
                 | i st w r Hheap Hw Hne _ IH
                 | i st st' r Hheap Hw Hret _ IH];
    intros Hal (j & Hj & top' & rest' & Hh & Hl); simpl.
  - apply lookup_lt_Some in Hh. lia.
  - by eauto.
  - apply IH; [done|]. exists j. split; [|by exists top', rest'].
    destruct (decide (j = i)) as [-> | Hne]; [congruence | lia].
  - apply IH; [done|]. exists j. split; [|by exists top', rest'].
    destruct (decide (j = i)) as [-> | Hne']; [congruence | lia].
  - assert (j ≠ i) as Hji by (intros ->; congruence).
    pose proof Hal as (Ha' & Hr' & Hl' & Ht').
    pose proof (retired_aligned i st st' Hret Hal) as Hal'.
    pose proof (lookup_lt_Some _ _ _ Hh) as Hjlt.
    pose proof (lookup_lt_Some _ _ _ Hheap) as Hilt.
    destruct (lookup_lt_is_Some_2 (query_subtrees_ st) j) as [tq Hq]; [lia|].
    destruct (lookup_lt_is_Some_2 (assigned_work_ st) j) as [tw Hw']; [lia|].
    destruct (lookup_lt_is_Some_2 (remaining_work_for_query_subtrees_ st) j)
      as [tr Hr'']; [lia|].
    destruct (retired_slot_moves i j st st' Hret Hal)
      as (j' & Hj' & Hwhere & Hmoved);
      [unfold size; lia | done | unfold size; lia |].
    assert (slot st' j' = Some (tq, tw, tr, false, top' :: rest')) as Hslot.
    { rewrite Hmoved. by apply slot_Some. }
    apply slot_Some in Hslot as (_ & _ & _ & Hb' & Hh').
    destruct IH as (t & k & -> & Hnum); [done| |].
    + exists j'. split; [lia|]. by exists top', rest'.
    + exists t, k. split; [done|]. rewrite Hnum. f_equal. apply Hret.
Qed.

Lemma scan_passed (task_out : TaskOut) (lock : bool) (i : nat) (st : State)
    (r : State * TaskOut) :
  scan task_out lock i st r → aligned st → passed st i →
  ∃ k, passed r.1 k
       ∧ ((r.2 = task_out ∧ k = size r.1)
          ∨ ∃ t, r.2 = Some (t, k) ∧ k < size r.1
                 ∧ query_subtree_locks_ r.1 !! k = Some lock).
Proof.
  induction 1 as [i st Hi | i st top rest Hheap Hlocked
                 | i st top rest r Hheap Hlocked _ IH
                 | i st w r Hheap Hw Hne _ IH
                 | i st st' r Hheap Hw Hret _ IH];
    intros Hal Hpassed; simpl.
  - exists (size st). split; [|by left].
    destruct Hal as (_ & _ & _ & Ht). unfold size. rewrite <- Ht.
    intros j Hj. apply Hpassed. lia.
  - exists i. split.
    + intros j Hj. destruct (Hpassed j Hj) as [Hs Hf].
      unfold servable, finished_slot. simpl.
      rewrite !list_lookup_insert_ne by lia. done.
    + right. exists top. split; [done|].
      destruct Hal as (_ & _ & Hl & _). unfold size. simpl.
      pose proof (lookup_lt_Some _ _ _ Hlocked) as Hlt.
      split; [lia|]. by apply list_lookup_insert_eq.
  - apply IH; [done|]. intros j Hj.
    destruct (decide (j = i)) as [-> | Hne]; [|apply Hpassed; lia].
    split.
    + intros (t' & r' & _ & Hl). congruence.
    + intros [Hh _]. congruence.
  - apply IH; [done|]. intros j Hj.
    destruct (decide (j = i)) as [-> | Hne']; [|apply Hpassed; lia].
    split.
    + intros (t' & r' & Hh & _). congruence.
    + intros [_ Hr]. congruence.
  - apply IH; [by eapply retired_aligned|]. intros j Hj.
    destruct (Hpassed j Hj) as [Hs Hf].
    pose proof (lookup_lt_Some _ _ _ Hheap) as Hi.
    destruct Hret as (_ & _ & [Hlr Hr] & [Hll Hl] & [Hlt Ht] & _).
    destruct Hal as (_ & Har & Hal & Hat).
    unfold servable, finished_slot.
    rewrite (Hr j), (Hl j), (Ht j) by lia. rewrite !decide_False by lia.
    split; [exact Hs | exact Hf].
Qed.

(** X1.  Whenever some slot has a task in its heap and is not locked,
    the untargeted [DequeueTask] hands out a task, and the task counter
    is one lower afterwards; the retirement of finished slots on the
    way does not get in the way. *)
Theorem DequeueTask_delivers (task_out : TaskOut) (lock_query_subtree_in : bool)
    (st : State) (j : nat) :
  aligned st → servable st j →
  ∃ st' t k,
    DequeueTask task_out lock_query_subtree_in st = Some (st', Some (t, k))
    ∧ num_remaining_tasks_ st' = (num_remaining_tasks_ st - 1)%Z.
Proof.
  intros Hal Hserv.
  destruct (DequeueTask_loop_scan task_out lock_query_subtree_in
              (2 * length (tasks_ st) + 1) 0 st Hal)
    as ([st' out'] & Hrun & Hscan); [lia|].
  destruct (scan_delivers _ _ _ _ _ Hscan Hal) as (t & k & Hout & Hnum).
  { exists j. split; [lia|done]. }
  simpl in *. subst out'. by exists st', t, k.
Qed.

Lemma DequeueTask_delivers_witness :
  ∃ st' t k, DequeueTask None true Example.st2 = Some (st', Some (t, k)).
Proof.
  destruct (DequeueTask_delivers None true Example.st2 1)
    as (st' & t & k & Hrun & _).
  - vm_compute. done.
  - vm_compute. eauto.
  - by exists st', t, k.
Defined.

(** X2.  The untargeted [DequeueTask] loses no pending task: the tasks
    of all heaps before the call are, up to their order, the task
    handed out together with the tasks of all heaps afterwards, and the
    same tasks when none is handed out, although slots may have been
    removed and moved. *)
Theorem DequeueTask_keeps_pending (task_out : TaskOut)
    (lock_query_subtree_in : bool) (st : State) (r : State * TaskOut) :
  aligned st →
  DequeueTask task_out lock_query_subtree_in st = Some r →
  (r.2 = task_out ∧ pending r.1 ≡ₚ pending st)
  ∨ ∃ t k, r.2 = Some (t, k) ∧ pending st ≡ₚ t :: pending r.1.
Proof.
  intros Hal Hrun. eapply scan_pending. by eapply DequeueTask_scan.
Qed.

Lemma DequeueTask_keeps_pending_witness :
  (pq_size <$> tasks_ Example.st4) = [0; 3]
  ∧ ∃ st' t,
      DequeueTask None true Example.st4 = Some (st', Some (t, 0))
      ∧ query_start_node t = Example.q1
      ∧ query_subtrees_ st' = [Example.q1]
      ∧ (pq_size <$> tasks_ st') = [2]
      ∧ pending Example.st4 ≡ₚ t :: pending st'.
Proof.
  split; [vm_compute; reflexivity|].
  assert (aligned Example.st4) as Hal by (vm_compute; done).
  destruct (DequeueTask None true Example.st4) as [[st' [[t k]|]]|] eqn:Hrun;
    [|vm_compute in Hrun; discriminate ..].
  pose proof (DequeueTask_keeps_pending None true Example.st4 _ Hal Hrun)
    as Hkeep.
  vm_compute in Hrun. injection Hrun as <- <- <-.
  eexists _, _. split_and!; [reflexivity ..|].
  destruct Hkeep as [[Hnone _] | (t & k & Ht & Hp)]; [discriminate Hnone|].
  simpl in Ht. injection Ht as <- <-. exact Hp.
Defined.

(** X3.  In the arrays that the untargeted [DequeueTask] leaves behind,
    no slot below the index it answers can serve a task and none is
    finished: the task comes from the first slot that can serve, and
    the lock of that slot is the lock argument.  When no task is handed
    out this holds for every slot, so every finished subtree has been
    removed. *)
Theorem DequeueTask_first_servable (task_out : TaskOut)
    (lock_query_subtree_in : bool) (st : State) (r : State * TaskOut) :
  aligned st →
  DequeueTask task_out lock_query_subtree_in st = Some r →
  ∃ k, passed r.1 k
       ∧ ((r.2 = task_out ∧ k = size r.1)
          ∨ ∃ t, r.2 = Some (t, k) ∧ k < size r.1
                 ∧ query_subtree_locks_ r.1 !! k
                   = Some lock_query_subtree_in).
Proof.
  intros Hal Hrun. eapply scan_passed; [by eapply DequeueTask_scan|done|].
  intros j Hj. lia.
Qed.

Lemma DequeueTask_first_servable_witness :
  ∃ r k, DequeueTask None true Example.st2 = Some r ∧ passed r.1 k.
Proof.
  assert (aligned Example.st2) as Hal by (vm_compute; done).
  destruct (DequeueTask None true Example.st2) as [r|] eqn:Hrun;
    [|vm_compute in Hrun; discriminate].
  destruct (DequeueTask_first_servable None true Example.st2 r Hal Hrun)
    as (k & Hk & _).
  exists r, k. split; [reflexivity | exact Hk].
Defined.

(** X4.  The untargeted [DequeueTask] removes only finished subtrees: a
    slot with remaining work or with a task in its heap is found again
    afterwards, perhaps under another index, with the same subtree, the
    same interval set and the same remaining work. *)
Theorem DequeueTask_keeps_unfinished (task_out : TaskOut)
    (lock_query_subtree_in : bool) (st : State) (r : State * TaskOut) :
  aligned st →
  DequeueTask task_out lock_query_subtree_in st = Some r →
  ∀ j t w rw b h,
    slot st j = Some (t, w, rw, b, h) → rw ≠ 0%Z ∨ h ≠ [] →
    ∃ j' b' h', slot r.1 j' = Some (t, w, rw, b', h').
Proof.
  intros Hal Hrun. eapply scan_survives; [|done]. by eapply DequeueTask_scan.
Qed.

Lemma DequeueTask_keeps_unfinished_witness :
  ∃ r j' b' h',
    DequeueTask None true Example.st2 = Some r
    ∧ slot r.1 j' = Some (Example.q0, assigned_work_ Example.st1 !!! 0,
                          200%Z, b', h').
Proof.
  assert (aligned Example.st2) as Hal by (vm_compute; done).
  destruct (DequeueTask None true Example.st2) as [r|] eqn:Hrun;
    [|vm_compute in Hrun; discriminate].
  destruct (DequeueTask_keeps_unfinished None true Example.st2 r Hal Hrun 0
              Example.q0 (assigned_work_ Example.st1 !!! 0) 200%Z true
              (tasks_ Example.st2 !!! 0))
    as (j' & b' & h' & Hslot).
  - vm_compute. reflexivity.
  - left. discriminate.
  - exists r, j', b', h'. split; [reflexivity | exact Hslot].
Defined.

(** ** Locking by a dequeue and unlocking by id *)

Lemma FindQuerySubtreeIndex_taken (id : Z * Z * Z) (i : nat) (lock : bool)
    (rest : TaskPriorityQueueType) (st : State) :
  FindQuerySubtreeIndex_ id (taken i lock rest st)
  = FindQuerySubtreeIndex_ id st.
Proof. by destruct id as [[? ?] ?]. Qed.

(** X5.  A targeted [DequeueTask] that locks the subtree of slot [i],
    followed by [UnlockQuerySubtree] with the (begin, count) of that
    subtree, leaves the queue that the same dequeue without the lock
    leaves, provided no slot below [i] holds a subtree with the same
    (begin, count); the rank of the id plays no part. *)
Theorem lock_then_unlock (i : nat) (task_out : TaskOut) (id_rank : Z)
    (st : State) (q : TreeType) (top : TaskType)
    (rest : TaskPriorityQueueType) :
  aligned st →
  query_subtrees_ st !! i = Some q →
  tasks_ st !! i = Some (top :: rest) →
  query_subtree_locks_ st !! i = Some false →
  (∀ j u, j < i → query_subtrees_ st !! j = Some u →
          id_matches (id_rank, tree_begin q, tree_count q) u = false) →
  DequeueTask_at i task_out true st
  = Some (taken i true rest st, Some (top, i))
  ∧ UnlockQuerySubtree (id_rank, tree_begin q, tree_count q)
      (taken i true rest st)
    = Some (taken i false rest st)
  ∧ DequeueTask_at i task_out false st
    = Some (taken i false rest st, Some (top, i)).
Proof.
  intros Hal Hq Hh Hl Hfirst.
  split; [by apply DequeueTask_at_take|].
  split; [|by apply DequeueTask_at_take].
  set (id := (id_rank, tree_begin q, tree_count q)).
  assert (id_matches id q = true) as Hm.
  { unfold id_matches, id. simpl. by rewrite !Z.eqb_refl. }
  destruct (match_least_index id st i q Hq Hm)
    as (i' & u & Hle & Hidx & Hu & Hmu & _).
  assert (i' = i) as ->.
  { destruct (decide (i' = i)) as [|Hne]; [done|].
    specialize (Hfirst i' u ltac:(lia) Hu). unfold id in Hmu. congruence. }
  pose proof (lookup_lt_Some _ _ _ Hl) as Hi.
  unfold UnlockQuerySubtree.
  rewrite FindQuerySubtreeIndex_taken, Hidx, at_int_of_nat. simpl.
  rewrite list_lookup_insert_eq by done. simpl.
  rewrite Nat2Z.id, list_insert_insert_eq. done.
Qed.

Lemma lock_then_unlock_witness :
  ∃ top rest,
    tasks_ Example.st1 !! 1 = Some (top :: rest)
    ∧ UnlockQuerySubtree (7, 100, 100)%Z (taken 1 true rest Example.st1)
      = Some (taken 1 false rest Example.st1).
Proof.
  destruct (tasks_ Example.st1 !! 1) as [[|top rest]|] eqn:Hh;
    [vm_compute in Hh; discriminate | | vm_compute in Hh; discriminate].
  exists top, rest. split; [reflexivity|].
  destruct (lock_then_unlock 1 None 7 Example.st1 Example.q1 top rest)
    as (_ & Hunlock & _).
  - vm_compute. repeat split.
  - vm_compute. reflexivity.
  - exact Hh.
  - vm_compute. reflexivity.
  - intros [|j] u Hj Hu; [|lia]. vm_compute in Hu. injection Hu as <-.
    vm_compute. reflexivity.
  - exact Hunlock.
Defined.

(** ** The split of a locked subtree *)

(** X6.  [split_subtree_] at a slot that is locked and whose heap holds
    a task does not return: the targeted [DequeueTask] inside its first
    loop refuses the locked slot, so the heap never empties. *)
Theorem split_subtree_locked_spins (metric_in : MetricType) (p : nat)
    (st : State) (a b c : Z) (L R : TreeType) (top : TaskType)
    (rest : TaskPriorityQueueType) :
  query_subtrees_ st !! p = Some (Node a b c L R) →
  tasks_ st !! p = Some (top :: rest) →
  query_subtree_locks_ st !! p = Some true →
  split_subtree_ metric_in p st = None.
Proof.
  intros Hq Hh Hl. unfold split_subtree_. rewrite Hq. simpl.
  rewrite Hh. simpl.
  rewrite (drain_tasks_locked p top rest); [done|done|].
  simpl. rewrite lookup_app_l by (by eapply lookup_lt_Some). done.
Qed.

Lemma split_subtree_locked_spins_witness :
  split_subtree_ Example.metric 0 Example.st2 = None.
Proof.
  destruct (tasks_ Example.st2 !! 0) as [[|top rest]|] eqn:Hh;
    [vm_compute in Hh; discriminate | | vm_compute in Hh; discriminate].
  apply (split_subtree_locked_spins Example.metric 0 Example.st2 1 0 100
           (Leaf 2 0 50) (Leaf 3 50 50) top rest);
    [reflexivity | exact Hh | reflexivity].
Defined.

(** ** The retirement of the tail slot *)

Lemma swap_pop_tail {A : Type} (v : list A) (n : nat) :
  length v = n → 0 < n → swap_pop (n - 1) v = Some (take (n - 1) v).
Proof.
  intros <- Hlen. destruct (swap_pop_Some (length v - 1) v) as (x & Hx & ->);
    [lia|].
  by rewrite (list_insert_id _ _ _ Hx).
Qed.

(** X7.  When the slot retired is the tail itself, the swap is a
    self-assignment: each of the five arrays loses its last entry and
    every other slot keeps its index and its entries. *)
Theorem retire_subtree_tail (st : State) :
  aligned st → 0 < size st →
  retire_subtree (size st - 1) st
  = Some (mkQueue
            (take (size st - 1) (query_subtrees_ st))
            (take (size st - 1) (assigned_work_ st))
            (take (size st - 1) (remaining_work_for_query_subtrees_ st))
            (take (size st - 1) (query_subtree_locks_ st))
            (take (size st - 1) (tasks_ st))
            (split_subtree_after_unlocking_ st) (table_exchange_ st)
            (num_remaining_tasks_ st) (remaining_global_computation_ st)
            (remaining_local_computation_ st)).
Proof.
  intros (Ha & Hr & Hl & Ht) Hsize. unfold size in *. unfold retire_subtree.
  rewrite !(swap_pop_tail _ (length (query_subtrees_ st))) by done.
  done.
Qed.

Lemma retire_subtree_tail_witness :
  query_subtrees_ <$> retire_subtree 1 Example.finished = Some [Example.q0].
Proof.
  assert (aligned Example.finished) as Hal by (vm_compute; done).
  assert (0 < size Example.finished) as Hsize by (vm_compute; lia).
  pose proof (retire_subtree_tail Example.finished Hal Hsize) as Hrun.
  change (size Example.finished - 1) with 1 in Hrun.
  rewrite Hrun. reflexivity.
Defined.

(** ** [is_empty] and the heaps *)

Lemma total_tasks_zero (ts : list TaskPriorityQueueType) :
  total_tasks ts = 0 ↔ ∀ h, h ∈ ts → h = [].
Proof.
  unfold total_tasks. induction ts as [|u ts IH]; simpl.
  - split; [|done]. intros _ h Hh. by apply elem_of_nil in Hh.
  - split.
    + intros Hsum h [-> | Hh]%elem_of_cons.
      * destruct u; [done|]. simpl in Hsum. lia.
      * apply IH; [lia|done].
    + intros Hall. rewrite (Hall u) by (by left). simpl.
      apply IH. intros h Hh. apply Hall. by right.
Qed.

(** X8.  On a queue whose task counter is in step with its heaps,
    [is_empty] answers true exactly when every heap is empty, and
    [num_remaining_tasks] is never negative. *)
Theorem is_empty_exact (st : State) :
  tasks_counted st →
  (is_empty st = true ↔ ∀ h, h ∈ tasks_ st → h = [])
  ∧ (0 ≤ num_remaining_tasks st)%Z.
Proof.
  unfold tasks_counted, is_empty, num_remaining_tasks. intros ->.
  split; [|lia]. rewrite Z.eqb_eq, <- total_tasks_zero. lia.
Qed.

Lemma is_empty_exact_witness :
  is_empty Example.st0 = true ∧ is_empty Example.st1 = false.
Proof.
  assert (tasks_counted Example.st0) as H0 by (vm_compute; done).
  destruct (is_empty_exact Example.st0 H0) as [[_ Hall] _].
  split; [|reflexivity].
  apply Hall. intros h Hh. vm_compute in Hh.
  repeat (apply elem_of_cons in Hh as [-> | Hh]; [reflexivity|]).
  by apply elem_of_nil in Hh.
Defined.

(** ** The split keeps locks and tasks in step *)

Lemma push_all_perm (new : list TaskType) (h : TaskPriorityQueueType) :
  push_all new h ≡ₚ h ++ new.
Proof.
  revert h. induction new as [|t new IH]; intros h; simpl.
  - by rewrite app_nil_r.
  - rewrite IH, pq_push_perm. simpl. by rewrite Permutation_middle.
Qed.

Lemma holding_push_all (cid : Z) (new : list TaskType) :
  length (filter (λ u, cache_id u = cid) (push_all new []))
  = length (filter (λ u, cache_id u = cid) new).
Proof. by rewrite push_all_perm. Qed.

Lemma holding_reemitted (metric_in : MetricType) (T q : TreeType)
    (t : TaskType) (cid : Z) :
  length (filter (λ u, cache_id u = cid) (reemitted metric_in T q t))
  = if decide (cache_id t = cid) then length (reemitted metric_in T q t)
    else 0.
Proof.
  unfold reemitted.
  destruct (reference_start_node t) as [a b c | a b c l r];
    [|destruct (same_node T _)];
    rewrite ?filter_cons, ?filter_nil; simpl; by case_decide.
Qed.

Lemma calls_lock_all (cid : Z) (T : TreeType) (drained : list TaskType) :
  ∀ e,
    lock_total cid (calls (lock_all T drained e))
    = (lock_total cid (calls e)
       + lock_total cid
           ((λ t, LockCache (cache_id t) (lock_times T t)) <$> drained))%Z.
Proof.
  induction drained as [|t drained IH]; intros e; simpl.
  - unfold lock_total. simpl. lia.
  - change (lock_all T (t :: drained) e)
      with (lock_all T drained
              (exchange_call (LockCache (cache_id t) (lock_times T t)) e)).
    rewrite IH. simpl. rewrite lock_total_snoc. simpl.
    symmetry. apply Z.add_assoc.
Qed.

Lemma split_balance_heap (metric_in : MetricType) (cid : Z) (T L R : TreeType)
    (heap : list TaskType) :
  (lock_total cid ((λ t, LockCache (cache_id t) (lock_times T t)) <$> heap)
   + Z.of_nat (length (filter (λ u, cache_id u = cid) heap)))%Z
  = (Z.of_nat
       (length (filter (λ u, cache_id u = cid)
                  (heap ≫= reemitted metric_in T L)))
     + Z.of_nat
         (length (filter (λ u, cache_id u = cid)
                    (heap ≫= reemitted metric_in T R))))%Z.
Proof.
  induction heap as [|t heap IH]; [done|].
  rewrite !bind_cons, !filter_app, !length_app, fmap_cons, filter_cons.
  rewrite !holding_reemitted.
  unfold lock_total in *. simpl. fold (lock_total cid) in *.
  rewrite (lock_times_reemitted metric_in T L R t).
  destruct (Z.eqb_spec (cache_id t) cid) as [Heq | Hne].
  - rewrite !decide_True by done. simpl. lia.
  - rewrite !decide_False by done. lia.
Qed.

Lemma split_result_balance (metric_in : MetricType) (p : nat)
    (T L R : TreeType) (w : DisjointIntIntervals) (r : Z)
    (heap : TaskPriorityQueueType) (st : State) (cid : Z) :
  tasks_ st !! p = Some heap →
  lock_balance cid (split_result metric_in p T L R w r heap st)
  = lock_balance cid st.
Proof.
  intros Hh. unfold lock_balance, tasks_holding. simpl.
  rewrite calls_lock_all, sum_list_with_app. simpl.
  pose proof (sum_list_with_insert
                (λ h, length (filter (λ u, cache_id u = cid) h))
                (tasks_ st) p heap
                (push_all (heap ≫= reemitted metric_in T L) []) Hh) as Hsum.
  simpl in Hsum.
  pose proof (split_balance_heap metric_in cid T L R heap) as Hheap.
  rewrite !holding_push_all in *. lia.
Qed.

(** X9.  The split keeps the locks in step with the tasks: for every
    cache id, the locks taken on it less the tasks in the heaps that
    hold it are the same before and after [split_subtree_], and so
    before and after [RedistributeAmongCores]; the three locks for a
    task replaced by four and the one lock for a task replaced by two
    are exactly what the new tasks need. *)
Theorem split_keeps_lock_balance (metric_in : MetricType) (st st' : State)
    (cid : Z) :
  aligned st →
  (∀ p, split_subtree_ metric_in p st = Some st' →
        lock_balance cid st' = lock_balance cid st)
  ∧ (RedistributeAmongCores metric_in st = Some st' →
     lock_balance cid st' = lock_balance cid st).
Proof.
  intros Hal.
  assert (∀ p s, split_subtree_ metric_in p st = Some s →
                 lock_balance cid s = lock_balance cid st) as Hsplit.
  { intros p s Hrun.
    apply split_subtree_inv in Hrun
      as (a & b & c & L & R & heap & w & r & _ & _ & Hh & _ & _ & ->);
      [|done].
    by apply split_result_balance. }
  split; [intros p; by apply Hsplit|].
  intros [-> | [-> | (p & st1 & Hrun & ->)]]%RedistributeAmongCores_inv;
    [done|done|].
  by apply (Hsplit p st1).
Qed.

Lemma split_keeps_lock_balance_witness :
  lock_balance 9 Example.st3 = lock_balance 9 Example.st1.
Proof.
  assert (aligned (set_split_subtree_flag Example.st1)) as Hal
    by (vm_compute; repeat split).
  destruct (split_keeps_lock_balance Example.metric
              (set_split_subtree_flag Example.st1) Example.st3 9 Hal)
    as [_ Hred].
  apply Hred. vm_compute. reflexivity.
Defined.

(** ** Every task belongs to the subtree of its slot *)

Lemma elem_of_pq_push (t u : TaskType) (h : TaskPriorityQueueType) :
  u ∈ pq_push t h ↔ u = t ∨ u ∈ h.
Proof. by rewrite pq_push_perm, elem_of_cons. Qed.

Lemma Init_consistent (metric_in : MetricType) (frontier : list TreeType)
    (exchange : TableExchangeType) (n_entries : list (Z * Z)) (local_n : Z)
    (st : State) :
  tasks_consistent metric_in (Init frontier exchange n_entries local_n st).
Proof.
  intros j q h t _ Hh Ht. simpl in Hh.
  apply lookup_replicate in Hh as [-> _]. by apply elem_of_nil in Ht.
Qed.

Lemma enqueued_consistent (metric_in : MetricType) (x : Interval)
    (tb : TableType) (r : TreeType) (cid : Z) (j : nat) (q : TreeType)
    (w : DisjointIntIntervals) (h : TaskPriorityQueueType) (st : State) :
  query_subtrees_ st !! j = Some q → tasks_ st !! j = Some h →
  tasks_consistent metric_in st →
  tasks_consistent metric_in (enqueued metric_in x tb r cid j q w h st).
Proof.
  intros Hq Hh Hcons k q' h' t Hq' Hh' Ht. simpl in *.
  destruct (decide (k = j)) as [-> | Hne].
  - rewrite list_lookup_insert_eq in Hh' by (by eapply lookup_lt_Some).
    simplify_eq. apply elem_of_pq_push in Ht as [-> | Ht]; [done|].
    by eapply Hcons.
  - rewrite list_lookup_insert_ne in Hh' by done. by eapply Hcons.
Qed.

Lemma GenerateTasks_consistent (metric_in : MetricType)
    (ids : list (Z * Z * Z * Z)) (st st' : State) :
  GenerateTasks metric_in ids st = Some st' →
  tasks_consistent metric_in st → tasks_consistent metric_in st'.
Proof.
  revert st. induction ids as [|d ids IH]; intros st Hrun Hcons;
    simpl in Hrun.
  - by simplify_eq.
  - destruct (generate_for_subtable metric_in d st) as [s|] eqn:Hd; [|done].
    simpl in Hrun. apply (IH s Hrun).
    rewrite generate_for_subtable_eq in Hd.
    eapply (for_each_invariant _ (tasks_consistent metric_in));
      [|exact Hcons|exact Hd].
    intros i t t' _ Ht Hstep.
    apply generate_for_subtree_inv in Hstep
      as [[_ ->] | (w & q & r & h & _ & _ & Hq & _ & Hh & ->)]; [done|].
    by apply enqueued_consistent.
Qed.

Lemma taken_consistent (metric_in : MetricType) (i : nat) (lock : bool)
    (top : TaskType) (rest : TaskPriorityQueueType) (st : State) :
  tasks_ st !! i = Some (top :: rest) →
  tasks_consistent metric_in st →
  tasks_consistent metric_in (taken i lock rest st).
Proof.
  intros Hh Hcons k q h t Hq Hh' Ht. simpl in *.
  destruct (decide (k = i)) as [-> | Hne].
  - rewrite list_lookup_insert_eq in Hh' by (by eapply lookup_lt_Some).
    simplify_eq. eapply Hcons; [done|done|]. by right.
  - rewrite list_lookup_insert_ne in Hh' by done. by eapply Hcons.
Qed.

Lemma retired_consistent (metric_in : MetricType) (i : nat) (st st' : State) :
  retired i st st' → aligned st →
  tasks_consistent metric_in st → tasks_consistent metric_in st'.
Proof.
  intros Hret Hal Hcons k q h t Hq Hh Ht.
  pose proof (retired_aligned i st st' Hret Hal) as (_ & _ & _ & Ht').
  destruct Hret as ([_ Hqs] & _ & _ & _ & [_ Hts] & _).
  pose proof (lookup_lt_Some _ _ _ Hq) as Hk.
  rewrite Hqs in Hq by done. rewrite Hts in Hh by lia. rewrite Ht' in Hh.
  case_decide; by eapply Hcons.
Qed.

Lemma scan_consistent (metric_in : MetricType) (task_out : TaskOut)
    (lock : bool) (i : nat) (st : State) (r : State * TaskOut) :
  scan task_out lock i st r → aligned st →
  tasks_consistent metric_in st → tasks_consistent metric_in r.1.
Proof.
  induction 1; intros Hal Hcons; simpl; eauto using taken_consistent.
  apply IHscan; [by eapply retired_aligned|by eapply retired_consistent].
Qed.

Lemma elem_of_reemitted (metric_in : MetricType) (T q : TreeType)
    (t0 t : TaskType) :
  t ∈ reemitted metric_in T q t0 →
  query_start_node t = q
  ∧ priority t = (- metric_in q (reference_start_node t))%Z
  ∧ cache_id t = cache_id t0 ∧ reference_table t = reference_table t0.
Proof.
  unfold reemitted.
  destruct (reference_start_node t0) as [a b c | a b c l r];
    [|destruct (same_node T _)];
    rewrite ?elem_of_cons, elem_of_nil; intros Ht;
    repeat destruct Ht as [-> | Ht]; done.
Qed.

Lemma split_result_consistent (metric_in : MetricType) (p : nat)
    (T L R : TreeType) (w : DisjointIntIntervals) (r : Z)
    (heap : TaskPriorityQueueType) (st : State) :
  aligned st → p < size st →
  tasks_consistent metric_in st →
  tasks_consistent metric_in (split_result metric_in p T L R w r heap st).
Proof.
  intros (_ & _ & _ & Hts) Hp Hcons k q h t Hq Hh Ht. unfold size in *.
  simpl in *.
  assert (∀ q' : TreeType, t ∈ push_all (heap ≫= reemitted metric_in T q') []
            → query_start_node t = q'
              ∧ priority t = (- metric_in q' (reference_start_node t))%Z)
    as Hnew.
  { intros q'. rewrite push_all_perm. simpl.
    intros (t0 & Hin & _)%list_elem_of_bind.
    by apply elem_of_reemitted in Hin as (? & ? & _). }
  destruct (decide (k < length (query_subtrees_ st))) as [Hk | Hk].
  - rewrite lookup_app_l in Hq by (by rewrite length_insert).
    rewrite lookup_app_l in Hh by (rewrite length_insert; lia).
    destruct (decide (k = p)) as [-> | Hne].
    + rewrite list_lookup_insert_eq in Hq by done.
      rewrite list_lookup_insert_eq in Hh by lia. simplify_eq.
      by apply Hnew.
    + rewrite list_lookup_insert_ne in Hq by done.
      rewrite list_lookup_insert_ne in Hh by done. by eapply Hcons.
  - rewrite lookup_app_r in Hq by (rewrite length_insert; lia).
    rewrite lookup_app_r in Hh by (rewrite length_insert; lia).
    rewrite length_insert in Hq. rewrite length_insert in Hh.
    rewrite Hts in Hh.
    destruct (k - length (query_subtrees_ st)) as [|n]; simplify_eq/=.
    by apply Hnew.
Qed.

(** X10.  Every task in a heap belongs to the subtree of its slot: its
    query node is that subtree and its priority is the negated
    mid-distance of its pair.  [Init] establishes this and
    [GenerateTasks], both forms of [DequeueTask], [split_subtree_] and
    [RedistributeAmongCores] with the same metric keep it, through the
    re-issue of the tasks of a split subtree and through the moves of
    the compaction. *)
Theorem tasks_stay_consistent (metric_in : MetricType) :
  (∀ frontier exchange n_entries local_n st,
     tasks_consistent metric_in
       (Init frontier exchange n_entries local_n st))
  ∧ (∀ ids st st',
       tasks_consistent metric_in st →
       GenerateTasks metric_in ids st = Some st' →
       tasks_consistent metric_in st')
  ∧ (∀ task_out lock st r,
       aligned st → tasks_consistent metric_in st →
       DequeueTask task_out lock st = Some r →
       tasks_consistent metric_in r.1)
  ∧ (∀ i task_out lock st r,
       tasks_consistent metric_in st →
       DequeueTask_at i task_out lock st = Some r →
       tasks_consistent metric_in r.1)
  ∧ (∀ p st st',
       aligned st → tasks_consistent metric_in st →
       split_subtree_ metric_in p st = Some st' →
       tasks_consistent metric_in st')
  ∧ (∀ st st',
       aligned st → tasks_consistent metric_in st →
       RedistributeAmongCores metric_in st = Some st' →
       tasks_consistent metric_in st').
Proof.
  assert (∀ p st st',
            aligned st → tasks_consistent metric_in st →
            split_subtree_ metric_in p st = Some st' →
            tasks_consistent metric_in st') as Hsplit.
  { intros p st st' Hal Hcons Hrun.
    apply split_subtree_inv in Hrun
      as (a & b & c & L & R & heap & w & r & Hq & _ & _ & _ & _ & ->);
      [|done].
    apply split_result_consistent; [done| |done].
    unfold size. by eapply lookup_lt_Some. }
  split_and!.
  - intros. apply Init_consistent.
  - intros ids st st' Hcons Hrun. by eapply GenerateTasks_consistent.
  - intros task_out lock st r Hal Hcons Hrun.
    eapply scan_consistent; [|done|done]. by eapply DequeueTask_scan.
  - intros i task_out lock st r Hcons Hrun.
    apply DequeueTask_at_inv in Hrun as [-> | (top & rest & Hh & _ & ->)];
      [done|].
    by eapply taken_consistent.
  - exact Hsplit.
  - intros st st' Hal Hcons Hrun.
    apply RedistributeAmongCores_inv in Hrun
      as [-> | [-> | (p & st1 & Hrun & ->)]]; [done|done|].
    by apply (Hsplit p st st1).
Qed.

Lemma tasks_stay_consistent_witness :
  tasks_consistent Example.metric Example.st1.
Proof.
  destruct (tasks_stay_consistent Example.metric) as (Hinit & Hgen & _).
  apply (Hgen Example.arrivals Example.st0 Example.st1).
  - apply Hinit.
  - vm_compute. reflexivity.
Defined.

(** ** Who writes the work counters *)

Lemma scan_work_untouched (task_out : TaskOut) (lock : bool) (i : nat)
    (st : State) (r : State * TaskOut) :
  scan task_out lock i st r →
  remaining_global_computation_ r.1 = remaining_global_computation_ st
  ∧ remaining_local_computation_ r.1 = remaining_local_computation_ st
  ∧ table_exchange_ r.1 = table_exchange_ st.
Proof.
  induction 1 as [i st Hi | i st top rest Hheap Hlocked
                 | i st top rest r Hheap Hlocked _ IH
                 | i st w r Hheap Hw Hne _ IH
                 | i st st' r Hheap Hw Hret _ IH]; simpl; try done.
  destruct IH as (-> & -> & ->).
  destruct Hret as (_ & _ & _ & _ & _ & _ & -> & _ & -> & ->). done.
Qed.

(** X11.  The counters of remaining global and local work are written
    by [Init] and [push_completed_computation] only: [GenerateTasks],
    both forms of [DequeueTask], [split_subtree_],
    [RedistributeAmongCores] and [UnlockQuerySubtree] return them as
    they were, and the two dequeues and [UnlockQuerySubtree] make no
    call to the exchange either. *)
Theorem work_counters_untouched (metric_in : MetricType) (st : State) :
  aligned st →
  (∀ ids st',
     GenerateTasks metric_in ids st = Some st' →
     remaining_global_computation_ st' = remaining_global_computation_ st
     ∧ remaining_local_computation_ st' = remaining_local_computation_ st)
  ∧ (∀ task_out lock r,
       DequeueTask task_out lock st = Some r →
       remaining_global_computation_ r.1 = remaining_global_computation_ st
       ∧ remaining_local_computation_ r.1 = remaining_local_computation_ st
       ∧ table_exchange_ r.1 = table_exchange_ st)
  ∧ (∀ i task_out lock r,
       DequeueTask_at i task_out lock st = Some r →
       remaining_global_computation_ r.1 = remaining_global_computation_ st
       ∧ remaining_local_computation_ r.1 = remaining_local_computation_ st
       ∧ table_exchange_ r.1 = table_exchange_ st)
  ∧ (∀ p st',
       split_subtree_ metric_in p st = Some st' →
       remaining_global_computation_ st' = remaining_global_computation_ st
       ∧ remaining_local_computation_ st' = remaining_local_computation_ st)
  ∧ (∀ st',
       RedistributeAmongCores metric_in st = Some st' →
       remaining_global_computation_ st' = remaining_global_computation_ st
       ∧ remaining_local_computation_ st' = remaining_local_computation_ st)
  ∧ (∀ id st',
       UnlockQuerySubtree id st = Some st' →
       remaining_global_computation_ st' = remaining_global_computation_ st
       ∧ remaining_local_computation_ st' = remaining_local_computation_ st
       ∧ table_exchange_ st' = table_exchange_ st).
Proof.
  intros Hal.
  assert (∀ p st',
            split_subtree_ metric_in p st = Some st' →
            remaining_global_computation_ st'
            = remaining_global_computation_ st
            ∧ remaining_local_computation_ st'
              = remaining_local_computation_ st) as Hsplit.
  { intros p st' Hrun.
    apply split_subtree_inv in Hrun
      as (a & b & c & L & R & heap & w & r & _ & _ & _ & _ & _ & ->);
      done. }
  split_and!.
  - intros ids st' Hrun.
    apply GenerateTasks_frame in Hrun as (_ & _ & _ & _ & -> & -> & _). done.
  - intros task_out lock r Hrun. eapply scan_work_untouched.
    by eapply DequeueTask_scan.
  - intros i task_out lock r Hrun.
    by apply DequeueTask_at_inv in Hrun as [-> | (top & rest & _ & _ & ->)].
  - exact Hsplit.
  - intros st' Hrun.
    apply RedistributeAmongCores_inv in Hrun
      as [-> | [-> | (p & st1 & Hrun & ->)]]; [done|done|].
    by apply (Hsplit p st1).
  - intros id st' Hrun. unfold UnlockQuerySubtree in Hrun.
    destruct (at_int _ _); [|done]. simpl in Hrun. by simplify_eq.
Qed.

Lemma work_counters_untouched_witness :
  remaining_global_computation_ Example.st1
  = remaining_global_computation_ Example.st0.
Proof.
  assert (aligned Example.st0) as Hal by (vm_compute; repeat split).
  destruct (work_counters_untouched Example.metric Example.st0 Hal)
    as (Hgen & _).
  apply (Hgen Example.arrivals Example.st1). vm_compute. reflexivity.
Defined.

(** ** Arrivals at a queue without subtrees *)

(** X13.  On a queue without live query subtree [GenerateTasks] returns
    the queue as it is, whatever arrives: nothing is recorded, no lock
    is taken, and a descriptor that resolves to no node is not even
    looked at. *)
Theorem GenerateTasks_no_subtree (metric_in : MetricType)
    (ids : list (Z * Z * Z * Z)) (st : State) :
  size st = 0 → GenerateTasks metric_in ids st = Some st.
Proof.
  intros Hsize. induction ids as [|d ids IH]; simpl; [done|].
  rewrite generate_for_subtable_eq, Hsize. simpl. exact IH.
Qed.

Lemma GenerateTasks_no_subtree_witness :
  GenerateTasks Example.metric [(1, 500, 5, 99)]%Z
    (new_queue Example.exchange)
  = Some (new_queue Example.exchange).
Proof. apply GenerateTasks_no_subtree. reflexivity. Defined.

(** ** An arrival that no subtree has seen *)

Lemma generate_loop_fresh (metric_in : MetricType) (x : Interval)
    (tb : TableType) (r : TreeType) (cid : Z) (st : State) (k : nat) :
  aligned st → k ≤ size st →
  (∀ j, j < size st → covered_at st j x = false) →
  ∃ s,
    for_each (generate_for_subtree metric_in x (tb, Some r, cid))
      (seq 0 k) st = Some s
    ∧ generate_frame st s
    ∧ (∀ j q h, j < k → query_subtrees_ st !! j = Some q →
                tasks_ st !! j = Some h →
                tasks_ s !! j
                = Some (pq_push (mkTask q tb r cid (- metric_in q r)) h))
    ∧ (∀ j, k ≤ j → tasks_ s !! j = tasks_ st !! j
                    ∧ assigned_work_ s !! j = assigned_work_ st !! j)
    ∧ num_remaining_tasks_ s = (num_remaining_tasks_ st + Z.of_nat k)%Z
    ∧ calls (table_exchange_ s)
      = calls (table_exchange_ st) ++ replicate k (LockCache cid 1).
Proof.
  intros Hal Hk Hfresh. induction k as [|k IH].
  - exists st. simpl. rewrite app_nil_r, Z.add_0_r.
    split_and!; try done. intros j q h Hj. lia.
  - destruct IH as (s & Hrun & Hframe & Hdone & Hrest & Hnum & Hcalls);
      [lia|].
    pose proof (generate_frame_aligned st s Hframe Hal) as Hal'.
    pose proof Hframe as (Hqs & _).
    destruct (generate_for_subtree_total metric_in x tb r cid k s Hal')
      as [s' Hstep]; [unfold size in *; rewrite Hqs; lia|].
    exists s'. rewrite seq_S, for_each_app, Hrun. simpl.
    split; [by rewrite Hstep|].
    pose proof (generate_for_subtree_frame _ _ _ _ _ _ Hstep) as Hframe'.
    split; [by etrans|].
    destruct (Hrest k) as [Htk Hak]; [lia|].
    apply generate_for_subtree_inv in Hstep
      as [[Hcov _] | (w & q & r' & h & Hw & _ & Hq & Hr & Hh & ->)].
    { exfalso. unfold covered_at in Hcov. rewrite Hak in Hcov.
      specialize (Hfresh k ltac:(lia)). unfold covered_at in Hfresh.
      congruence. }
    simplify_eq. simpl. split_and!.
    + intros j q' h' Hj Hq' Hh'. destruct (decide (j = k)) as [-> | Hne].
      * rewrite list_lookup_insert_eq by (by eapply lookup_lt_Some).
        rewrite Hqs in Hq. rewrite Htk in Hh. by simplify_eq.
      * rewrite list_lookup_insert_ne by done. apply Hdone; [lia|done..].
    + intros j Hj. rewrite !list_lookup_insert_ne by lia. apply Hrest. lia.
    + rewrite Hnum. lia.
    + rewrite Hcalls, <- app_assoc. f_equal. symmetry.
      apply replicate_cons_app.
Qed.

(** X14.  A received descriptor that resolves to a node and whose
    interval no live subtree covers yet gives every live subtree
    exactly one new task, for that node, that table and that cache id,
    with the priority of the pair; the task counter rises by the number
    of live subtrees, [LockCache(cache_id, 1)] is called once for each
    of them and for nothing else, and afterwards every subtree covers
    the interval. *)
Theorem GenerateTasks_fresh_arrival (metric_in : MetricType)
    (received : Z * Z * Z * Z) (st : State) (r : TreeType) :
  aligned st →
  reference_node_of (table_exchange_ st) received = Some r →
  (∀ j, j < size st →
        covered_at st j (reference_interval (table_exchange_ st) received)
        = false) →
  ∃ st',
    GenerateTasks metric_in [received] st = Some st'
    ∧ (∀ j q h,
         query_subtrees_ st !! j = Some q → tasks_ st !! j = Some h →
         tasks_ st' !! j
         = Some (pq_push
                   (mkTask q (reference_table_of (table_exchange_ st) received)
                      r received.2 (- metric_in q r)) h))
    ∧ num_remaining_tasks_ st'
      = (num_remaining_tasks_ st + Z.of_nat (size st))%Z
    ∧ calls (table_exchange_ st')
      = calls (table_exchange_ st)
        ++ replicate (size st) (LockCache received.2 1)
    ∧ ∀ j, j < size st →
           covered_at st' j (reference_interval (table_exchange_ st) received)
           = true.
Proof.
  intros Hal Hnode Hfresh.
  destruct (generate_loop_fresh metric_in
              (reference_interval (table_exchange_ st) received)
              (reference_table_of (table_exchange_ st) received)
              r received.2 st (size st) Hal)
    as (s & Hrun & _ & Hdone & _ & Hnum & Hcalls); [done|done|].
  exists s. cbn [GenerateTasks].
  rewrite generate_for_subtable_eq, Hnode, Hrun. simpl.
  split_and!; try done.
  - intros j q h Hq Hh. apply Hdone; [|done..].
    unfold size. by eapply lookup_lt_Some.
  - by eapply generate_loop_covers.
Qed.

Lemma GenerateTasks_fresh_arrival_witness :
  ∃ st',
    GenerateTasks Example.metric [(1, 0, 50, 7)]%Z Example.st0 = Some st'
    ∧ calls (table_exchange_ st') = [LockCache 7 1; LockCache 7 1].
Proof.
  assert (aligned Example.st0) as Hal by (vm_compute; repeat split).
  destruct (GenerateTasks_fresh_arrival Example.metric (1, 0, 50, 7)%Z
              Example.st0 Example.r7 Hal)
    as (st' & Hrun & _ & _ & Hcalls & _).
  - reflexivity.
  - intros [|[|j]] Hj; [reflexivity | reflexivity | vm_compute in Hj; lia].
  - exists st'. split; [exact Hrun | exact Hcalls].
Defined.

(** ** Arrivals after a split *)

Lemma same_queries_lock_all (T : TreeType) (drained : list TaskType) :
  ∀ e, same_queries e (lock_all T drained e).
Proof.
  induction drained as [|t drained IH]; intros e; [done|].
  change (lock_all T (t :: drained) e)
    with (lock_all T drained
            (exchange_call (LockCache (cache_id t) (lock_times T t)) e)).
  destruct (IH (exchange_call (LockCache (cache_id t) (lock_times T t)) e))
    as (H1 & H2 & H3 & H4).
  unfold same_queries. by rewrite H1, H2, H3, H4.
Qed.

Lemma covered_at_split_result (metric_in : MetricType) (p : nat)
    (T L R : TreeType) (w : DisjointIntIntervals) (r : Z)
    (heap : TaskPriorityQueueType) (st : State) (j : nat) (x : Interval) :
  aligned st → assigned_work_ st !! p = Some w →
  covered_at (split_result metric_in p T L R w r heap st) j x
  = if decide (j = size st) then covered_at st p x else covered_at st j x.
Proof.
  intros (Ha & _) Hw. unfold covered_at, size. simpl. case_decide as Hj.
  - subst j. rewrite lookup_app_r by lia. rewrite Ha, Nat.sub_diag, Hw. done.
  - destruct (decide (j < length (query_subtrees_ st))) as [Hlt | Hge].
    + by rewrite lookup_app_l by lia.
    + rewrite !lookup_ge_None_2; [done|lia|].
      rewrite length_app. simpl. lia.
Qed.

(** X15.  The split hands the history of the parent to both children:
    the interval set of the left child is that of the parent, the
    interval set of the right child covers what the parent covered, and
    the other subtrees keep theirs.  So after [GenerateTasks] on a list
    of arrivals and a split, the same arrivals delivered again give no
    task and take no lock. *)
Theorem split_inherits_coverage (metric_in : MetricType) (p : nat)
    (st st' : State) :
  aligned st → split_subtree_ metric_in p st = Some st' →
  (∀ j x, covered_at st' j x
          = if decide (j = size st) then covered_at st p x
            else covered_at st j x)
  ∧ (∀ ids st0,
       GenerateTasks metric_in ids st0 = Some st →
       GenerateTasks metric_in ids st' = Some st').
Proof.
  intros Hal Hrun.
  apply split_subtree_inv in Hrun
    as (a & b & c & L & R & heap & w & r & Hq & _ & _ & Hw & _ & ->);
    [|done].
  pose proof (lookup_lt_Some _ _ _ Hq) as Hp.
  split; [intros j x; by apply covered_at_split_result|].
  intros ids st0 Hgen. apply GenerateTasks_covered. intros d j Hd Hj.
  pose proof (GenerateTasks_frame _ _ _ _ Hgen)
    as (Hqs & _ & _ & _ & _ & _ & Hsame & _).
  assert (∀ k, k < size st →
               covered_at st k (reference_interval (table_exchange_ st0) d)
               = true) as Hcov.
  { intros k Hk. eapply GenerateTasks_covers; [done|done|].
    unfold size in *. by rewrite <- Hqs. }
  destruct (reference_interval_same _ _ d
              (same_queries_lock_all (Node a b c L R) heap
                 (table_exchange_ st))) as [Hint _].
  simpl. rewrite Hint.
  destruct (reference_interval_same _ _ d Hsame) as [-> _].
  rewrite covered_at_split_result by done.
  assert (size (split_result metric_in p (Node a b c L R) L R w r heap st)
          = S (size st)) as Hsize.
  { unfold size. simpl. rewrite length_app, length_insert. simpl. lia. }
  case_decide; apply Hcov; unfold size in *; lia.
Qed.

Lemma split_inherits_coverage_witness :
  GenerateTasks Example.metric Example.arrivals Example.st3
  = Some Example.st3.
Proof.
  assert (aligned Example.st1) as Hal by (vm_compute; repeat split).
  destruct (split_inherits_coverage Example.metric 0 Example.st1
              Example.st3 Hal) as [_ Hagain].
  - vm_compute. reflexivity.
  - apply (Hagain Example.arrivals Example.st0). vm_compute. reflexivity.
Defined.

(** ** Reports of completed work add up *)

Lemma wrap64_sub_sub (x a b : Z) :
  wrap64 (wrap64 (x - a) - b) = wrap64 (x - wrap64 (a + b)).
Proof.
  unfold wrap64. rewrite Zminus_mod_idemp_l, Zminus_mod_idemp_r.
  f_equal. lia.
Qed.

(** X16.  Two untargeted reports of completed work, one after the
    other, leave the three kinds of work counter where one report of
    the two sums, taken in 64-bit arithmetic, leaves them; only the
    number of notifications to the exchange differs. *)
Theorem push_completed_computation_adds (c1 q1 c2 q2 : Z) (st : State) :
  aligned st →
  ∃ s1 s2 s,
    push_completed_computation c1 q1 st = Some s1
    ∧ push_completed_computation c2 q2 s1 = Some s2
    ∧ push_completed_computation (wrap64 (c1 + c2)) (wrap64 (q1 + q2)) st
      = Some s
    ∧ remaining_global_computation_ s2 = remaining_global_computation_ s
    ∧ remaining_local_computation_ s2 = remaining_local_computation_ s
    ∧ remaining_work_for_query_subtrees_ s2
      = remaining_work_for_query_subtrees_ s
    ∧ calls (table_exchange_ s2)
      = calls (table_exchange_ st) ++ [PushCompleted q1; PushCompleted q2].
Proof.
  intros (Ha & Hr & Hl & Ht).
  eexists _, _, _.
  split; [by apply push_completed_computation_eq|].
  split.
  { apply push_completed_computation_eq. simpl. by rewrite length_fmap. }
  split; [by apply push_completed_computation_eq|].
  simpl. rewrite !wrap64_sub_sub, <- list_fmap_compose, <- app_assoc.
  split_and!; try done.
  apply list_fmap_ext. intros i x _. simpl. apply wrap64_sub_sub.
Qed.

Lemma push_completed_computation_adds_witness :
  ∃ s2, (push_completed_computation 100 30000 Example.st0
           ≫= push_completed_computation 100 50000) = Some s2
        ∧ remaining_work_for_query_subtrees_ s2 = [0; 0]%Z
        ∧ remaining_global_computation_ s2 = 0%Z.
Proof.
  assert (aligned Example.st0) as Hal by (vm_compute; repeat split).
  destruct (push_completed_computation_adds 100 30000 100 50000 Example.st0
              Hal) as (s1 & s2 & s & H1 & H2 & H12 & Hg & _ & Hrw & _).
  exists s2. rewrite H1. simpl. split; [exact H2|].
  rewrite Hrw, Hg. vm_compute in H12. injection H12 as <-.
  split; reflexivity.
Defined.

(** ** The untargeted dequeue on an idle and on a finished queue *)

Lemma retired_all_finished (i : nat) (st st' : State) :
  retired i st st' → aligned st →
  (∀ j, j < size st → finished_slot st j) →
  ∀ j, j < size st' → finished_slot st' j.
Proof.
  intros Hret Hal Hall j Hj.
  pose proof (retired_aligned i st st' Hret Hal) as (_ & Hr' & _ & Ht').
  destruct Hret as ([Hlen _] & _ & [_ Hr] & _ & [_ Ht] & _).
  unfold finished_slot, size in *.
  rewrite Hr, Ht by lia. rewrite Hr', Ht'.
  case_decide; apply Hall; lia.
Qed.

Lemma scan_all_finished (task_out : TaskOut) (lock : bool) (i : nat)
    (st : State) (r : State * TaskOut) :
  scan task_out lock i st r → i = 0 → aligned st →
  (∀ j, j < size st → finished_slot st j) →
  r.2 = task_out ∧ size r.1 = 0.
Proof.
  induction 1 as [i st Hi | i st top rest Hheap Hlocked
                 | i st top rest r Hheap Hlocked _ IH
                 | i st w r Hheap Hw Hne _ IH
                 | i st st' r Hheap Hw Hret _ IH];
    intros -> Hal Hall; simpl.
  - split; [done|]. destruct Hal as (_ & _ & _ & Ht). unfold size. lia.
  - destruct Hal as (_ & _ & _ & Ht).
    destruct (Hall 0) as [Hh _]; [|congruence].
    unfold size. rewrite <- Ht. by eapply lookup_lt_Some.
  - destruct Hal as (_ & _ & _ & Ht).
    destruct (Hall 0) as [Hh _]; [|congruence].
    unfold size. rewrite <- Ht. by eapply lookup_lt_Some.
  - destruct Hal as (_ & _ & _ & Ht).
    destruct (Hall 0) as [_ Hr]; [|congruence].
    unfold size. rewrite <- Ht. by eapply lookup_lt_Some.
  - apply IH; [done|by eapply retired_aligned|].
    by eapply retired_all_finished.
Qed.

Lemma scan_idle (task_out : TaskOut) (lock : bool) (i : nat) (st : State)
    (r : State * TaskOut) :
  scan task_out lock i st r →
  (∀ j, ¬ servable st j ∧ ¬ finished_slot st j) →
  r = (st, task_out).
Proof.
  induction 1 as [i st Hi | i st top rest Hheap Hlocked
                 | i st top rest r Hheap Hlocked _ IH
                 | i st w r Hheap Hw Hne _ IH
                 | i st st' r Hheap Hw Hret _ IH]; intros Hidle.
  - done.
  - destruct (Hidle i) as [Hs _]. exfalso. apply Hs. by exists top, rest.
  - by apply IH.
  - by apply IH.
  - destruct (Hidle i) as [_ Hf]. exfalso. by apply Hf.
Qed.

(** X17.  When every live subtree is finished, its heap empty and no
    work remaining, the untargeted [DequeueTask] hands out nothing and
    leaves a queue without any subtree.  When no subtree is finished
    and none can serve a task, it returns the queue exactly as it
    was. *)
Theorem DequeueTask_idle_or_finished (task_out : TaskOut)
    (lock_query_subtree_in : bool) (st : State) :
  aligned st →
  ((∀ j, j < size st → finished_slot st j) →
   ∃ st', DequeueTask task_out lock_query_subtree_in st
          = Some (st', task_out)
          ∧ size st' = 0)
  ∧ ((∀ j, ¬ servable st j ∧ ¬ finished_slot st j) →
     DequeueTask task_out lock_query_subtree_in st = Some (st, task_out)).
Proof.
  intros Hal.
  destruct (DequeueTask_loop_scan task_out lock_query_subtree_in
              (2 * length (tasks_ st) + 1) 0 st Hal)
    as ([st' out'] & Hrun & Hscan); [lia|].
  split.
  - intros Hall.
    destruct (scan_all_finished _ _ _ _ _ Hscan eq_refl Hal Hall)
      as [Hout Hsize].
    simpl in *. subst out'. by exists st'.
  - intros Hidle. pose proof (scan_idle _ _ _ _ _ Hscan Hidle) as Heq.
    unfold DequeueTask. by rewrite Hrun, Heq.
Qed.

Lemma DequeueTask_idle_or_finished_witness :
  ∃ st', DequeueTask None true Example.finished = Some (st', None)
         ∧ size st' = 0.
Proof.
  assert (aligned Example.finished) as Hal by (vm_compute; repeat split).
  destruct (DequeueTask_idle_or_finished None true Example.finished Hal)
    as [Hfin _].
  apply Hfin. intros [|[|j]] Hj; [split; reflexivity .. |].
  vm_compute in Hj. lia.
Defined.

(** ** The two forms of [DequeueTask] agree *)

Lemma scan_first_servable (task_out : TaskOut) (lock : bool) (i : nat)
    (st : State) (r : State * TaskOut) :
  scan task_out lock i st r →
  ∀ k top rest,
    i ≤ k →
    (∀ j, i ≤ j < k → ¬ servable st j ∧ ¬ finished_slot st j) →
    tasks_ st !! k = Some (top :: rest) →
    query_subtree_locks_ st !! k = Some false →
    r = (taken k lock rest st, Some (top, k)).
Proof.
  induction 1 as [i st Hi | i st top0 rest0 Hheap Hlocked
                 | i st top0 rest0 r Hheap Hlocked _ IH
                 | i st w r Hheap Hw Hne _ IH
                 | i st st' r Hheap Hw Hret _ IH];
    intros k top rest Hik Hbelow Hh Hl.
  - apply lookup_lt_Some in Hh. lia.
  - destruct (decide (i = k)) as [-> | Hne]; [by simplify_eq|].
    destruct (Hbelow i) as [Hs _]; [lia|]. exfalso. apply Hs.
    by exists top0, rest0.
  - assert (i ≠ k) by (intros ->; congruence).
    apply IH; [lia| |done|done]. intros j Hj. apply Hbelow. lia.
  - assert (i ≠ k) by (intros ->; congruence).
    apply IH; [lia| |done|done]. intros j Hj. apply Hbelow. lia.
  - assert (i ≠ k) by (intros ->; congruence).
    destruct (Hbelow i) as [_ Hf]; [lia|]. exfalso. by apply Hf.
Qed.

(** X18.  When slot [k] can serve a task and no slot below it can serve
    or is finished, the untargeted [DequeueTask] does exactly what the
    targeted [DequeueTask] at [k] does: the same queue afterwards and
    the same task with the index [k]. *)
Theorem DequeueTask_agrees_with_targeted (task_out : TaskOut)
    (lock_query_subtree_in : bool) (st : State) (k : nat) (top : TaskType)
    (rest : TaskPriorityQueueType) :
  aligned st → passed st k →
  tasks_ st !! k = Some (top :: rest) →
  query_subtree_locks_ st !! k = Some false →
  DequeueTask task_out lock_query_subtree_in st
  = DequeueTask_at k task_out lock_query_subtree_in st
  ∧ DequeueTask task_out lock_query_subtree_in st
    = Some (taken k lock_query_subtree_in rest st, Some (top, k)).
Proof.
  intros Hal Hpassed Hh Hl.
  rewrite (DequeueTask_at_take k task_out lock_query_subtree_in st top rest
             Hh Hl).
  destruct (DequeueTask_loop_scan task_out lock_query_subtree_in
              (2 * length (tasks_ st) + 1) 0 st Hal)
    as (r & Hrun & Hscan); [lia|].
  unfold DequeueTask. rewrite Hrun.
  rewrite (scan_first_servable _ _ _ _ _ Hscan k top rest); try done; [lia|].
  intros j Hj. apply Hpassed. lia.
Qed.

Lemma DequeueTask_agrees_with_targeted_witness :
  DequeueTask None true Example.st2 = DequeueTask_at 1 None true Example.st2.
Proof.
  destruct (tasks_ Example.st2 !! 1) as [[|top rest]|] eqn:Hh;
    [vm_compute in Hh; discriminate | | vm_compute in Hh; discriminate].
  destruct (DequeueTask_agrees_with_targeted None true Example.st2 1 top rest)
    as [Hagree _].
  - vm_compute. repeat split.
  - intros [|j] Hj; [|lia]. split.
    + intros (t' & r' & _ & Hl). vm_compute in Hl. discriminate.
    + intros [Hempty _]. vm_compute in Hempty. discriminate.
  - exact Hh.
  - vm_compute. reflexivity.
  - exact Hagree.
Defined.

(** ** A report too many *)

(** X19.  [can_terminate] is not stable: on a queue where it answers
    true, one more report of [quantity_in] units, with
    [0 < quantity_in < 2^64], wraps the counter of remaining global
    work to [2^64 - quantity_in] and [can_terminate] answers false. *)
Theorem can_terminate_lost (reference_count_in quantity_in : Z) (st : State) :
  aligned st → can_terminate st = true →
  (0 < quantity_in < 2 ^ 64)%Z →
  ∃ st',
    push_completed_computation reference_count_in quantity_in st = Some st'
    ∧ remaining_global_computation_ st' = (2 ^ 64 - quantity_in)%Z
    ∧ can_terminate st' = false.
Proof.
  intros Hal Hterm Hq. pose proof Hal as (_ & Hr & _).
  unfold can_terminate in Hterm.
  apply andb_prop in Hterm as [Hzero%Z.eqb_eq _].
  eexists. split; [by apply push_completed_computation_eq|].
  unfold can_terminate. simpl. rewrite Hzero.
  assert (wrap64 (0 - quantity_in) = (2 ^ 64 - quantity_in)%Z) as ->.
  { unfold wrap64. rewrite <- (Z.mod_add _ 1) by lia.
    rewrite Z.mod_small by lia. lia. }
  split; [done|]. rewrite (proj2 (Z.eqb_neq _ _)) by lia. done.
Qed.

Lemma can_terminate_lost_witness :
  ∃ st0 st',
    can_terminate st0 = true
    ∧ push_completed_computation 0 1 st0 = Some st'
    ∧ can_terminate st' = false.
Proof.
  destruct (push_completed_computation 0 80000 Example.st0) as [st0|] eqn:H0;
    [|vm_compute in H0; discriminate].
  assert (aligned st0 ∧ can_terminate st0 = true) as [Hal Hterm].
  { vm_compute in H0. injection H0 as <-. vm_compute. repeat split. }
  destruct (can_terminate_lost 0 1 st0 Hal Hterm) as (st' & Hrun & _ & Hno);
    [lia|].
  exists st0, st'. split; [exact Hterm|]. split; [exact Hrun | exact Hno].
Defined.
